(** * Lobster task provider: the scheduler of [lobster/core/source.py]

    A shallow embedding of [TaskProvider.obtain] and [TaskProvider.release]
    together with the properties of the provisioning cycle, followed by
    the release summary, the set-up of the provider and the script
    [merge_reports.py].

    Conventions of the embedding.
    - Python integers are [Z].  Python dictionaries are [gmap]s; a loop over
      [d.items()] runs over [map_to_list d], an enumeration that is fixed but
      otherwise unspecified, as the iteration order of a Python 2 dictionary.
    - Floats occur as quotients of integers, as the task estimate returned
      by the unit store and in the product [0.1 * total].  The quotients and
      the estimate are modelled by the rationals [Q]: the quotient of two
      integers below 2^53 is correctly rounded, so both [math.ceil] and
      [int] of it agree with the exact quotient for all core counts that
      can occur.  The product is modelled as the product of doubles that it
      is, rounded to the nearest double, for every total in the range of
      the doubles (below 2^1024, where Python raises [OverflowError]).
    - Exceptions are an explicit result type; [release] also keeps the
      state reached when the exception is raised.
    - The unit store, the task handlers and the storage layer are the
      interfaces through which [source.py] talks to the rest of Lobster. *)

From Stdlib Require Import ZArith QArith Qround Lia.
From stdpp Require Import gmap strings list fin_maps sorting pretty.

#[local] Set Warnings "-clear-no-such-hyp".

Open Scope Z_scope.

(* ===================================================================== *)
(** * Exceptions *)
(* ===================================================================== *)

Inductive exn : Type :=
| KeyError
| IndexError
| AttributeError
| ZeroDivisionError
| IOError
| OSError
| ValueError
| RuntimeError.

Inductive result (A : Type) : Type :=
| Ok (a : A)
| Raise (e : exn).
Arguments Ok {A} a.
Arguments Raise {A} e.

#[global] Instance result_ret : MRet result := fun A a => Ok a.
#[global] Instance result_bind : MBind result := fun A B f m =>
  match m with
  | Ok a => f a
  | Raise e => Raise e
  end.

#[global] Instance result_fmap : FMap result := fun A B f m =>
  match m with
  | Ok a => Ok (f a)
  | Raise e => Raise e
  end.

(* ===================================================================== *)
(** * Arithmetic of the source *)
(* ===================================================================== *)

(** [int(math.ceil(a / float(b)))] for integers [a] and [b <> 0]. *)
Definition ceil_div (a b : Z) : Z := - ((- a) / b).

(** [int(math.ceil(x))] for a float [x]. *)
Definition int_ceil (x : Q) : Z := Qceiling x.

(** Doubles that are not negative, as a mantissa and a binary exponent:
    [(m, e)] stands for [m * 2^e]. *)

(** [m / 2^s] rounded to the nearest integer, a tie to the even one. *)
Definition round_even (m s : Z) : Z :=
  let q := m / 2 ^ s in
  let r := m mod 2 ^ s in
  let half := 2 ^ (s - 1) in
  if orb (half <? r) (andb (r =? half) (Z.odd q)) then q + 1 else q.

(** The double nearest to [m * 2^e]: a mantissa of at most 53 bits. *)
Definition to_double (m e : Z) : Z * Z :=
  let s := Z.log2 m - 52 in
  if s <=? 0 then (m, e) else (round_even m s, e + s).

Definition mul_double (x y : Z * Z) : Z * Z :=
  to_double (fst x * fst y) (snd x + snd y).

(** [int(x)] of a double that is not negative. *)
Definition int_of_double (d : Z * Z) : Z :=
  let '(m, e) := d in
  if 0 <=? e then m * 2 ^ e else m / 2 ^ (- e).

(** The double written [0.1]: 3602879701896397 / 2^55, just above a
    tenth. *)
Definition tenth : Z * Z := (3602879701896397, -55).

Definition int_tenth_nonneg (n : Z) : Z :=
  int_of_double (mul_double tenth (to_double n 0)).

(** [int(0.1 * n)]: [n] is converted to a double, the product is rounded to
    the nearest double and [int] truncates towards zero; the product of
    doubles is symmetric in the sign. *)
Definition int_tenth (n : Z) : Z :=
  if n <? 0 then - int_tenth_nonneg (- n) else int_tenth_nonneg n.

(** [sum(xs)] *)
Definition sumZ (xs : list Z) : Z := foldr Z.add 0 xs.

(** [sum(d.values())] *)
Definition sum_values (d : gmap string Z) : Z := sumZ ((map_to_list d).*2).

(* ===================================================================== *)
(** * Configuration *)
(* ===================================================================== *)

(** A category: [tasks] is the optional limit on simultaneous tasks. *)
Record Category : Type := {
  name : string;
  cores : Z;
  tasks : option Z
}.

Record Workflow : Type := {
  label : string;
  category : Category;
  merge_size : Z;
  merge_cleanup : bool;
  dependents : list string;   (* labels of the workflows registered on it *)
  prerequisite : option string;
  workdir : string
}.

Record Config : Type := {
  workflows : list Workflow;
  categories : list Category;
  payload : Z                 (* config.advanced.payload *)
}.

(** [getattr(self.config.categories, name)] *)
Definition getattr_categories (cfg : Config) (n : string) : result Category :=
  match List.find (fun c => String.eqb (name c) n) (categories cfg) with
  | Some c => Ok c
  | None => Raise AttributeError
  end.

(** [getattr(self.config.workflows, label)] *)
Definition getattr_workflows (cfg : Config) (l : string) : result Workflow :=
  match List.find (fun w => String.eqb (label w) l) (workflows cfg) with
  | Some w => Ok w
  | None => Raise AttributeError
  end.

(** Truth value of [cat.tasks]: [None] and [0] are false. *)
Definition task_limit (c : Category) : option Z :=
  match tasks c with
  | Some k => if Z.eqb k 0 then None else Some k
  | None => None
  end.

(* ===================================================================== *)
(** * Hunger (source.py, lines 281-287) *)
(* ===================================================================== *)

(** [for name, queued in tasks.items(): need -= categories[name].cores * queued] *)
Fixpoint subtract_waiting (cfg : Config) (items : list (string * Z)) (need : Z)
  : result Z :=
  match items with
  | [] => Ok need
  | (n, queued) :: rest =>
      c ← getattr_categories cfg n;
      subtract_waiting cfg rest (need - cores c * queued)
  end.

Definition compute_hunger (cfg : Config) (total : Z) (queue : gmap string Z)
  : result Z :=
  let need := total + Z.max (int_tenth total) (payload cfg) in
  need' ← subtract_waiting cfg (map_to_list queue) need;
  Ok (Z.max need' 0).

(** [tasks.get(name, 0)] *)
Definition in_queue (queue : gmap string Z) (n : string) : Z :=
  default 0 (queue !! n).



(* ===================================================================== *)
(** * The interfaces of [source.py] *)
(* ===================================================================== *)

(** Values that [source.py] only passes along. *)
Definition blob : Type := list Z.

(** What the store hands out for one task:
    [(id, label, files, lumis, unique_arg, merge)]. *)
Record TaskInfo : Type := {
  ti_id : Z;
  ti_label : string;
  ti_files : list (Z * string);
  ti_lumis : list (Z * Z * Z * Z);
  ti_unique : option Z;
  ti_merge : bool
}.

(** The part of a task handler that [release] reads. *)
Record Handler : Type := {
  h_id : Z;
  dataset : string;
  unit_source : string;
  outputs : list (string * string);      (* (remote, local) *)
  output_info : blob;
  input_files : list string;
  is_merge : bool                        (* isinstance(handler, MergeTaskHandler) *)
}.

(** A task returned by the work queue. *)
Record CompletedTask : Type := {
  tag : Z;
  wq_result : blob
}.

Definition Update : Type := blob * blob * blob.   (* task, file, unit update *)

(** [lobster.core.unit.UnitStore], as far as the provider calls it.  The
    store is threaded through the calls that change it. *)
Class UnitStore (S : Type) : Type := {
  pop_unmerged_tasks : S -> string -> Z -> Z -> list TaskInfo * S;
  work_left : S -> string -> bool * Z * Q;
  pop_units : S -> string -> Z -> Q -> list TaskInfo * S;
  update_missing : list Z -> S -> S;
  update_units : gmap (string * string) (list Update) -> S -> S;
  register_files : gmap string blob -> string -> S -> S
}.

(** Workflow methods, handler methods and the file system. *)
Class Services : Type := {
  (* wflow.outputs(task) *)
  wflow_outputs : Workflow -> Z -> list (string * string);
  (* os.path.isfile(self.get_report(label, task)) *)
  report_isfile : string -> Z -> bool;
  (* wflow.handler(id, files, lumis, jdir, merge=merge) *)
  make_handler : Workflow -> Z -> list (Z * string) -> list (Z * Z * Z * Z)
                 -> bool -> Handler;
  (* handler.process(task, summary) *)
  process : Handler -> CompletedTask -> bool * blob * blob * blob;
  (* fs.remove on the cleanup list: the exception it raises, if any *)
  fs_remove : list string -> option exn
}.

(* ===================================================================== *)
(** * obtain, first loop: merge tasks and shares (lines 258-279) *)
(* ===================================================================== *)

Definition Qlt_b (x y : Q) : bool := negb (Qle_bool y x).

Record Shares : Type := {
  taskinfos : list TaskInfo;
  sizes : gmap string Z;
  (* wflows[cat] = [complete, incomplete] *)
  wflows : gmap string (gmap string Z * gmap string Z)
}.

(** The two [continue]s of the loop body. *)
Definition skipped (wl : bool * Z * Q) : bool :=
  let '(complete, units_left, tasks_left) := wl in
  if negb complete && Qlt_b tasks_left 1 then true
  else if units_left =? 0 then true
  else false.

(** [int(math.ceil(tasks_left)) * wflow.category.cores] *)
Definition share_of (w : Workflow) (tasks_left : Q) : Z :=
  int_ceil tasks_left * cores (category w).

Definition add_share (w : Workflow) (complete : bool) (tasks_left : Q)
    (sh : Shares) : Shares :=
  let cat := name (category w) in
  let sizes1 := match sizes sh !! cat with
                | None => <[cat := 0]> (sizes sh)
                | Some _ => sizes sh
                end in
  let wflows1 := match wflows sh !! cat with
                 | None => <[cat := (∅, ∅)]> (wflows sh)
                 | Some _ => wflows sh
                 end in
  let '(cdone, cfeed) := default (∅, ∅) (wflows1 !! cat) in
  let entry := if complete
               then (<[label w := share_of w tasks_left]> cdone, cfeed)
               else (cdone, <[label w := share_of w tasks_left]> cfeed) in
  {| taskinfos := taskinfos sh;
     sizes := <[cat := default 0 (sizes1 !! cat) + share_of w tasks_left]> sizes1;
     wflows := <[cat := entry]> wflows1 |}.

Definition collect_workflow {S} `{UnitStore S} (acc : Shares * S) (w : Workflow)
  : Shares * S :=
  let '(sh, st) := acc in
  let '(merges, st1) := pop_unmerged_tasks st (label w) (merge_size w) 10 in
  let sh1 := {| taskinfos := taskinfos sh ++ merges;
                sizes := sizes sh; wflows := wflows sh |} in
  let wl := work_left st1 (label w) in
  if skipped wl then (sh1, st1)
  else (add_share w (fst (fst wl)) (snd wl) sh1, st1).

Definition no_shares : Shares :=
  {| taskinfos := []; sizes := ∅; wflows := ∅ |}.

Definition collect {S} `{UnitStore S} (cfg : Config) (st : S) : Shares * S :=
  fold_left collect_workflow (workflows cfg) (no_shares, st).

(* ===================================================================== *)
(** * obtain, the order of the categories (lines 294-303) *)
(* ===================================================================== *)

(** [helper]: the sort key; Python 2 orders [None] below every number. *)
Definition helper (c : Category) : option Z :=
  match task_limit c with
  | Some k => Some (- k * cores c)
  | None => None
  end.

Definition key_lt (a b : option Z) : bool :=
  match a, b with
  | None, Some _ => true
  | Some x, Some y => x <? y
  | _, None => false
  end.

(** [sorted(cats, key=helper, reverse=True)]: descending keys, and the
    sort is stable. *)
Fixpoint insert_desc (c : Category) (l : list Category) : list Category :=
  match l with
  | [] => [c]
  | d :: l' => if key_lt (helper c) (helper d) then d :: insert_desc c l'
               else c :: d :: l'
  end.

Definition sorted_reverse (l : list Category) : list Category :=
  foldr insert_desc [] l.

(** The test that guards the [continue] at line 302. *)
Definition walked (sh : Shares) (c : Category) : bool :=
  bool_decide (is_Some (sizes sh !! name c)) && negb (String.eqb (name c) "merge").

(** The categories whose body is executed, in order. *)
Definition walk (cfg : Config) (sh : Shares) : list Category :=
  List.filter (walked sh) (sorted_reverse (categories cfg)).

(* ===================================================================== *)
(** * obtain, filling the categories (lines 299-347) *)
(* ===================================================================== *)

(** What the loops report.  For each category the debug line with the
    cores it is to fill; for each workflow of the category the values of
    [ccores] and [ctotal] it met, the call of [pop_units] if one was made
    ([ntasks] and [taper]) and the tasks that were created. *)
Record Attempt : Type := {
  a_cat : Category;
  a_complete : bool;
  a_label : string;
  a_left : Z;
  a_ccores : Z;
  a_ctotal : Z;
  a_call : option (Z * Q);
  a_infos : list TaskInfo
}.

Inductive Event : Type :=
| FillCategory (c : Category) (queued fill able : Z)
| Created (a : Attempt).

(** The local variables of the loops.  [ccores] and [ctotal] are assigned
    at the head of each category. *)
Record Walk (S : Type) : Type := {
  w_store : S;
  hunger : Z;
  count : Z;
  ccores : Z;
  ctotal : Z;
  w_taskinfos : list TaskInfo;
  trace : list Event
}.
Arguments w_store {S} _.
Arguments hunger {S} _.
Arguments count {S} _.
Arguments ccores {S} _.
Arguments ctotal {S} _.
Arguments w_taskinfos {S} _.
Arguments trace {S} _.

(** A [for] loop whose body may raise. *)
Fixpoint for_each {A B : Type} (body : B -> A -> result B) (l : list A) (b : B)
  : result B :=
  match l with
  | [] => Ok b
  | x :: l' => b' ← body b x; for_each body l' b'
  end.

(** [max(1, int(math.ceil((ccores * left) / (float(ctotal) * cat.cores))))];
    [lft] stands for the [left] of the source. *)
Definition ntasks_for (cc lft ct c : Z) : Z :=
  Z.max 1 (ceil_div (cc * lft) (ct * c)).

(** [min(1., float(left) / (ntasks * cat.cores))] *)
Definition taper_for (lft ntasks c : Z) : Q :=
  let x := (inject_Z lft / inject_Z (ntasks * c))%Q in
  if Qlt_b x 1 then x else 1%Q.

(** The body of the loops at lines 319 and 332.  Incomplete workflows call
    [pop_units(label, ntasks)], which leaves [taper] at its default 1. *)
Definition create_tasks {S} `{UnitStore S} (complete : bool) (c : Category)
    (st : Walk S) (item : string * Z) : result (Walk S) :=
  let '(lbl, lft) := item in
  '(call, infos, s') ←
    (if 0 <? ccores st then
       if ctotal st * cores c =? 0 then Raise ZeroDivisionError
       else
         let ntasks := ntasks_for (ccores st) lft (ctotal st) (cores c) in
         let taper := if complete then taper_for lft ntasks (cores c) else 1%Q in
         let '(infos, s') := pop_units (w_store st) lbl ntasks taper in
         Ok (Some (ntasks, taper), infos, s')
     else Ok (None, [], w_store st));
  Ok {| w_store := s';
        hunger := hunger st - Z.of_nat (length infos) * cores c;
        count := count st;
        ccores := ccores st - Z.of_nat (length infos) * cores c;
        ctotal := ctotal st - lft;
        w_taskinfos := w_taskinfos st ++ infos;
        trace := trace st
                 ++ [Created {| a_cat := c; a_complete := complete;
                                a_label := lbl; a_left := lft;
                                a_ccores := ccores st; a_ctotal := ctotal st;
                                a_call := call; a_infos := infos |}] |}.

(** [int(math.ceil(hunger * sizes[cat.name] / float(count)))], cut down to
    what the task limit of the category leaves. *)
Definition category_ccores (queue : gmap string Z) (c : Category)
    (h size cnt : Z) : Z :=
  let cc := ceil_div (h * size) cnt in
  match task_limit c with
  | Some k => Z.min cc ((k - in_queue queue (name c)) * cores c)
  | None => cc
  end.

(** One category, after the test at line 302. *)
Definition fill_category {S} `{UnitStore S} (queue : gmap string Z) (sh : Shares)
    (st : Walk S) (c : Category) : result (Walk S) :=
  let size := default 0 (sizes sh !! name c) in
  if count st =? 0 then Raise ZeroDivisionError
  else
    let cc := category_ccores queue c (hunger st) size (count st) in
    '(cdone, cfeed) ← match wflows sh !! name c with
                      | Some p => Ok p
                      | None => Raise KeyError
                      end;
    let st0 := {| w_store := w_store st; hunger := hunger st; count := count st;
                  ccores := cc; ctotal := size;
                  w_taskinfos := w_taskinfos st;
                  trace := trace st
                           ++ [FillCategory c (in_queue queue (name c)) cc size] |} in
    st1 ← for_each (create_tasks false c) (map_to_list cfeed) st0;
    st2 ← for_each (create_tasks true c) (map_to_list cdone) st1;
    Ok {| w_store := w_store st2; hunger := hunger st2;
          count := count st2 - size;
          ccores := ccores st2; ctotal := ctotal st2;
          w_taskinfos := w_taskinfos st2; trace := trace st2 |}.

(** The loop at line 301 with its [continue]. *)
Definition fill_step {S} `{UnitStore S} (queue : gmap string Z) (sh : Shares)
    (st : Walk S) (c : Category) : result (Walk S) :=
  if walked sh c then fill_category queue sh st c else Ok st.

Definition fill_categories {S} `{UnitStore S} (cfg : Config)
    (queue : gmap string Z) (sh : Shares) (st : Walk S) : result (Walk S) :=
  for_each (fill_step queue sh) (sorted_reverse (categories cfg)) st.

(* ===================================================================== *)
(** * obtain, the task descriptors (lines 349-441) *)
(* ===================================================================== *)

Inductive DashState : Type := DONE | RETRIEVED.

(** Calls to the dashboard and to the file system, in the order made. *)
Inductive Effect : Type :=
| DashRegister (id : Z)
| DashUpdate (t : Z) (s : DashState)
| DashFree
| Move (dir : string) (id : Z) (bucket : string)
| Remove (files : list string)
| LogError (t : Z).

(** The provider: the store, [__taskhandlers] and the calls made so far. *)
Record Provider (S : Type) : Type := {
  store : S;
  taskhandlers : gmap Z Handler;
  effects : list Effect
}.
Arguments store {S} _.
Arguments taskhandlers {S} _.
Arguments effects {S} _.

(** A task for the queue, [(category, cmd, id, inputs, outputs)]; the two
    file lists only carry paths and are omitted. *)
Record Descriptor : Type := {
  d_category : string;
  d_cmd : string;
  d_id : Z
}.

(** The loop at line 391: split the component tasks of a merge into those
    whose report is there and the missing ones. *)
Definition merge_input `{Services} (w : Workflow) (lbl : string)
    (acc : list Z * list (Z * string)) (lumi : Z * Z * Z * Z)
  : result (list Z * list (Z * string)) :=
  let '(task, _, _, _) := lumi in
  let '(missing, infiles) := acc in
  match wflow_outputs w task with
  | [] => Raise IndexError
  | (_, infile) :: _ =>
      if report_isfile lbl task then Ok (missing, infiles ++ [(task, infile)])
      else Ok (missing ++ [task], infiles)
  end.

Definition build_task {S} `{UnitStore S} `{Services} (cfg : Config)
    (acc : Provider S * list Descriptor) (ti : TaskInfo)
  : result (Provider S * list Descriptor) :=
  let '(p, ds) := acc in
  w ← getattr_workflows cfg (ti_label ti);
  '(st, files) ←
    (if ti_merge ti then
       '(missing, infiles) ← for_each (merge_input w (ti_label ti))
                                       (ti_lumis ti) ([], []);
       Ok (match missing with
           | [] => store p
           | _ :: _ => update_missing missing (store p)
           end, infiles)
     else Ok (store p, ti_files ti));
  let handler := make_handler w (ti_id ti) files (ti_lumis ti) (ti_merge ti) in
  Ok ({| store := st;
         taskhandlers := <[ti_id ti := handler]> (taskhandlers p);
         effects := effects p ++ [DashRegister (ti_id ti)] |},
      ds ++ [{| d_category := if ti_merge ti then "merge" else name (category w);
                d_cmd := "sh wrapper.sh python task.py parameters.json";
                d_id := ti_id ti |}]).

(* ===================================================================== *)
(** * obtain (lines 238-441) *)
(* ===================================================================== *)

Record Obtained (S : Type) : Type := {
  o_provider : Provider S;
  o_tasks : list Descriptor;       (* the value returned *)
  o_trace : list Event
}.
Arguments o_provider {S} _.
Arguments o_tasks {S} _.
Arguments o_trace {S} _.

Definition with_store {S} (p : Provider S) (st : S) : Provider S :=
  {| store := st; taskhandlers := taskhandlers p; effects := effects p |}.

Definition obtain {S} `{UnitStore S} `{Services} (cfg : Config) (p : Provider S)
    (total : Z) (queue : gmap string Z) : result (Obtained S) :=
  let '(sh, st1) := collect cfg (store p) in
  h ← compute_hunger cfg total queue;
  if h =? 0 then
    Ok {| o_provider := with_store p st1; o_tasks := []; o_trace := [] |}
  else
    w ← fill_categories cfg queue sh
          {| w_store := st1; hunger := h; count := sum_values (sizes sh);
             ccores := 0; ctotal := 0;
             w_taskinfos := taskinfos sh; trace := [] |};
    match w_taskinfos w with
    | [] => Ok {| o_provider := with_store p (w_store w); o_tasks := [];
                  o_trace := trace w |}
    | _ :: _ =>
        '(p', ds) ← for_each (build_task cfg) (w_taskinfos w)
                             (with_store p (w_store w), []);
        Ok {| o_provider := {| store := store p';
                               taskhandlers := taskhandlers p';
                               effects := effects p' ++ [DashFree] |};
              o_tasks := ds; o_trace := trace w |}
    end.

(* ===================================================================== *)
(** * release (lines 443-497) *)
(* ===================================================================== *)

(** The three accumulators of [release]. *)
Record Batch : Type := {
  cleanup : list string;
  update : gmap (string * string) (list Update);
  propagate : gmap string (gmap string blob)
}.

Definition empty_batch : Batch :=
  {| cleanup := []; update := ∅; propagate := ∅ |}.

Definition log_effect {S} (p : Provider S) (e : Effect) : Provider S :=
  {| store := store p; taskhandlers := taskhandlers p;
     effects := effects p ++ [e] |}.

(** [for dep in wflow.dependents: propagate[dep.label][outfn] = outinfo] *)
Definition propagate_to (outfn : string) (outinfo : blob)
    (pr : gmap string (gmap string blob)) (deps : list string)
  : gmap string (gmap string blob) :=
  fold_left (fun pr dep => <[dep := <[outfn := outinfo]> (default ∅ (pr !! dep))]> pr)
            deps pr.

(** Lines 457-474: what happens to the task directory, the cleanup list and
    the propagation map. *)
Definition settle {S} (w : Workflow) (h : Handler) (failed : bool)
    (p : Provider S) (b : Batch) : result (Provider S * Batch) :=
  if failed then
    Ok (log_effect p (Move (workdir w) (h_id h) "failed"),
        {| cleanup := cleanup b ++ List.map snd (outputs h);
           update := update b; propagate := propagate b |})
  else
    let p1 := log_effect p (Move (workdir w) (h_id h) "successful") in
    pr ← (if (merge_size w <=? 0) || is_merge h then
            match outputs h with
            | [] => Raise IndexError
            | (_, outfn) :: _ =>
                Ok (propagate_to outfn (output_info h) (propagate b) (dependents w))
            end
          else Ok (propagate b));
    Ok (p1,
        {| cleanup := if is_merge h && merge_cleanup w
                      then cleanup b ++ input_files h else cleanup b;
           update := update b; propagate := pr |}).

(** The body of the loop at line 449.  When it raises, the provider is
    returned as it is at that point. *)
Definition release_task {S} `{Services} (cfg : Config)
    (acc : Provider S * Batch) (t : CompletedTask)
  : Provider S * Batch * option exn :=
  let '(p, b) := acc in
  let p1 := log_effect p (DashUpdate (tag t) DONE) in
  match taskhandlers p !! tag t with
  | None => (p1, b, Some KeyError)
  | Some h =>
      let '(failed, task_update, file_update, unit_update) := process h t in
      match getattr_workflows cfg (dataset h) with
      | Raise e => (p1, b, Some e)
      | Ok w =>
          match settle w h failed p1 b with
          | Raise e =>
              (if failed then p1
               else log_effect p1 (Move (workdir w) (h_id h) "successful"),
               b, Some e)
          | Ok (p2, b2) =>
              let key := (dataset h, unit_source h) in
              ({| store := store p2;
                  taskhandlers := delete (tag t) (taskhandlers p2);
                  effects := effects p2 ++ [DashUpdate (tag t) RETRIEVED] |},
               {| cleanup := cleanup b2;
                  update := <[key := default [] (update b2 !! key)
                                     ++ [(task_update, file_update, unit_update)]]>
                            (update b2);
                  propagate := propagate b2 |},
               None)
          end
      end
  end.

Fixpoint release_tasks {S} `{Services} (cfg : Config) (ts : list CompletedTask)
    (acc : Provider S * Batch) : Provider S * Batch * option exn :=
  match ts with
  | [] => (acc, None)
  | t :: ts' =>
      match release_task cfg acc t with
      | (p, b, None) => release_tasks cfg ts' (p, b)
      | r => r
      end
  end.

(** Lines 484-490: the removal of the files on the cleanup list. *)
Definition remove_files {S} `{Services} (ts : list CompletedTask)
    (b : Batch) (p : Provider S) : Provider S * option exn :=
  match cleanup b with
  | [] => (p, None)
  | _ :: _ =>
      let p1 := log_effect p (Remove (cleanup b)) in
      match fs_remove (cleanup b) with
      | None => (p1, None)
      | Some IOError | Some OSError => (p1, None)
      | Some ValueError =>
          (log_effect p1 (LogError (default 0 (tag <$> last ts))), None)
      | Some e => (p1, Some e)
      end
  end.

(** Lines 492-497: the batch goes to the store, then the propagated files. *)
Definition commit {S} `{UnitStore S} (b : Batch) (st : S) : S :=
  let st1 := if bool_decide (update b = ∅) then st
             else update_units (update b) st in
  fold_left (fun s '(lbl, infos) => register_files infos lbl s)
            (map_to_list (propagate b)) st1.

Definition release {S} `{UnitStore S} `{Services} (cfg : Config) (p : Provider S)
    (ts : list CompletedTask) : Provider S * option exn :=
  match release_tasks cfg ts (p, empty_batch) with
  | (p1, b, Some e) => (p1, Some e)
  | (p1, b, None) =>
      match remove_files ts b (log_effect p1 DashFree) with
      | (p2, Some e) => (p2, Some e)
      | (p2, None) => (with_store p2 (commit b (store p2)), None)
      end
  end.

(* ===================================================================== *)
(** * An in-memory unit store *)
(* ===================================================================== *)

(** Modelled from the spec: the unit store ([lobster.core.unit.UnitStore])
    is not part of the sources at hand.  This store keeps, per workflow,
    whether the dataset is complete, the units left and the units per task,
    and the buckets of successful tasks that are ready to be merged.
    [pop_units] creates up to the requested number of tasks, each of the
    tapered size; [pop_unmerged_tasks] turns up to [max_tasks] buckets into
    merge tasks unless the merge size is not positive; [work_left] estimates
    the tasks left from the units per task.  The calls that update the
    store are written to a journal. *)
Module MemStore.

Inductive Entry : Type :=
| Missing (ids : list Z)
| Units (u : gmap (string * string) (list Update))
| Files (infos : gmap string blob) (lbl : string).

Record t : Type := {
  next_id : Z;
  work : gmap string (bool * N * positive);
  merges : gmap string (list (list Z));
  journal : list Entry
}.

Definition task (lbl : string) (id : Z) : TaskInfo :=
  {| ti_id := id; ti_label := lbl; ti_files := []; ti_lumis := [];
     ti_unique := None; ti_merge := false |}.

Definition merge_task (lbl : string) (id : Z) (bucket : list Z) : TaskInfo :=
  {| ti_id := id; ti_label := lbl; ti_files := [];
     ti_lumis := (fun c => (c, 0, 0, 0)) <$> bucket;
     ti_unique := None; ti_merge := true |}.

Definition mem_pop_units (st : t) (lbl : string) (n : Z) (taper : Q)
  : list TaskInfo * t :=
  match work st !! lbl with
  | None => ([], st)
  | Some (complete, units, per_task) =>
      let size := Z.max 1 (Qfloor (inject_Z (Z.pos per_task) * taper)) in
      let k := Z.max 0 (Z.min n (ceil_div (Z.of_N units) size)) in
      (task lbl <$> seqZ (next_id st) k,
       {| next_id := next_id st + k;
          work := <[lbl := (complete, Z.to_N (Z.of_N units - k * size), per_task)]>
                  (work st);
          merges := merges st; journal := journal st |})
  end.

Definition mem_work_left (st : t) (lbl : string) : bool * Z * Q :=
  match work st !! lbl with
  | None => (true, 0, 0%Q)
  | Some (complete, units, per_task) =>
      (complete, Z.of_N units, Qmake (Z.of_N units) per_task)
  end.

Definition mem_pop_unmerged_tasks (st : t) (lbl : string) (size max_tasks : Z)
  : list TaskInfo * t :=
  if size <=? 0 then ([], st)
  else
    let buckets := default [] (merges st !! lbl) in
    let ready := take (Z.to_nat max_tasks) buckets in
    (zip_with (merge_task lbl) (seqZ (next_id st) (Z.of_nat (length ready))) ready,
     {| next_id := next_id st + Z.of_nat (length ready);
        work := work st;
        merges := <[lbl := drop (Z.to_nat max_tasks) buckets]> (merges st);
        journal := journal st |}).

Definition record (e : Entry) (st : t) : t :=
  {| next_id := next_id st; work := work st; merges := merges st;
     journal := journal st ++ [e] |}.

#[global] Instance unit_store : UnitStore t := {|
  pop_unmerged_tasks := mem_pop_unmerged_tasks;
  work_left := mem_work_left;
  pop_units := mem_pop_units;
  update_missing ids := record (Missing ids);
  update_units u := record (Units u);
  register_files infos lbl := record (Files infos lbl)
|}.

End MemStore.

(** Services that fail every task whose work-queue result is not empty, and
    a file system on which every report exists and no removal fails. *)
Definition plain_handler (w : Workflow) (id : Z) (files : list (Z * string))
    (lumis : list (Z * Z * Z * Z)) (merge : bool) : Handler :=
  {| h_id := id; dataset := label w; unit_source := "units";
     outputs := [("remote.root", "local.root")]; output_info := [id];
     input_files := snd <$> files; is_merge := merge |}.

Definition plain_services (removal : option exn) : Services := {|
  wflow_outputs w t := [("remote.root", "local.root")];
  report_isfile lbl t := true;
  make_handler := plain_handler;
  process h t := (negb (bool_decide (wq_result t = [])), [h_id h], [], []);
  fs_remove files := removal
|}.

(* ===================================================================== *)
(** * Notions used in the statements *)
(* ===================================================================== *)

(** Cores of the category that [getattr] finds under a name. *)
Definition cores_of (cats : list Category) (n : string) : Z :=
  match List.find (fun c => String.eqb (name c) n) cats with
  | Some c => cores c
  | None => 0
  end.

Definition waiting (cats : list Category) (items : list (string * Z)) : Z :=
  sumZ ((fun it => cores_of cats it.1 * it.2) <$> items).

(** The sort leaves [a] before [b]: the key of [a] is not below that of
    [b]. *)
Definition before (a b : Category) : Prop :=
  key_lt (helper a) (helper b) = false.

(** [a] may come before [b]: limited categories by ascending product of
    limit and cores, categories without a limit last. *)
Definition limit_le (a b : Category) : Prop :=
  match task_limit a, task_limit b with
  | Some ka, Some kb => ka * cores a <= kb * cores b
  | Some _, None => True
  | None, Some _ => False
  | None, None => True
  end.


(** The same order read off the [tasks] field: a category without a task
    limit has [tasks] unset or zero. *)
Definition product_le (a b : Category) : Prop :=
  match tasks a, tasks b with
  | Some ka, Some kb =>
      if kb =? 0 then True
      else if ka =? 0 then False
      else ka * cores a <= kb * cores b
  | Some _, None => True
  | None, Some kb => kb = 0
  | None, None => True
  end.

(** The order in the words of the specification: the smallest task limit
    first, whatever the cores. *)
Definition spec_limit_le (a b : Category) : Prop :=
  match tasks a, tasks b with
  | Some ka, Some kb => ka <= kb
  | _, _ => True
  end.

(** The cores to fill of a category in the words of the specification:
    the share of the category in the hunger [H] computed at the start, cut
    down by the task limit. *)
Definition spec_fill (queue : gmap string Z) (sh : Shares) (c : Category)
    (H : Z) : Z :=
  let cc := ceil_div (H * default 0 (sizes sh !! name c)) (sum_values (sizes sh)) in
  match task_limit c with
  | Some k => Z.min cc ((k - in_queue queue (name c)) * cores c)
  | None => cc
  end.

(** The categories that the events report as filled, with the cores to
    fill. *)
Definition fills (tr : list Event) : list (string * Z) :=
  omap (fun e => match e with
                 | FillCategory c _ fill _ => Some (name c, fill)
                 | Created _ => None
                 end) tr.

(** The cores of the tasks that an event reports as created. *)
Definition event_cores (e : Event) : Z :=
  match e with
  | Created a => Z.of_nat (length (a_infos a)) * cores (a_cat a)
  | FillCategory _ _ _ _ => 0
  end.

Definition created_cores (tr : list Event) : Z := sumZ (event_cores <$> tr).

Definition event_infos (e : Event) : list TaskInfo :=
  match e with
  | Created a => a_infos a
  | FillCategory _ _ _ _ => []
  end.

Definition created_infos (tr : list Event) : list TaskInfo :=
  tr ≫= event_infos.

(** What an attempt says about the step of the store from [s] to [s']: a
    call of [pop_units] is made exactly when cores are left to fill, with
    the number of tasks and the taper of lines 321 and 337. *)
Definition attempt_made {S} `{UnitStore S} (s : S) (a : Attempt) (s' : S) : Prop :=
  match a_call a with
  | Some (n, t) =>
      0 < a_ccores a
      /\ a_ctotal a * cores (a_cat a) <> 0
      /\ n = ntasks_for (a_ccores a) (a_left a) (a_ctotal a) (cores (a_cat a))
      /\ t = (if a_complete a then taper_for (a_left a) n (cores (a_cat a))
              else 1%Q)
      /\ pop_units s (a_label a) n t = (a_infos a, s')
  | None => a_ccores a <= 0 /\ a_infos a = [] /\ s' = s
  end.

(** The store creates at most the number of tasks it is asked for. *)
Definition pop_bounded (S : Type) `{UnitStore S} : Prop :=
  forall (s : S) (lbl : string) (n : Z) (t : Q),
    Z.of_nat (length (pop_units s lbl n t).1) <= Z.max 0 n.

(** The attempts [tr] are made one after the other, from the store [s] with
    [cc] cores to fill out of a share of [ct], and end in [s'], [cc'] and
    [ct']: every attempt takes the cores of the tasks it created off
    [ccores] and the share of its workflow off [ctotal]. *)
Fixpoint attempts_run {S} `{UnitStore S} (s : S) (cc ct : Z) (tr : list Attempt)
    (s' : S) (cc' ct' : Z) : Prop :=
  match tr with
  | [] => s' = s /\ cc' = cc /\ ct' = ct
  | a :: tr' =>
      a_ccores a = cc /\ a_ctotal a = ct
      /\ exists s1, attempt_made s a s1
           /\ attempts_run s1 (cc - event_cores (Created a)) (ct - a_left a)
                           tr' s' cc' ct'
  end.

(** One attempt for each entry of a dictionary of workflows, in the order of
    the entries. *)
Definition workflow_attempts (complete : bool) (c : Category)
    (items : list (string * Z)) (tr : list Attempt) : Prop :=
  (fun a => (a_label a, a_left a)) <$> tr = items
  /\ Forall (fun a => a_cat a = c /\ a_complete a = complete) tr.

(** The events of one category [c], met with hunger [h] and [cnt] cores of
    share not yet handed out: the debug line, then the attempts for the
    incomplete workflows, then those for the complete ones. *)
Definition category_segment {S} `{UnitStore S} (queue : gmap string Z)
    (sh : Shares) (c : Category) (h cnt : Z) (s : S) (seg : list Event) (s' : S)
  : Prop :=
  let size := default 0 (sizes sh !! name c) in
  let fill := category_ccores queue c h size cnt in
  exists cdone cfeed feed done cc' ct',
    wflows sh !! name c = Some (cdone, cfeed)
    /\ cnt <> 0
    /\ seg = FillCategory c (in_queue queue (name c)) fill size
             :: (Created <$> feed ++ done)
    /\ workflow_attempts false c (map_to_list cfeed) feed
    /\ workflow_attempts true c (map_to_list cdone) done
    /\ attempts_run s fill size (feed ++ done) s' cc' ct'.

(** The events of a run over the categories [cs]. *)
Fixpoint walk_run {S} `{UnitStore S} (queue : gmap string Z) (sh : Shares)
    (cs : list Category) (s : S) (h cnt : Z) (tr : list Event) (s' : S) (h' : Z)
  : Prop :=
  match cs with
  | [] => tr = [] /\ s' = s /\ h' = h
  | c :: cs' =>
      exists seg tr' s1,
        tr = seg ++ tr'
        /\ category_segment queue sh c h cnt s seg s1
        /\ walk_run queue sh cs' s1 (h - created_cores seg)
                    (cnt - default 0 (sizes sh !! name c)) tr' s' h'
  end.

(** The shares are consistent: every category with a size has its two
    dictionaries of workflows, no share is negative, and the size of the
    category covers the shares of its workflows. *)
Definition shares_ok (sh : Shares) : Prop :=
  forall cat,
    match sizes sh !! cat with
    | Some size =>
        exists cdone cfeed,
          wflows sh !! cat = Some (cdone, cfeed)
          /\ map_Forall (fun _ v => 0 <= v) cdone
          /\ map_Forall (fun _ v => 0 <= v) cfeed
          /\ sum_values cfeed + sum_values cdone <= size
    | None => wflows sh !! cat = None
    end.

(** Every workflow with a share is a workflow of the configuration, filed
    under the name of its category. *)
Definition shares_from (cfg : Config) (sh : Shares) : Prop :=
  forall cat cdone cfeed lbl,
    wflows sh !! cat = Some (cdone, cfeed) ->
    is_Some (cdone !! lbl) \/ is_Some (cfeed !! lbl) ->
    exists w, w ∈ workflows cfg /\ label w = lbl /\ name (category w) = cat.

(** The cores that a returned task takes: those of the category it is
    queued under, nothing for a merge task. *)
Definition descriptor_cores (cfg : Config) (d : Descriptor) : Z :=
  if String.eqb (d_category d) "merge" then 0
  else cores_of (categories cfg) (d_category d).

Definition new_cores (cfg : Config) (ds : list Descriptor) : Z :=
  sumZ (descriptor_cores cfg <$> ds).

(** The descriptor that [obtain] builds for a task. *)
Definition described (cfg : Config) (ti : TaskInfo) (d : Descriptor) : Prop :=
  d_id d = ti_id ti
  /\ exists w, getattr_workflows cfg (ti_label ti) = Ok w
       /\ d_category d = if ti_merge ti then "merge" else name (category w).

(** The tasks of [pop_units] carry the label asked for and are no merge
    tasks; those of [pop_unmerged_tasks] are merge tasks. *)
Definition pop_labelled (S : Type) `{UnitStore S} : Prop :=
  forall (s : S) (lbl : string) (n : Z) (t : Q),
    Forall (fun ti => ti_label ti = lbl /\ ti_merge ti = false)
           (pop_units s lbl n t).1.

Definition merges_flagged (S : Type) `{UnitStore S} : Prop :=
  forall (s : S) (lbl : string) (size n : Z),
    Forall (fun ti => ti_merge ti = true) (pop_unmerged_tasks s lbl size n).1.

(** What a run over the categories [cs] can report: the categories are
    among [cs], and an attempt is made for a workflow that has a share in
    its category. *)
Definition event_ok {S} `{UnitStore S} (sh : Shares) (cs : list Category)
    (e : Event) : Prop :=
  match e with
  | FillCategory c _ _ _ => c ∈ cs
  | Created a =>
      a_cat a ∈ cs
      /\ (exists cdone cfeed,
             wflows sh !! name (a_cat a) = Some (cdone, cfeed)
             /\ (if a_complete a then cdone else cfeed) !! a_label a
                = Some (a_left a))
      /\ exists s s' : S, attempt_made s a s'
  end.

(** The cores that the task of a [TaskInfo] takes once it is queued. *)
Definition info_cores (cfg : Config) (ti : TaskInfo) : Z :=
  if ti_merge ti then 0
  else match getattr_workflows cfg (ti_label ti) with
       | Ok w => if String.eqb (name (category w)) "merge" then 0
                 else cores_of (categories cfg) (name (category w))
       | Raise _ => 0
       end.

(** The skip rule in the words of the specification: a workflow with less
    than one task left is skipped unless it is incomplete. *)
Definition spec_skipped (wl : bool * Z * Q) : bool :=
  let '(complete, units_left, tasks_left) := wl in
  Qlt_b tasks_left 1 && complete.

(** The number of tasks and the taper in the words of the specification,
    from the units left of the workflow and the units of its category. *)
Definition spec_ntasks (cc units_left category_units c : Z) : Z :=
  Z.max 1 (ceil_div (cc * units_left) (category_units * c)).

Definition spec_taper (units_left ntasks c : Z) : Q :=
  let x := (inject_Z units_left / inject_Z (ntasks * c))%Q in
  if Qlt_b x 1 then x else 1%Q.

(** The attempts among the events. *)
Definition attempts_of (tr : list Event) : list Attempt :=
  omap (fun e => match e with Created a => Some a | _ => None end) tr.

(** The share of a category. *)
Definition size_of (sh : Shares) (c : Category) : Z :=
  default 0 (sizes sh !! name c).

(** The events of a category show its two loops: [fill] cores to fill out
    of the share of the category, then one attempt for each incomplete
    workflow and after those one for each complete workflow, made one
    after the other. *)
Definition category_attempts {S} `{UnitStore S} (queue : gmap string Z)
    (sh : Shares) (c : Category) (seg : list Event) : Prop :=
  exists cdone cfeed feed done fill (s s' : S) cc' ct',
    wflows sh !! name c = Some (cdone, cfeed)
    /\ seg = FillCategory c (in_queue queue (name c)) fill (size_of sh c)
             :: (Created <$> feed ++ done)
    /\ workflow_attempts false c (map_to_list cfeed) feed
    /\ workflow_attempts true c (map_to_list cdone) done
    /\ attempts_run s fill (size_of sh c) (feed ++ done) s' cc' ct'.

(** The number of tasks that the events report as created. *)
Definition created_tasks (tr : list Event) : Z :=
  sumZ ((fun e => Z.of_nat (length (event_infos e))) <$> tr).
(* ===================================================================== *)
(** * Configurations for the examples *)
(* ===================================================================== *)

(** Two categories: [A] takes four cores per task and at most two tasks,
    [B] takes one core and has no limit. *)
Definition catA : Category := {| name := "A"; cores := 4; tasks := Some 2 |}.
Definition catB : Category := {| name := "B"; cores := 1; tasks := None |}.

Definition plain_workflow (l : string) (c : Category) (msize : Z)
    (deps : list string) : Workflow :=
  {| label := l; category := c; merge_size := msize; merge_cleanup := false;
     dependents := deps; prerequisite := None; workdir := l |}.

Definition two_categories : Config :=
  {| workflows := [plain_workflow "a" catA 0 []; plain_workflow "b" catB 100 []];
     categories := [catB; catA];
     payload := 0 |}.


(** Two limited categories: [wide] takes four cores per task and at most
    two tasks, [narrow] one core and at most three tasks. *)
Definition wide : Category := {| name := "wide"; cores := 4; tasks := Some 2 |}.
Definition narrow : Category := {| name := "narrow"; cores := 1; tasks := Some 3 |}.

Definition two_limits : Config :=
  {| workflows := [plain_workflow "w" wide 0 []; plain_workflow "n" narrow 0 []];
     categories := [wide; narrow];
     payload := 0 |}.

(** A store for [two_categories]: workflow [a] has 100 units in tasks of
    10, workflow [b] has 50 units in tasks of 5 and one bucket of two
    successful tasks that is ready to be merged. *)
Definition two_workflows_store : MemStore.t :=
  {| MemStore.next_id := 1;
     MemStore.work := {[ "a" := (true, 100%N, 10%positive);
                         "b" := (true, 50%N, 5%positive) ]};
     MemStore.merges := {[ "b" := [[7; 8]] ]};
     MemStore.journal := [] |}.

(** A store for [two_limits]: both workflows have 100 units in tasks of
    10. *)
Definition two_limits_store : MemStore.t :=
  {| MemStore.next_id := 1;
     MemStore.work := {[ "w" := (true, 100%N, 10%positive);
                         "n" := (true, 100%N, 10%positive) ]};
     MemStore.merges := ∅;
     MemStore.journal := [] |}.

Definition fresh_provider (st : MemStore.t) : Provider MemStore.t :=
  {| store := st; taskhandlers := ∅; effects := [] |}.

(** One category and one workflow [a] with 5 units in tasks of 10, so
    that half a task is left; the dataset is complete or not. *)
Definition one_workflow : Config :=
  {| workflows := [plain_workflow "a" catB 0 []];
     categories := [catB];
     payload := 0 |}.

Definition half_task_store (complete : bool) : MemStore.t :=
  {| MemStore.next_id := 1;
     MemStore.work := {[ "a" := (complete, 5%N, 10%positive) ]};
     MemStore.merges := ∅;
     MemStore.journal := [] |}.

(** One category with an incomplete workflow [a] (100 units in tasks of 10)
    and a complete workflow [b] (20 units in tasks of 2): ten tasks are
    left of each, of 120 units in all. *)
Definition shared_category : Config :=
  {| workflows := [plain_workflow "a" catB 0 []; plain_workflow "b" catB 0 []];
     categories := [catB];
     payload := 0 |}.

Definition shared_category_store : MemStore.t :=
  {| MemStore.next_id := 1;
     MemStore.work := {[ "a" := (false, 100%N, 10%positive);
                         "b" := (true, 20%N, 2%positive) ]};
     MemStore.merges := ∅;
     MemStore.journal := [] |}.

(** [obtain] on the in-memory store, with services that never fail. *)
Definition obtain_plain (cfg : Config) (st : MemStore.t) (total : Z)
    (queue : gmap string Z) : result (Obtained MemStore.t) :=
  obtain (H0 := plain_services None) cfg (fresh_provider st) total queue.

(** A pipeline: the output of workflow [a], which is not merged, feeds
    workflow [b]. *)
Definition pipeline : Config :=
  {| workflows := [plain_workflow "a" catB 0 ["b"]; plain_workflow "b" catB 100 []];
     categories := [catB];
     payload := 0 |}.

Definition empty_store : MemStore.t :=
  {| MemStore.next_id := 2; MemStore.work := ∅; MemStore.merges := ∅;
     MemStore.journal := [] |}.

(** Task 1 of workflow [a] is in flight. *)
Definition one_in_flight : Provider MemStore.t :=
  {| store := empty_store;
     taskhandlers := {[ 1 := plain_handler (plain_workflow "a" catB 0 ["b"]) 1 [] []
                                           false ]};
     effects := [] |}.

Definition succeeded (id : Z) : CompletedTask := {| tag := id; wq_result := [] |}.
Definition exhausted (id : Z) : CompletedTask := {| tag := id; wq_result := [16] |}.

(* ===================================================================== *)
(** * ReleaseSummary (source.py, lines 24-84) *)
(* ===================================================================== *)

Record ReleaseSummary : Type := {
  rs_exe : gmap Z (list string);          (* __exe: status -> task ids *)
  rs_wq : gmap Z (list string);           (* __wq: flag -> task ids *)
  rs_taskdirs : gmap string string;       (* __taskdirs *)
  rs_monitors : list string               (* __monitors *)
}.

(** [ReleaseSummary.flags]: the result flags of the work queue, with the
    values that the source notes beside them. *)
Definition flags : list (Z * string) :=
  [(1, "missing input"); (2, "missing output"); (4, "no stdout");
   (8, "signal received"); (16, "exhausted resources"); (32, "time out");
   (64, "unclassified error"); (128, "unrelated error");
   (256, "exceed # retries"); (512, "exceeded runtime")].

Definition summary_init : ReleaseSummary :=
  {| rs_exe := ∅; rs_wq := ∅; rs_taskdirs := ∅; rs_monitors := [] |}.

(** [try: d[k].append(x) except KeyError: d[k] = [x]] *)
Definition append_at (k : Z) (x : string) (d : gmap Z (list string))
  : gmap Z (list string) :=
  <[k := default [] (d !! k) ++ [x]]> d.

Definition summary_exe (status : Z) (taskid : string) (s : ReleaseSummary)
  : ReleaseSummary :=
  {| rs_exe := append_at status taskid (rs_exe s); rs_wq := rs_wq s;
     rs_taskdirs := rs_taskdirs s; rs_monitors := rs_monitors s |}.

(** The body of the loop of [wq]: [if status & flag: ...] *)
Definition wq_flag (status : Z) (taskid : string) (d : gmap Z (list string))
    (flag : Z) : gmap Z (list string) :=
  if Z.land status flag =? 0 then d else append_at flag taskid d.

Definition summary_wq (status : Z) (taskid : string) (s : ReleaseSummary)
  : ReleaseSummary :=
  {| rs_exe := rs_exe s;
     rs_wq := fold_left (wq_flag status taskid) (flags.*1) (rs_wq s);
     rs_taskdirs := rs_taskdirs s; rs_monitors := rs_monitors s |}.

Definition summary_dir (taskid taskdir : string) (s : ReleaseSummary)
  : ReleaseSummary :=
  {| rs_exe := rs_exe s; rs_wq := rs_wq s;
     rs_taskdirs := <[taskid := taskdir]> (rs_taskdirs s);
     rs_monitors := rs_monitors s |}.

Definition summary_monitor (taskid : string) (s : ReleaseSummary)
  : ReleaseSummary :=
  {| rs_exe := rs_exe s; rs_wq := rs_wq s; rs_taskdirs := rs_taskdirs s;
     rs_monitors := rs_monitors s ++ [taskid] |}.

Definition nl : string := String (Ascii.ascii_of_nat 10) EmptyString.
Definition tab : string := String (Ascii.ascii_of_nat 9) EmptyString.

(** [[self.__taskdirs[t] for t in ids]] *)
Fixpoint lookup_dirs (s : ReleaseSummary) (ids : list string)
  : result (list string) :=
  match ids with
  | [] => Ok []
  | t :: ids' =>
      match rs_taskdirs s !! t with
      | None => Raise KeyError
      | Some d => ds ← lookup_dirs s ids'; Ok (d :: ds)
      end
  end.

(** [sorted(d.keys())] *)
Definition sorted_keys (d : gmap Z (list string)) : list Z :=
  merge_sort Z.le (map_to_list d).*1.

(** The body of the loop over the exit codes. *)
Definition str_exe (s : ReleaseSummary) (acc : string) (status : Z)
  : result string :=
  let ids := default [] (rs_exe s !! status) in
  let acc1 := acc +:+ "returned with status " +:+ pretty status +:+ ": "
              +:+ String.concat ", " ids +:+ nl in
  if status =? 0 then Ok acc1
  else
    dirs ← lookup_dirs s ids;
    Ok (acc1 +:+ "parameters and logs in:" +:+ nl +:+ tab
        +:+ String.concat (nl +:+ tab) dirs +:+ nl).

(** The body of the loop over the flags. *)
Definition str_wq (s : ReleaseSummary) (acc : string) (flag : Z)
  : result string :=
  let ids := default [] (rs_wq s !! flag) in
  match List.find (fun f => f.1 =? flag) flags with
  | None => Raise KeyError
  | Some (_, reason) =>
      dirs ← lookup_dirs s ids;
      Ok (acc +:+ "failed due to " +:+ reason +:+ ": " +:+ String.concat ", " ids
          +:+ nl +:+ "parameters and logs in:" +:+ nl +:+ tab
          +:+ String.concat (nl +:+ tab) dirs +:+ nl)
  end.

(** [s[:-1]] *)
Fixpoint drop_last (s : string) : string :=
  match s with
  | EmptyString => EmptyString
  | String c EmptyString => EmptyString
  | String c s' => String c (drop_last s')
  end.

(** The text before the last character is cut off. *)
Definition summary_text (s : ReleaseSummary) : result string :=
  s1 ← for_each (str_exe s) (sorted_keys (rs_exe s))
                ("received the following task(s):" +:+ nl);
  s2 ← for_each (str_wq s) (sorted_keys (rs_wq s)) s1;
  Ok (match rs_monitors s with
      | [] => s2
      | _ :: _ =>
          s2 +:+ "resource monitoring unavailable for the following tasks: "
          +:+ String.concat ", " (rs_monitors s) +:+ nl
      end).

(** [__str__] *)
Definition summary_str (s : ReleaseSummary) : result string :=
  drop_last <$> summary_text s.

(** A sequence of calls of [exe]. *)
Definition record_exe (calls : list (Z * string)) (s : ReleaseSummary)
  : ReleaseSummary :=
  fold_left (fun s c => summary_exe c.1 c.2 s) calls s.

(* ===================================================================== *)
(** * TaskProvider.__init__: executable name and sandbox version
      (source.py, lines 124-139 and 161-165) *)
(* ===================================================================== *)

(** Truth value of a string or [None]. *)
Definition truthy_str (s : option string) : bool :=
  match s with
  | Some s => negb (String.eqb s "")
  | None => false
  end.

(** The name registered as executable, from the [pset] and the [cmd] of
    the workflows.  [all] of no command is true, and [cmds[0]] then fails. *)
Definition exename (ws : list (option string * option string)) : result string :=
  if existsb truthy_str ws.*1 then Ok "cmsRun"
  else match ws.*2 with
       | [] => Raise IndexError
       | Some c :: _ =>
           if forallb (fun x => bool_decide (x = Some c)) ws.*2 then Ok c
           else Ok "noncmsRun"
       | None :: _ => Ok "noncmsRun"
       end.

(** The version registered for the sandbox: the version of the workflows
    if they have one and the same, nothing otherwise. *)
Definition sandbox_version (versions : list (option string))
  : option (option string) :=
  match elements (list_to_set versions : gset (option string)) with
  | [v] => Some v
  | _ => None
  end.

(* ===================================================================== *)
(** * TaskProvider.__find_root (source.py, lines 187-190) *)
(* ===================================================================== *)

(** The loop runs as long as the workflow has a prerequisite; [None] says
    that the fuel did not suffice. *)
Fixpoint find_root (fuel : nat) (cfg : Config) (l : string)
  : option (result string) :=
  match fuel with
  | O => None
  | Datatypes.S fuel' =>
      match getattr_workflows cfg l with
      | Raise e => Some (Raise e)
      | Ok w =>
          if truthy_str (prerequisite w)
          then find_root fuel' cfg (default "" (prerequisite w))
          else Some (Ok l)
      end
  end.

(** A workflow with a prerequisite. *)
Definition stage (l : string) (pre : option string) : Workflow :=
  {| label := l; category := catB; merge_size := 0; merge_cleanup := false;
     dependents := []; prerequisite := pre; workdir := l |}.

Definition chain : Config :=
  {| workflows := [stage "lhe" None; stage "gs" (Some "lhe");
                   stage "digi" (Some "gs")];
     categories := [catB]; payload := 0 |}.

Definition cycle : Config :=
  {| workflows := [stage "a" (Some "b"); stage "b" (Some "a")];
     categories := [catB]; payload := 0 |}.

(** Every workflow names as prerequisite, if any, a workflow in front of it
    in the list. *)
Fixpoint ordered (before : list string) (ws : list Workflow) : Prop :=
  match ws with
  | [] => True
  | w :: ws' =>
      (truthy_str (prerequisite w) = true ->
       default "" (prerequisite w) ∈ before)
      /\ ordered (label w :: before) ws'
  end.

(* ===================================================================== *)
(** * merge_reports.py (lines 9-33) *)
(* ===================================================================== *)

(** The entry of a file in [files.info]: events and lumis. *)
Definition Info : Type := Z * list (Z * Z).

(** The body of the inner loop: add to the entry of the file, or make it. *)
Definition add_info (acc : gmap string Info) (item : string * Info)
  : gmap string Info :=
  let '(ifn, (events, lumis)) := item in
  match acc !! ifn with
  | Some (e, l) => <[ifn := (e + events, l ++ lumis)]> acc
  | None => <[ifn := (events, lumis)]> acc
  end.

Definition merge_report (acc report : gmap string Info) : gmap string Info :=
  fold_left add_info (map_to_list report) acc.

(** The script starts from an empty [files.info], whatever the output
    report held. *)
Definition merge_reports (reports : list (gmap string Info))
  : gmap string Info :=
  fold_left merge_report reports ∅.

(** The events and the lumis of a file over a list of reports. *)
Definition events_in (reports : list (gmap string Info)) (ifn : string) : Z :=
  sumZ ((fun r => from_option fst 0 (r !! ifn)) <$> reports).

Definition lumis_in (reports : list (gmap string Info)) (ifn : string)
  : list (Z * Z) :=
  reports ≫= (fun r => from_option snd [] (r !! ifn)).

(* ===================================================================== *)
(** * Further notions used in the statements *)
(* ===================================================================== *)

(** A category whose tasks take no cores, and a configuration with one
    workflow in it. *)
Definition catZ : Category := {| name := "Z"; cores := 0; tasks := None |}.

Definition coreless : Config :=
  {| workflows := [plain_workflow "a" catZ 0 []];
     categories := [catZ];
     payload := 0 |}.

(** The handler of a completed task and the workflow of the handler. *)
Definition task_handler (cfg : Config) (hs : gmap Z Handler) (t : CompletedTask)
  : option (Handler * Workflow) :=
  match hs !! tag t with
  | Some h => match getattr_workflows cfg (dataset h) with
              | Ok w => Some (h, w)
              | Raise _ => None
              end
  | None => None
  end.

(** The files that a completed task puts on the cleanup list: its local
    output files if it failed, the input files of a merge whose workflow
    asks for the cleanup if it succeeded. *)
Definition task_cleanup `{Services} (cfg : Config) (hs : gmap Z Handler)
    (t : CompletedTask) : list string :=
  match task_handler cfg hs t with
  | Some (h, w) =>
      if (process h t).1.1.1 then snd <$> outputs h
      else if is_merge h && merge_cleanup w then input_files h
      else []
  | None => []
  end.

(** The update of a completed task, if it goes under the key [k]. *)
Definition task_update `{Services} (hs : gmap Z Handler) (k : string * string)
    (t : CompletedTask) : option Update :=
  match hs !! tag t with
  | Some h =>
      if decide ((dataset h, unit_source h) = k)
      then Some ((process h t).1.1.2, (process h t).1.2, (process h t).2)
      else None
  | None => None
  end.

(** The shares are exact over the labels [ls]: the size of a category is
    the sum of the shares of its workflows, and only workflows with a label
    in [ls] have a share. *)
Definition shares_exact (ls : list string) (sh : Shares) : Prop :=
  (forall cat,
     match sizes sh !! cat with
     | Some size =>
         exists cdone cfeed,
           wflows sh !! cat = Some (cdone, cfeed)
           /\ size = sum_values cfeed + sum_values cdone
     | None => wflows sh !! cat = None
     end)
  /\ (forall cat cdone cfeed lbl,
        wflows sh !! cat = Some (cdone, cfeed) ->
        is_Some (cdone !! lbl) \/ is_Some (cfeed !! lbl) -> lbl ∈ ls).

(** Tasks 1 and 2 of workflow [a] are in flight. *)
Definition two_in_flight : Provider MemStore.t :=
  {| store := empty_store;
     taskhandlers :=
       {[ 1 := plain_handler (plain_workflow "a" catB 0 ["b"]) 1 [] [] false;
          2 := plain_handler (plain_workflow "a" catB 0 ["b"]) 2 [] [] false ]};
     effects := [] |}.

(** The tasks for which [__str__] looks up the directory: those reported
    with an exit code other than zero and those filed under a flag. *)
Definition listed (s : ReleaseSummary) (id : string) : Prop :=
  (exists status ids,
      status <> 0 /\ rs_exe s !! status = Some ids /\ id ∈ ids)
  \/ (exists flag ids, rs_wq s !! flag = Some ids /\ id ∈ ids).

(** A summary of two tasks: task 3 returned with status 0, task 7 with
    status 1 and the flags 1 and 16. *)
Definition two_tasks_summary : ReleaseSummary :=
  summary_wq 17 "7" (summary_exe 1 "7" (summary_exe 0 "3" summary_init)).

(** What one more report makes of the entry of a file. *)
Definition join_info (a b : option Info) : option Info :=
  match b with
  | None => a
  | Some (e, l) =>
      Some (match a with
            | Some (e0, l0) => (e0 + e, l0 ++ l)
            | None => (e, l)
            end)
  end.
(* ===================================================================== *)
(** * Arithmetic facts *)
(* ===================================================================== *)

Lemma ceil_div_upper (a b : Z) : 0 < b -> a <= ceil_div a b * b.
Proof.
  intros Hb. unfold ceil_div.
  pose proof (Z.mul_div_le (- a) b Hb). nia.
Qed.

Lemma ceil_div_lower (a b : Z) : 0 < b -> (ceil_div a b - 1) * b < a.
Proof.
  intros Hb. unfold ceil_div.
  pose proof (Z.mul_succ_div_gt (- a) b Hb). nia.
Qed.

Lemma ceil_div_least (a b k : Z) : 0 < b -> a <= k * b -> ceil_div a b <= k.
Proof.
  intros Hb Hk. pose proof (ceil_div_lower a b Hb). nia.
Qed.

Lemma sumZ_cons (x : Z) (xs : list Z) : sumZ (x :: xs) = x + sumZ xs.
Proof. reflexivity. Qed.

Lemma sumZ_app (xs ys : list Z) : sumZ (xs ++ ys) = sumZ xs + sumZ ys.
Proof. induction xs as [|x xs IH]; simpl; lia. Qed.

Lemma sumZ_perm (xs ys : list Z) : xs ≡ₚ ys -> sumZ xs = sumZ ys.
Proof. induction 1; simpl; lia. Qed.

Lemma sumZ_nonneg (xs : list Z) : Forall (fun x => 0 <= x) xs -> 0 <= sumZ xs.
Proof. induction 1; simpl; lia. Qed.





(** Further up the rounding does reach it: the first digits of a total
    near 6.8e15, of which the tenth is truncated to one more than the
    quotient by ten. *)
Lemma int_tenth_large :
  int_tenth 6838539921574939 = 6838539921574939 / 10 + 1.
Proof. vm_compute. reflexivity. Qed.
(* ===================================================================== *)
(** * Hunger *)
(* ===================================================================== *)

Section Hunger.

Lemma waiting_cons (cats : list Category) (n : string) (q : Z)
    (items : list (string * Z)) :
  waiting cats ((n, q) :: items) = cores_of cats n * q + waiting cats items.
Proof. reflexivity. Qed.

Lemma find_category_is_Some (cats : list Category) (n : string) :
  n ∈ name <$> cats ->
  is_Some (List.find (fun c => String.eqb (name c) n) cats).
Proof.
  induction cats as [|c cats IH]; simpl.
  - intros Hn. by apply elem_of_nil in Hn.
  - intros Hn. destruct (String.eqb_spec (name c) n) as [Heq|Hne]; [eauto|].
    apply elem_of_cons in Hn as [Hn|Hn]; [congruence | auto].
Qed.

Lemma subtract_waiting_sum (cfg : Config) (items : list (string * Z)) (need : Z) :
  Forall (fun it => it.1 ∈ name <$> categories cfg) items ->
  subtract_waiting cfg items need = Ok (need - waiting (categories cfg) items).
Proof.
  intros Hall. revert need.
  induction Hall as [|[n q] items Hn _ IH]; intros need.
  - simpl. f_equal. unfold waiting. simpl. lia.
  - simpl in Hn. destruct (find_category_is_Some _ _ Hn) as [c Hc].
    rewrite waiting_cons. unfold cores_of. simpl.
    unfold getattr_categories. rewrite Hc. simpl. rewrite IH. f_equal. lia.
Qed.

Lemma waiting_perm (cats : list Category) (xs ys : list (string * Z)) :
  xs ≡ₚ ys -> waiting cats xs = waiting cats ys.
Proof. intros Hp. unfold waiting. apply sumZ_perm. by rewrite Hp. Qed.

Lemma waiting_skip (c : Category) (cats : list Category)
    (items : list (string * Z)) :
  Forall (fun it => it.1 ≠ name c) items ->
  waiting (c :: cats) items = waiting cats items.
Proof.
  induction 1 as [|[n q] items Hn _ IH]; [done|].
  rewrite !waiting_cons, IH. f_equal. unfold cores_of. simpl in *.
  destruct (String.eqb_spec (name c) n); [congruence | done].
Qed.

(** The loop over the queue adds up the same cores as a sum over the
    categories, as long as the queue only names categories. *)
Lemma waiting_by_category (cats : list Category) (queue : gmap string Z) :
  NoDup (name <$> cats) ->
  (forall n, is_Some (queue !! n) -> n ∈ name <$> cats) ->
  waiting cats (map_to_list queue)
  = sumZ (List.map (fun c => cores c * in_queue queue (name c)) cats).
Proof.
  revert queue. induction cats as [|c cats IH]; intros queue Hnd Hdom.
  - assert (queue = ∅) as ->.
    { apply map_empty. intros n. destruct (queue !! n) eqn:E; [|done].
      exfalso. eapply not_elem_of_nil, (Hdom n). eauto. }
    by rewrite map_to_list_empty.
  - simpl in Hnd. apply NoDup_cons in Hnd as [Hc Hnd].
    assert (Hrest : waiting (c :: cats) (map_to_list (delete (name c) queue))
                    = sumZ (List.map (fun c0 => cores c0 * in_queue queue (name c0)) cats)).
    { rewrite waiting_skip.
      - rewrite IH; [|done|].
        + f_equal. apply map_ext_in. intros d Hd. unfold in_queue.
          rewrite lookup_delete_ne; [done|]. intros Heq. apply Hc.
          rewrite Heq. apply list_elem_of_fmap_2. by apply list_elem_of_In.
        + intros n [v Hv]. apply lookup_delete_Some in Hv as [Hne Hv].
          specialize (Hdom n (ex_intro _ v Hv)). simpl in Hdom.
          apply elem_of_cons in Hdom as [?|?]; [congruence | done].
      - apply Forall_forall. intros [n v] Hin. simpl.
        apply elem_of_map_to_list in Hin.
        apply lookup_delete_Some in Hin as [Hne _]. congruence. }
    simpl. unfold in_queue at 1.
    destruct (queue !! name c) as [v|] eqn:E; simpl.
    + rewrite <- (waiting_perm _ _ _ (map_to_list_delete _ _ _ E)).
      rewrite <- Hrest, waiting_cons. f_equal.
      unfold cores_of. simpl. by rewrite String.eqb_refl.
    + rewrite <- Hrest, delete_id by done. lia.
Qed.

End Hunger.


Lemma two_categories_names : NoDup (name <$> categories two_categories).
Proof. apply (bool_decide_unpack _). vm_compute. exact I. Qed.

Lemma two_categories_queue (qa qb : Z) (n : string) :
  is_Some (({[ "A" := qa; "B" := qb ]} : gmap string Z) !! n) ->
  n ∈ name <$> categories two_categories.
Proof.
  intros [v Hv]. simpl.
  apply lookup_insert_Some in Hv as [[<- _]|[_ Hv]]; [set_solver|].
  apply lookup_singleton_Some in Hv as [<- _]. set_solver.
Qed.



(* ===================================================================== *)
(** * The order of the categories *)
(* ===================================================================== *)

Section Order.

Lemma before_limit_le (a b : Category) : before a b <-> limit_le a b.
Proof.
  unfold before, limit_le, helper.
  destruct (task_limit a) as [ka|], (task_limit b) as [kb|]; simpl;
    rewrite ?Z.ltb_ge; intuition (try lia; try discriminate).
Qed.

Lemma limit_le_product_le (a b : Category) : limit_le a b <-> product_le a b.
Proof.
  unfold limit_le, product_le, task_limit.
  destruct (tasks a) as [ka|], (tasks b) as [kb|];
    repeat match goal with
           | |- context [?k =? 0] => destruct (Z.eqb_spec k 0)
           end; intuition (try lia; try discriminate).
Qed.

Lemma before_trans (a b c : Category) : before a b -> before b c -> before a c.
Proof.
  unfold before, helper.
  destruct (task_limit a), (task_limit b), (task_limit c); simpl;
    rewrite ?Z.ltb_ge; try lia; try discriminate; auto.
Qed.

Lemma before_total (a b : Category) :
  key_lt (helper a) (helper b) = true -> before b a.
Proof.
  unfold before.
  destruct (helper a), (helper b); simpl;
    rewrite ?Z.ltb_ge, ?Z.ltb_lt; try lia; try discriminate; auto.
Qed.

Lemma insert_desc_perm (c : Category) (l : list Category) :
  insert_desc c l ≡ₚ c :: l.
Proof.
  induction l as [|d l IH]; simpl; [done|].
  destruct (key_lt (helper c) (helper d)); [|done].
  rewrite IH. apply Permutation_swap.
Qed.

Lemma sorted_reverse_perm (l : list Category) : sorted_reverse l ≡ₚ l.
Proof.
  induction l as [|c l IH]; simpl; [done|].
  by rewrite insert_desc_perm, IH.
Qed.

Lemma insert_desc_sorted (c : Category) (l : list Category) :
  StronglySorted before l -> StronglySorted before (insert_desc c l).
Proof.
  induction 1 as [|d l Hs IH Hd]; simpl.
  - repeat constructor.
  - destruct (key_lt (helper c) (helper d)) eqn:E.
    + constructor; [done|]. rewrite insert_desc_perm.
      constructor; [by apply before_total | done].
    + constructor; [by constructor|]. constructor; [done|].
      eapply Forall_impl; [exact Hd|]. intros x Hx.
      by apply before_trans with d.
Qed.

Lemma sorted_reverse_sorted (l : list Category) :
  StronglySorted limit_le (sorted_reverse l).
Proof.
  assert (StronglySorted before (sorted_reverse l)) as Hs.
  { induction l as [|c l IH]; simpl; [constructor|].
    by apply insert_desc_sorted. }
  induction Hs as [|c l' _ IH Hc]; constructor; [done|].
  eapply Forall_impl; [exact Hc|]. intros x. apply before_limit_le.
Qed.

End Order.

Lemma for_each_filter {A B : Type} (keep : A -> bool) (body : B -> A -> result B)
    (l : list A) (b : B) :
  for_each (fun b x => if keep x then body b x else Ok b) l b
  = for_each body (List.filter keep l) b.
Proof.
  revert b. induction l as [|x l IH]; intros b; [done|]. simpl.
  destruct (keep x); simpl; [|apply IH].
  destruct (body b x); simpl; [apply IH | done].
Qed.

Lemma filter_strongly_sorted {A : Type} (R : A -> A -> Prop) (keep : A -> bool)
    (l : list A) :
  StronglySorted R l -> StronglySorted R (List.filter keep l).
Proof.
  induction 1 as [|x l _ IH Hx]; simpl; [constructor|].
  destruct (keep x); [|done]. constructor; [done|].
  apply Forall_forall. intros y Hy.
  apply list_elem_of_In, filter_In in Hy as [Hy _].
  rewrite Forall_forall in Hx. apply Hx. by apply list_elem_of_In.
Qed.

Lemma strongly_sorted_impl {A : Type} (R R' : A -> A -> Prop) (l : list A) :
  (forall a b, R a b -> R' a b) -> StronglySorted R l -> StronglySorted R' l.
Proof.
  intros Himpl. induction 1 as [|x l _ IH Hx]; constructor; [done|].
  eapply Forall_impl; [exact Hx|]. intros y. apply Himpl.
Qed.

Lemma filter_perm {A : Type} (keep : A -> bool) (l l' : list A) :
  l ≡ₚ l' -> List.filter keep l ≡ₚ List.filter keep l'.
Proof.
  induction 1 as [|x l l' _ IH|x y l|l l' l'' _ IH1 _ IH2]; simpl.
  - done.
  - destruct (keep x); by rewrite IH.
  - destruct (keep x), (keep y); try done. apply Permutation_swap.
  - by rewrite IH1.
Qed.

(** C6, as amended: the loop of [obtain] over the categories runs the body
    for exactly the configured categories that have a share and are not
    called merge; it takes them by ascending product of the task limit
    [tasks] and the cores, the categories without a task limit ([tasks]
    unset or zero) last. *)
Theorem categories_walk_order {S} `{UnitStore S} (cfg : Config)
    (queue : gmap string Z) (sh : Shares) (st : Walk S) :
  fill_categories cfg queue sh st
  = for_each (fill_category queue sh) (walk cfg sh) st
  /\ walk cfg sh ≡ₚ List.filter (walked sh) (categories cfg)
  /\ (forall c, c ∈ walk cfg sh <->
                c ∈ categories cfg /\ is_Some (sizes sh !! name c)
                /\ name c <> "merge")
  /\ StronglySorted product_le (walk cfg sh).
Proof.
  assert (Hperm : walk cfg sh ≡ₚ List.filter (walked sh) (categories cfg))
    by apply filter_perm, sorted_reverse_perm.
  split; [apply for_each_filter|]. split; [done|]. split.
  - intros c. rewrite Hperm, list_elem_of_In, filter_In, <- list_elem_of_In.
    unfold walked. rewrite andb_true_iff, bool_decide_eq_true, negb_true_iff.
    destruct (String.eqb_spec (name c) "merge"); intuition congruence.
  - apply (strongly_sorted_impl limit_le);
      [intros a b; apply limit_le_product_le|].
    apply filter_strongly_sorted, sorted_reverse_sorted.
Qed.

(** C6, counterexample: with a category of at most three tasks of one core
    and a category of at most two tasks of four cores, both with work, the
    walk starts with the category of three tasks: the smallest task limit
    is not first. *)
Lemma smallest_limit_not_first :
  walk two_limits (collect two_limits two_limits_store).1 = [narrow; wide]
  /\ tasks narrow = Some 3
  /\ tasks wide = Some 2
  /\ ~ StronglySorted spec_limit_le
        (walk two_limits (collect two_limits two_limits_store).1).
Proof.
  assert (Hwalk : walk two_limits (collect two_limits two_limits_store).1
                  = [narrow; wide]) by (vm_compute; reflexivity).
  rewrite Hwalk. split; [done|]. split; [done|]. split; [done|].
  intros Hs. apply StronglySorted_inv in Hs as [_ Hall].
  apply Forall_inv in Hall. unfold spec_limit_le in Hall. simpl in Hall. lia.
Qed.

(* ===================================================================== *)
(** * The shares collected by the first loop *)
(* ===================================================================== *)

Lemma sum_values_delete (m : gmap string Z) (k : string) (v : Z) :
  m !! k = Some v -> sum_values m = v + sum_values (delete k m).
Proof.
  intros Hk. unfold sum_values.
  rewrite <- (sumZ_perm _ _ (fmap_Permutation snd _ _ (map_to_list_delete m k v Hk))).
  reflexivity.
Qed.

Lemma values_nonneg (m : gmap string Z) :
  map_Forall (fun _ v => 0 <= v) m -> 0 <= sum_values m.
Proof.
  intros Hm. apply sumZ_nonneg, Forall_fmap, Forall_forall.
  intros [k v] Hkv. apply elem_of_map_to_list in Hkv. by apply (Hm k).
Qed.

Lemma sum_values_insert_le (m : gmap string Z) (k : string) (v : Z) :
  map_Forall (fun _ v => 0 <= v) m ->
  sum_values (<[k := v]> m) <= v + sum_values m.
Proof.
  intros Hm. rewrite <- (insert_delete_eq m k v).
  unfold sum_values at 1.
  rewrite (sumZ_perm _ _ (fmap_Permutation snd _ _
             (map_to_list_insert (delete k m) k v (lookup_delete_eq m k)))).
  rewrite fmap_cons, sumZ_cons. fold (sum_values (delete k m)). simpl.
  destruct (m !! k) as [x|] eqn:Hk.
  - rewrite (sum_values_delete m k x Hk). specialize (Hm k x Hk). simpl in Hm. lia.
  - rewrite delete_id by done. lia.
Qed.

(** The sizes of distinct categories add up to at most the sum of all. *)
Lemma sum_over_keys (m : gmap string Z) (ks : list string) :
  NoDup ks ->
  map_Forall (fun _ v => 0 <= v) m ->
  sumZ ((fun k => default 0 (m !! k)) <$> ks) <= sum_values m.
Proof.
  intros Hnd. revert m. induction Hnd as [|k ks Hk Hnd IH]; intros m Hm.
  - simpl. by apply values_nonneg.
  - rewrite fmap_cons, sumZ_cons.
    assert (sumZ ((fun k0 => default 0 (m !! k0)) <$> ks)
            = sumZ ((fun k0 => default 0 (delete k m !! k0)) <$> ks)) as ->.
    { f_equal. apply list_fmap_ext. intros i k0 Hk0.
      rewrite lookup_delete_ne; [done|]. intros ->.
      apply Hk. by eapply list_elem_of_lookup_2. }
    specialize (IH (delete k m) (map_Forall_delete _ _ _ Hm)).
    destruct (m !! k) as [x|] eqn:Hx; simpl.
    + rewrite (sum_values_delete m k x Hx). lia.
    + rewrite (delete_id m k Hx) in *. lia.
Qed.

Lemma int_ceil_nonneg (x : Q) : (0 <= x)%Q -> 0 <= int_ceil x.
Proof. intros Hx. apply (Qceiling_resp_le 0 x Hx). Qed.

Lemma shares_ok_empty : shares_ok no_shares.
Proof. intros cat. simpl. by rewrite !lookup_empty. Qed.

Lemma add_share_ok (w : Workflow) (complete : bool) (tasks_left : Q)
    (sh : Shares) :
  (0 <= tasks_left)%Q -> 0 <= cores (category w) ->
  shares_ok sh -> shares_ok (add_share w complete tasks_left sh).
Proof.
  intros Hleft Hcores Hok cat.
  assert (0 <= share_of w tasks_left) as Hshare.
  { unfold share_of. pose proof (int_ceil_nonneg _ Hleft). nia. }
  pose proof (Hok (name (category w))) as Hcat.
  unfold add_share.
  destruct (sizes sh !! name (category w)) as [size|] eqn:Hsize.
  - destruct Hcat as (cdone & cfeed & Hw & Hdone & Hfeed & Hsum).
    rewrite Hw. simpl. rewrite Hw, Hsize. simpl.
    destruct (decide (cat = name (category w))) as [->|Hne].
    + rewrite lookup_insert_eq.
      pose proof (sum_values_insert_le cdone (label w) (share_of w tasks_left) Hdone).
      pose proof (sum_values_insert_le cfeed (label w) (share_of w tasks_left) Hfeed).
      destruct complete; simpl; rewrite lookup_insert_eq;
        eexists _, _; (split; [reflexivity|]); (split; [|split]);
        first [ lia | done | by apply map_Forall_insert_2 ].
    + rewrite !lookup_insert_ne by done. apply Hok.
  - rewrite Hcat. simpl. rewrite !lookup_insert_eq. simpl.
    rewrite !insert_insert_eq.
    destruct (decide (cat = name (category w))) as [->|Hne].
    + rewrite lookup_insert_eq.
      pose proof (sum_values_insert_le ∅ (label w) (share_of w tasks_left)
                    (map_Forall_empty _)) as Hins.
      assert (sum_values (∅ : gmap string Z) = 0) as Hemp
        by (unfold sum_values; by rewrite map_to_list_empty).
      rewrite Hemp in *.
      destruct complete; simpl; rewrite lookup_insert_eq;
        eexists _, _; (split; [reflexivity|]); (split; [|split]);
        first [ lia
              | by apply map_Forall_insert_2; [|apply map_Forall_empty]
              | apply map_Forall_empty ].
    + rewrite !lookup_insert_ne by done. apply Hok.
Qed.

Lemma shares_from_empty (cfg : Config) : shares_from cfg no_shares.
Proof. intros cat cdone cfeed lbl Hw. simpl in Hw. by rewrite lookup_empty in Hw. Qed.

Lemma add_share_from (cfg : Config) (w : Workflow) (complete : bool)
    (tasks_left : Q) (sh : Shares) :
  w ∈ workflows cfg ->
  shares_from cfg sh -> shares_from cfg (add_share w complete tasks_left sh).
Proof.
  intros Hw Hfrom cat cdone cfeed lbl. unfold add_share. simpl.
  set (wflows1 := match wflows sh !! name (category w) with
                  | Some _ => wflows sh
                  | None => <[name (category w) := (∅, ∅)]> (wflows sh)
                  end).
  assert (forall cat cdone cfeed lbl,
            wflows1 !! cat = Some (cdone, cfeed) ->
            is_Some (cdone !! lbl) \/ is_Some (cfeed !! lbl) ->
            exists w, w ∈ workflows cfg /\ label w = lbl
                      /\ name (category w) = cat) as Hfrom1.
  { subst wflows1. destruct (wflows sh !! name (category w)); [exact Hfrom|].
    intros cat' cd cf l Hl Hs.
    destruct (decide (cat' = name (category w))) as [->|Hne].
    - rewrite lookup_insert_eq in Hl. injection Hl as <- <-.
      rewrite !lookup_empty in Hs. by destruct Hs as [[]|[]].
    - rewrite lookup_insert_ne in Hl by done. eauto. }
  clearbody wflows1.
  destruct (default (∅, ∅) (wflows1 !! name (category w))) as [cd cf] eqn:Hd.
  cbn [wflows].
  destruct (decide (cat = name (category w))) as [->|Hne].
  - rewrite lookup_insert_eq. intros Heq Hs.
    destruct (decide (lbl = label w)) as [->|Hl]; [eauto|].
    destruct (wflows1 !! name (category w)) as [[cd' cf']|] eqn:Hw1;
      simpl in Hd; injection Hd as <- <-.
    + apply (Hfrom1 _ cd' cf'); [done|].
      destruct complete; injection Heq as <- <-;
        rewrite lookup_insert_ne in Hs by done; done.
    + destruct complete; injection Heq as <- <-;
        rewrite lookup_insert_ne in Hs by done; rewrite !lookup_empty in Hs;
        by destruct Hs as [[]|[]].
  - rewrite lookup_insert_ne by done. apply Hfrom1.
Qed.

Section Collect.

Context {S : Type} `{UnitStore S}.

Lemma collect_shares_from (cfg : Config) (st : S) :
  shares_from cfg (collect cfg st).1.
Proof.
  unfold collect.
  assert (forall (ws : list Workflow) (acc : Shares * S),
            ws ⊆ workflows cfg -> shares_from cfg acc.1 ->
            shares_from cfg (fold_left collect_workflow ws acc).1) as Hfold.
  { induction ws as [|w ws IH]; intros [sh s] Hsub Hfrom; [done|].
    simpl. apply IH; [set_solver|]. unfold collect_workflow.
    destruct (pop_unmerged_tasks s (label w) (merge_size w) 10) as [ms s1].
    destruct (skipped _); simpl; [exact Hfrom|].
    apply add_share_from; [set_solver | exact Hfrom]. }
  apply Hfold; [done | apply shares_from_empty].
Qed.

Lemma collect_taskinfos_merge (cfg : Config) (st : S) :
  merges_flagged S ->
  Forall (fun ti => ti_merge ti = true) (taskinfos (collect cfg st).1).
Proof.
  intros Hflag. unfold collect.
  assert (forall (ws : list Workflow) (acc : Shares * S),
            Forall (fun ti => ti_merge ti = true) (taskinfos acc.1) ->
            Forall (fun ti => ti_merge ti = true)
                   (taskinfos (fold_left collect_workflow ws acc).1)) as Hfold.
  { induction ws as [|w ws IH]; intros [sh s] Hacc; [done|].
    simpl. apply IH. unfold collect_workflow.
    pose proof (Hflag s (label w) (merge_size w) 10) as Hm.
    destruct (pop_unmerged_tasks s (label w) (merge_size w) 10) as [ms s1].
    simpl in Hm.
    destruct (skipped _); simpl; [|unfold add_share; simpl;
      destruct (default _ _); simpl]; by apply Forall_app. }
  apply Hfold. constructor.
Qed.

(** The estimate of the tasks left is never negative. *)
Hypothesis estimate_nonneg :
  forall (s : S) (lbl : string), (0 <= (work_left s lbl).2)%Q.

Lemma collect_workflow_ok (w : Workflow) (sh : Shares) (st : S) :
  0 <= cores (category w) ->
  shares_ok sh -> shares_ok (collect_workflow (sh, st) w).1.
Proof.
  intros Hcores Hok. unfold collect_workflow.
  destruct (pop_unmerged_tasks st (label w) (merge_size w) 10) as [merges st1].
  destruct (skipped _); simpl; [exact Hok|].
  by apply add_share_ok.
Qed.

Lemma collect_shares_ok (cfg : Config) (st : S) :
  Forall (fun w => 0 <= cores (category w)) (workflows cfg) ->
  shares_ok (collect cfg st).1.
Proof.
  unfold collect. intros Hall.
  assert (forall acc : Shares * S,
            shares_ok acc.1 ->
            shares_ok (fold_left collect_workflow (workflows cfg) acc).1)
    as Hfold; [|apply Hfold, shares_ok_empty].
  induction Hall as [|w ws Hw _ IH]; intros [sh s] Hok; [done|].
  simpl. apply IH. by apply collect_workflow_ok.
Qed.

End Collect.

(* ===================================================================== *)
(** * The loops over the workflows of a category *)
(* ===================================================================== *)

Lemma ntasks_for_fits (cc lft ct c : Z) :
  0 < c -> 0 < cc -> 0 <= lft <= ct -> ct * c <> 0 ->
  (ntasks_for cc lft ct c - 1) * c < cc.
Proof.
  intros Hc Hcc Hl Hne. unfold ntasks_for.
  assert (0 < ct * c) as Hpos by nia.
  pose proof (ceil_div_lower (cc * lft) (ct * c) Hpos) as Hlow.
  destruct (Z.max_spec 1 (ceil_div (cc * lft) (ct * c))) as [[_ ->]|[_ ->]];
    [|lia].
  assert ((ceil_div (cc * lft) (ct * c) - 1) * c * ct < cc * ct) by nia.
  nia.
Qed.

Lemma ntasks_for_pos (cc lft ct c : Z) : 1 <= ntasks_for cc lft ct c.
Proof. unfold ntasks_for. lia. Qed.

Lemma created_cores_app (tr tr' : list Event) :
  created_cores (tr ++ tr') = created_cores tr + created_cores tr'.
Proof. unfold created_cores. by rewrite fmap_app, sumZ_app. Qed.

Lemma created_cores_cons (e : Event) (tr : list Event) :
  created_cores (e :: tr) = event_cores e + created_cores tr.
Proof. reflexivity. Qed.

Lemma created_infos_cons (e : Event) (tr : list Event) :
  created_infos (e :: tr) = event_infos e ++ created_infos tr.
Proof. reflexivity. Qed.

Lemma created_infos_app (tr tr' : list Event) :
  created_infos (tr ++ tr') = created_infos tr ++ created_infos tr'.
Proof. unfold created_infos. by rewrite bind_app. Qed.

Lemma for_each_cons_Ok {A B : Type} (body : B -> A -> result B) (x : A)
    (l : list A) (b b' : B) :
  for_each body (x :: l) b = Ok b' ->
  exists b1, body b x = Ok b1 /\ for_each body l b1 = Ok b'.
Proof. simpl. destruct (body b x) as [b1|]; simpl; [eauto | discriminate]. Qed.

Section Walk.

Context {S : Type} `{UnitStore S}.

Lemma create_tasks_Ok (complete : bool) (c : Category) (st st' : Walk S)
    (lbl : string) (lft : Z) :
  create_tasks complete c st (lbl, lft) = Ok st' ->
  exists a,
    trace st' = trace st ++ [Created a]
    /\ a_cat a = c /\ a_complete a = complete /\ a_label a = lbl
    /\ a_left a = lft /\ a_ccores a = ccores st /\ a_ctotal a = ctotal st
    /\ attempt_made (w_store st) a (w_store st')
    /\ w_taskinfos st' = w_taskinfos st ++ a_infos a
    /\ hunger st' = hunger st - event_cores (Created a)
    /\ ccores st' = ccores st - event_cores (Created a)
    /\ ctotal st' = ctotal st - lft
    /\ count st' = count st.
Proof.
  unfold create_tasks. intros Hrun.
  destruct (0 <? ccores st) eqn:Hcc.
  - destruct (ctotal st * cores c =? 0) eqn:Hz; [discriminate|].
    destruct (pop_units _ _ _ _) as [infos s'] eqn:Hpop.
    simpl in Hrun. injection Hrun as <-.
    eexists {| a_cat := c |}. simpl. unfold attempt_made. simpl.
    repeat split; try reflexivity; try lia. exact Hpop.
  - simpl in Hrun. injection Hrun as <-.
    eexists {| a_cat := c |}. simpl. unfold attempt_made. simpl.
    repeat split; try reflexivity; lia.
Qed.

Lemma attempts_run_app (tr1 tr2 : list Attempt) (s s1 s2 : S)
    (cc cc1 cc2 ct ct1 ct2 : Z) :
  attempts_run s cc ct tr1 s1 cc1 ct1 ->
  attempts_run s1 cc1 ct1 tr2 s2 cc2 ct2 ->
  attempts_run s cc ct (tr1 ++ tr2) s2 cc2 ct2.
Proof.
  revert s cc ct. induction tr1 as [|a tr1 IH]; intros s cc ct; simpl.
  - by intros (-> & -> & ->).
  - intros (Hcc & Hct & s' & Hmade & Hrest) Hrun. eauto 10.
Qed.

Lemma workflows_loop (complete : bool) (c : Category)
    (items : list (string * Z)) (st st' : Walk S) :
  for_each (create_tasks complete c) items st = Ok st' ->
  exists tr,
    trace st' = trace st ++ (Created <$> tr)
    /\ workflow_attempts complete c items tr
    /\ attempts_run (w_store st) (ccores st) (ctotal st) tr
                    (w_store st') (ccores st') (ctotal st')
    /\ w_taskinfos st' = w_taskinfos st ++ created_infos (Created <$> tr)
    /\ hunger st' = hunger st - created_cores (Created <$> tr)
    /\ count st' = count st.
Proof.
  revert st. induction items as [|[lbl lft] items IH]; intros st.
  - intros [= <-]. exists []. unfold workflow_attempts. simpl.
    rewrite !app_nil_r. repeat split; try done. unfold created_cores. simpl. lia.
  - intros (st1 & Hstep & Hrest)%for_each_cons_Ok.
    apply create_tasks_Ok in Hstep
      as (a & Htr & Hc & Hcomp & Hlbl & Hlft & Hcc & Hct & Hmade & Hinfos
          & Hh & Hcc1 & Hct1 & Hcnt).
    destruct (IH _ Hrest) as (tr & Htr' & [Hitems Hall] & Hrun & Hinfos' & Hh' & Hcnt').
    exists (a :: tr). split; [|split; [|split; [|split; [|split]]]].
    + rewrite Htr', Htr, <- app_assoc. done.
    + split; [csimpl; congruence | by constructor].
    + cbn [attempts_run]. split; [done|]. split; [done|].
      exists (w_store st1). split; [done|].
      rewrite Hcc1, Hct1 in Hrun. by rewrite Hlft.
    + rewrite Hinfos', Hinfos, <- app_assoc. done.
    + rewrite fmap_cons, created_cores_cons. lia.
    + congruence.
Qed.

Lemma fill_category_Ok (queue : gmap string Z) (sh : Shares) (c : Category)
    (st st' : Walk S) :
  fill_category queue sh st c = Ok st' ->
  exists seg,
    category_segment queue sh c (hunger st) (count st) (w_store st) seg
                     (w_store st')
    /\ trace st' = trace st ++ seg
    /\ w_taskinfos st' = w_taskinfos st ++ created_infos seg
    /\ hunger st' = hunger st - created_cores seg
    /\ count st' = count st - default 0 (sizes sh !! name c).
Proof.
  unfold fill_category. destruct (count st =? 0) eqn:Hcnt; [discriminate|].
  destruct (wflows sh !! name c) as [[cdone cfeed]|] eqn:Hw; [|discriminate].
  simpl.
  match goal with
  | |- context [for_each _ (map_to_list cfeed) ?st0] => set (st0' := st0)
  end.
  destruct (for_each _ (map_to_list cfeed) st0') as [st1|] eqn:H1;
    simpl; [|discriminate].
  destruct (for_each _ (map_to_list cdone) st1) as [st2|] eqn:H2;
    simpl; [|discriminate]. intros [= <-]. simpl.
  apply workflows_loop in H1 as (feed & Ht1 & Hf & Hr1 & Hi1 & Hh1 & Hc1).
  apply workflows_loop in H2 as (done & Ht2 & Hd & Hr2 & Hi2 & Hh2 & Hc2).
  eexists (FillCategory c _ _ _ :: (Created <$> feed ++ done)).
  split; [|split; [|split; [|split]]].
  - exists cdone, cfeed, feed, done, (ccores st2), (ctotal st2).
    split; [done|]. split; [by apply Z.eqb_neq|]. do 3 (split; [done|]).
    eapply attempts_run_app; eassumption.
  - rewrite Ht2, Ht1. subst st0'. simpl.
    rewrite fmap_app, <- !app_assoc. done.
  - rewrite Hi2, Hi1. subst st0'. cbn [w_taskinfos].
    rewrite created_infos_cons, fmap_app, !created_infos_app, <- app_assoc. done.
  - rewrite Hh2, Hh1. subst st0'. cbn [hunger].
    rewrite created_cores_cons, fmap_app, !created_cores_app.
    cbn [event_cores]. lia.
  - rewrite Hc2, Hc1. done.
Qed.

Lemma categories_loop (queue : gmap string Z) (sh : Shares)
    (cs : list Category) (st st' : Walk S) :
  for_each (fill_category queue sh) cs st = Ok st' ->
  exists tr,
    walk_run queue sh cs (w_store st) (hunger st) (count st) tr
             (w_store st') (hunger st')
    /\ trace st' = trace st ++ tr
    /\ w_taskinfos st' = w_taskinfos st ++ created_infos tr.
Proof.
  revert st. induction cs as [|c cs IH]; intros st.
  - intros [= <-]. exists []. by rewrite !app_nil_r.
  - intros (st1 & Hstep & Hrest)%for_each_cons_Ok.
    apply fill_category_Ok in Hstep as (seg & Hseg & Ht & Hi & Hh & Hc).
    destruct (IH _ Hrest) as (tr & Hrun & Ht' & Hi').
    exists (seg ++ tr). split; [|split].
    + exists seg, tr, (w_store st1). rewrite <- Hh, <- Hc. done.
    + by rewrite Ht', Ht, <- app_assoc.
    + by rewrite Hi', Hi, created_infos_app, <- app_assoc.
Qed.

Hypothesis bounded : pop_bounded S.

Lemma attempt_bound (s s' : S) (a : Attempt) :
  attempt_made s a s' ->
  0 < cores (a_cat a) ->
  0 <= a_left a <= a_ctotal a ->
  0 <= event_cores (Created a)
  /\ (a_ccores a <= 0 -> event_cores (Created a) = 0)
  /\ (0 < a_ccores a ->
      event_cores (Created a) < a_ccores a + cores (a_cat a)).
Proof.
  unfold attempt_made. intros Hmade Hc Hl. simpl.
  destruct (a_call a) as [[n t]|].
  - destruct Hmade as (Hcc & Hne & Hn & _ & Hpop).
    pose proof (bounded s (a_label a) n t) as Hb. rewrite Hpop in Hb.
    pose proof (ntasks_for_fits _ _ _ _ Hc Hcc Hl Hne).
    pose proof (ntasks_for_pos (a_ccores a) (a_left a) (a_ctotal a)
                               (cores (a_cat a))).
    simpl in Hb. subst n. split; [nia|]. split; [lia|]. intros _. nia.
  - destruct Hmade as (Hcc & -> & _). simpl. lia.
Qed.

Lemma attempts_bound (c : Category) (tr : list Attempt) (s s' : S)
    (cc ct cc' ct' : Z) :
  attempts_run s cc ct tr s' cc' ct' ->
  0 < cores c ->
  Forall (fun a => a_cat a = c /\ 0 <= a_left a) tr ->
  sumZ (a_left <$> tr) <= ct ->
  0 <= created_cores (Created <$> tr)
  /\ (cc <= 0 -> created_cores (Created <$> tr) = 0)
  /\ (0 < cc -> created_cores (Created <$> tr) < cc + cores c).
Proof.
  intros Hrun Hc Hall. revert s cc ct Hrun.
  induction Hall as [|a tr [Hcat Hleft] Hall IH]; intros s cc ct Hrun Hsum.
  - unfold created_cores. simpl. lia.
  - cbn [attempts_run] in Hrun.
    destruct Hrun as (Hcc & Hct & s1 & Hmade & Hrun).
    rewrite fmap_cons, sumZ_cons in Hsum.
    assert (0 <= sumZ (a_left <$> tr)) as Hrest.
    { apply sumZ_nonneg, Forall_fmap. eapply Forall_impl; [exact Hall|].
      by intros ? [_ ?]. }
    destruct (attempt_bound _ _ _ Hmade) as (He0 & He1 & He2);
      [by rewrite Hcat | lia |]. rewrite Hcat, Hcc in *.
    destruct (IH _ _ _ Hrun) as (Hr0 & Hr1 & Hr2); [lia|].
    rewrite fmap_cons, created_cores_cons.
    split; [lia|]. split; [intros Hle; rewrite He1, Hr1 by lia; lia|].
    intros Hpos. specialize (He2 Hpos).
    destruct (Z_le_gt_dec (cc - event_cores (Created a)) 0);
      [rewrite Hr1 by lia; lia | specialize (Hr2 ltac:(lia)); lia].
Qed.

Lemma category_ccores_le (queue : gmap string Z) (c : Category)
    (h size cnt : Z) :
  0 <= size <= cnt -> cnt <> 0 ->
  (h <= 0 -> category_ccores queue c h size cnt <= 0)
  /\ (0 <= h -> category_ccores queue c h size cnt <= h).
Proof.
  intros Hsize Hcnt. unfold category_ccores.
  assert (0 < cnt) as Hpos by lia.
  assert ((h <= 0 -> ceil_div (h * size) cnt <= 0)
          /\ (0 <= h -> ceil_div (h * size) cnt <= h)) as [H0 H1].
  { split; intros Hh; apply ceil_div_least; nia. }
  destruct (task_limit c); split; intros Hh; lia.
Qed.

Lemma segment_fill_bound (queue : gmap string Z) (sh : Shares) (c : Category)
    (h cnt : Z) (s s' : S) (seg : list Event) :
  category_segment queue sh c h cnt s seg s' ->
  shares_ok sh ->
  0 < cores c ->
  forall size, sizes sh !! name c = Some size ->
  let fill := category_ccores queue c h size cnt in
  0 <= size
  /\ 0 <= created_cores seg
  /\ (fill <= 0 -> created_cores seg = 0)
  /\ (0 < fill -> created_cores seg < fill + cores c).
Proof.
  intros (cdone & cfeed & feed & done & cc' & ct' & Hw & Hcnt & -> & Hf & Hd
          & Hrun) Hok Hc size Hsize.
  rewrite Hsize in Hrun. simpl in Hrun.
  pose proof (Hok (name c)) as Hok'. rewrite Hsize in Hok'.
  destruct Hok' as (cdone' & cfeed' & Hw' & Hdone & Hfeed & Hsum).
  rewrite Hw in Hw'. injection Hw' as <- <-.
  destruct Hf as [Hfi Hfa], Hd as [Hdi Hda].
  assert (a_left <$> feed = (map_to_list cfeed).*2) as Hfl.
  { rewrite <- Hfi, <- list_fmap_compose. done. }
  assert (a_left <$> done = (map_to_list cdone).*2) as Hdl.
  { rewrite <- Hdi, <- list_fmap_compose. done. }
  assert (forall (m : gmap string Z) (complete : bool) (tr : list Attempt),
            map_Forall (fun _ v => 0 <= v) m ->
            (fun a => (a_label a, a_left a)) <$> tr = map_to_list m ->
            Forall (fun a => a_cat a = c /\ a_complete a = complete) tr ->
            Forall (fun a => a_cat a = c /\ 0 <= a_left a) tr) as Hnonneg.
  { intros m complete tr Hm Hitems Hall.
    apply Forall_forall. intros a Ha. rewrite Forall_forall in Hall.
    split; [by apply Hall|].
    apply (Hm (a_label a)), elem_of_map_to_list. rewrite <- Hitems.
    by apply (list_elem_of_fmap_2 (fun a => (a_label a, a_left a))). }
  assert (0 <= size) as Hsize0.
  { pose proof (values_nonneg _ Hfeed). pose proof (values_nonneg _ Hdone). lia. }
  destruct (attempts_bound c _ _ _ _ _ _ _ Hrun Hc) as (Hb0 & Hb1 & Hb2).
  { apply Forall_app. split; eauto. }
  { rewrite fmap_app, sumZ_app, Hfl, Hdl. exact Hsum. }
  rewrite created_cores_cons. cbn [event_cores].
  split; [done|]. split; [lia|]. split; intros Hfill; [rewrite Hb1|]; lia.
Qed.

Lemma segment_bound (queue : gmap string Z) (sh : Shares) (c : Category)
    (h cnt : Z) (s s' : S) (seg : list Event) :
  category_segment queue sh c h cnt s seg s' ->
  shares_ok sh ->
  0 < cores c ->
  forall size, sizes sh !! name c = Some size -> size <= cnt ->
  0 <= created_cores seg
  /\ (h <= 0 -> created_cores seg = 0)
  /\ (0 < h -> created_cores seg < h + cores c).
Proof.
  intros Hseg Hok Hc size Hsize Hle.
  destruct (segment_fill_bound _ _ _ _ _ _ _ _ Hseg Hok Hc size Hsize)
    as (Hsize0 & Hb0 & Hb1 & Hb2).
  assert (cnt <> 0) as Hcnt by (by destruct Hseg as (? & ? & ? & ? & ? & ? & _ & ? & _)).
  destruct (category_ccores_le queue c h size cnt) as [Hc0 Hc1]; [lia|done|].
  split; [lia|]. split; [intros Hh; apply Hb1; lia|].
  intros Hh.
  destruct (Z_le_gt_dec (category_ccores queue c h size cnt) 0);
    [rewrite Hb1; lia | specialize (Hb2 ltac:(lia)); lia].
Qed.

Lemma shares_size_nonneg (sh : Shares) (cat : string) (size : Z) :
  shares_ok sh -> sizes sh !! cat = Some size -> 0 <= size.
Proof.
  intros Hok Hsize. specialize (Hok cat). rewrite Hsize in Hok.
  destruct Hok as (cdone & cfeed & _ & Hdone & Hfeed & Hsum).
  pose proof (values_nonneg _ Hdone). pose proof (values_nonneg _ Hfeed). lia.
Qed.

(** Over a whole run the cores created stay within the hunger, but for
    the last task of one category. *)
Lemma walk_bound (queue : gmap string Z) (sh : Shares) (cs : list Category)
    (s s' : S) (h h' cnt : Z) (tr : list Event) :
  walk_run queue sh cs s h cnt tr s' h' ->
  shares_ok sh ->
  Forall (fun c => 0 < cores c /\ is_Some (sizes sh !! name c)) cs ->
  sumZ ((fun c => default 0 (sizes sh !! name c)) <$> cs) <= cnt ->
  h' = h - created_cores tr
  /\ 0 <= created_cores tr
  /\ (h <= 0 -> created_cores tr = 0)
  /\ (0 <= h ->
      created_cores tr <= h
      \/ exists c, c ∈ cs /\ created_cores tr < h + cores c).
Proof.
  intros Hrun Hok Hall. revert s h cnt tr Hrun.
  induction Hall as [|c cs [Hc [size Hsize]] Hall IH];
    intros s h cnt tr Hrun Hsum.
  - destruct Hrun as (-> & _ & ->). unfold created_cores. simpl.
    split; [lia|]. split; [lia|]. split; [lia|]. intros Hh. left. lia.
  - cbn [walk_run] in Hrun.
    destruct Hrun as (seg & tr' & s1 & -> & Hseg & Hrun).
    rewrite fmap_cons, sumZ_cons, Hsize in Hsum. simpl in Hsum.
    rewrite Hsize in Hrun. simpl in Hrun.
    assert (0 <= sumZ ((fun c0 => default 0 (sizes sh !! name c0)) <$> cs))
      as Hrest.
    { apply sumZ_nonneg, Forall_fmap. eapply Forall_impl; [exact Hall|].
      intros d [_ [sd Hd]]. simpl. rewrite Hd. simpl.
      by eapply shares_size_nonneg. }
    destruct (segment_bound _ _ _ _ _ _ _ _ Hseg Hok Hc size Hsize)
      as (Hs0 & Hs1 & Hs2); [lia|].
    destruct (IH _ _ _ _ Hrun) as (Hh' & Hr0 & Hr1 & Hr2); [lia|].
    rewrite created_cores_app.
    split; [lia|]. split; [lia|].
    split; [intros Hh; rewrite Hs1, Hr1 by lia; lia|].
    intros Hh0. destruct (Z_le_gt_dec h 0) as [Hh|Hh].
    { left. rewrite Hs1, Hr1 by lia. lia. }
    specialize (Hs2 ltac:(lia)).
    destruct (Z_le_gt_dec (h - created_cores seg) 0) as [Hh1|Hh1].
    + rewrite Hr1 by lia. right. exists c. split; [apply list_elem_of_here|lia].
    + destruct Hr2 as [Hle|(d & Hd & Hlt)]; [lia|left; lia|].
      right. exists d. split; [by apply list_elem_of_further|lia].
Qed.

End Walk.

(* ===================================================================== *)
(** * obtain as a whole *)
(* ===================================================================== *)

Lemma fmap_filter_NoDup {A B : Type} (f : A -> B) (keep : A -> bool)
    (l : list A) :
  NoDup (f <$> l) -> NoDup (f <$> List.filter keep l).
Proof.
  induction l as [|x l IH]; [done|].
  rewrite fmap_cons, NoDup_cons. intros [Hx Hnd]. cbn [List.filter].
  destruct (keep x); [|auto]. rewrite fmap_cons, NoDup_cons. split; [|auto].
  intros (y & Hy & Hin)%list_elem_of_fmap_1. apply Hx.
  apply list_elem_of_In, filter_In in Hin as [Hin _].
  rewrite Hy. apply list_elem_of_fmap_2. by apply list_elem_of_In.
Qed.

Lemma walk_names_NoDup (cfg : Config) (sh : Shares) :
  NoDup (name <$> categories cfg) -> NoDup (name <$> walk cfg sh).
Proof.
  intros Hnd. unfold walk. apply fmap_filter_NoDup.
  by rewrite (fmap_Permutation name _ _ (sorted_reverse_perm (categories cfg))).
Qed.

Lemma walk_elem (cfg : Config) (sh : Shares) (c : Category) :
  c ∈ walk cfg sh ->
  c ∈ categories cfg /\ is_Some (sizes sh !! name c) /\ name c <> "merge".
Proof.
  unfold walk. rewrite list_elem_of_In, filter_In, <- list_elem_of_In.
  rewrite sorted_reverse_perm. unfold walked.
  rewrite andb_true_iff, bool_decide_eq_true, negb_true_iff.
  destruct (String.eqb_spec (name c) "merge"); intuition congruence.
Qed.

Lemma find_NoDup {A : Type} (f : A -> string) (l : list A) (x : A) :
  NoDup (f <$> l) -> x ∈ l ->
  List.find (fun y => String.eqb (f y) (f x)) l = Some x.
Proof.
  induction l as [|y l IH]; [by intros _ ?%elem_of_nil|].
  rewrite fmap_cons, NoDup_cons. intros [Hy Hnd] Hx. simpl.
  destruct (String.eqb_spec (f y) (f x)) as [Heq|Hne].
  - apply elem_of_cons in Hx as [->|Hx]; [done|].
    exfalso. apply Hy. rewrite Heq. by apply list_elem_of_fmap_2.
  - apply elem_of_cons in Hx as [->|Hx]; [done | auto].
Qed.

Lemma attempts_events_ok {S} `{UnitStore S} (sh : Shares) (cs : list Category)
    (c : Category) (complete : bool) (m cdone cfeed : gmap string Z)
    (tr : list Attempt) (s s' : S) (cc ct cc' ct' : Z) :
  c ∈ cs ->
  wflows sh !! name c = Some (cdone, cfeed) ->
  m = (if complete then cdone else cfeed) ->
  workflow_attempts complete c (map_to_list m) tr ->
  attempts_run s cc ct tr s' cc' ct' ->
  Forall (event_ok sh cs) (Created <$> tr).
Proof.
  intros Hc Hw Hm [Hitems Hall] Hrun.
  assert (forall a, a ∈ tr -> m !! a_label a = Some (a_left a)) as Hin.
  { intros a Ha. apply elem_of_map_to_list. rewrite <- Hitems.
    by apply (list_elem_of_fmap_2 (fun a => (a_label a, a_left a))). }
  clear Hitems. revert s cc ct Hrun.
  induction Hall as [|a tr [Hcat Hcomp] Hall IH]; intros s cc ct Hrun;
    [constructor|].
  cbn [attempts_run] in Hrun. destruct Hrun as (_ & _ & s1 & Hmade & Hrun).
  rewrite fmap_cons. constructor.
  - simpl. rewrite Hcat, Hcomp. split; [done|]. split; [|eauto].
    exists cdone, cfeed. split; [done|]. rewrite <- Hm. apply Hin, list_elem_of_here.
  - eapply IH; [|exact Hrun]. intros b Hb. by apply Hin, list_elem_of_further.
Qed.

Lemma attempts_run_split {S} `{UnitStore S} (tr1 tr2 : list Attempt) (s s2 : S)
    (cc cc2 ct ct2 : Z) :
  attempts_run s cc ct (tr1 ++ tr2) s2 cc2 ct2 ->
  exists s1 cc1 ct1,
    attempts_run s cc ct tr1 s1 cc1 ct1
    /\ attempts_run s1 cc1 ct1 tr2 s2 cc2 ct2.
Proof.
  revert s cc ct. induction tr1 as [|a tr1 IH]; intros s cc ct; simpl.
  - intros Hrun. by exists s, cc, ct.
  - intros (Hcc & Hct & s' & Hmade & Hrun).
    destruct (IH _ _ _ Hrun) as (s1 & cc1 & ct1 & H1 & H2).
    exists s1, cc1, ct1. eauto 10.
Qed.

Lemma walk_run_events {S} `{UnitStore S} (queue : gmap string Z) (sh : Shares)
    (cs : list Category) (s s' : S) (h h' cnt : Z) (tr : list Event) :
  walk_run queue sh cs s h cnt tr s' h' -> Forall (event_ok sh cs) tr.
Proof.
  assert (forall cs0, cs ⊆ cs0 -> forall s h cnt tr,
            walk_run queue sh cs s h cnt tr s' h' ->
            Forall (event_ok sh cs0) tr) as Hgen; [|by apply Hgen].
  intros cs0. induction cs as [|c cs IH]; intros Hsub s0 h0 cnt0 tr0 Hrun.
  - destruct Hrun as (-> & _). constructor.
  - cbn [walk_run] in Hrun. destruct Hrun as (seg & tr' & s1 & -> & Hseg & Hrun).
    apply Forall_app. split; [|eapply IH; [set_solver | exact Hrun]].
    destruct Hseg as (cdone & cfeed & feed & done & cc' & ct' & Hw & _ & ->
                      & Hf & Hd & Hatt).
    assert (c ∈ cs0) as Hc by set_solver.
    constructor; [exact Hc|]. rewrite fmap_app.
    apply attempts_run_split in Hatt as (s2 & cc2 & ct2 & H1 & H2).
    apply Forall_app. split.
    + by eapply (attempts_events_ok sh cs0 c false cfeed).
    + by eapply (attempts_events_ok sh cs0 c true cdone).
Qed.

Section Obtain.

Context {S : Type} `{UnitStore S} `{Services}.

(** The two ways in which [obtain] returns: at once with nothing when the
    hunger is zero, or after the run over the categories with the
    descriptors of the merge tasks and of the tasks created. *)
Lemma obtain_Ok (cfg : Config) (p : Provider S) (total : Z)
    (queue : gmap string Z) (o : Obtained S) :
  obtain cfg p total queue = Ok o ->
  let sh := (collect cfg (store p)).1 in
  let st1 := (collect cfg (store p)).2 in
  exists h,
    compute_hunger cfg total queue = Ok h
    /\ ((h = 0 /\ o = {| o_provider := with_store p st1; o_tasks := [];
                        o_trace := [] |})
        \/ (h <> 0
            /\ exists s' h' p',
                walk_run queue sh (walk cfg sh) st1 h (sum_values (sizes sh))
                         (o_trace o) s' h'
                /\ for_each (build_task cfg)
                            (taskinfos sh ++ created_infos (o_trace o))
                            (with_store p s', []) = Ok (p', o_tasks o)
                /\ store (o_provider o) = store p'
                /\ taskhandlers (o_provider o) = taskhandlers p')).
Proof.
  unfold obtain. destruct (collect cfg (store p)) as [sh st1]. simpl.
  destruct (compute_hunger cfg total queue) as [h|]; simpl; [|discriminate].
  intros Hrun. exists h. split; [done|].
  destruct (h =? 0) eqn:Hh.
  { left. injection Hrun as <-. split; [lia | done]. }
  right. split; [lia|].
  destruct (fill_categories _ _ _ _) as [w|] eqn:Hfill; simpl in Hrun;
    [|discriminate].
  unfold fill_categories, fill_step in Hfill.
  rewrite for_each_filter in Hfill. fold (walk cfg sh) in Hfill.
  apply categories_loop in Hfill as (tr & Hwalk & Htr & Hinfos).
  cbn in Hwalk, Htr, Hinfos. subst tr.
  destruct (w_taskinfos w) as [|ti tis] eqn:Hw.
  - injection Hrun as <-.
    cbn [o_trace o_tasks o_provider store taskhandlers with_store].
    rewrite <- Hinfos.
    exists (w_store w), (hunger w), (with_store p (w_store w)). done.
  - destruct (for_each _ _ _) as [[p' ds]|] eqn:Hbuild; simpl in Hrun;
      [|discriminate].
    injection Hrun as <-.
    cbn [o_trace o_tasks o_provider store taskhandlers with_store].
    rewrite <- Hinfos.
    exists (w_store w), (hunger w), p'. done.
Qed.

Lemma build_task_Ok (cfg : Config) (p p' : Provider S)
    (ds ds' : list Descriptor) (ti : TaskInfo) :
  build_task cfg (p, ds) ti = Ok (p', ds') ->
  exists d hd,
    ds' = ds ++ [d] /\ described cfg ti d
    /\ taskhandlers p' = <[ti_id ti := hd]> (taskhandlers p).
Proof.
  unfold build_task.
  destruct (getattr_workflows cfg (ti_label ti)) as [w|] eqn:Hw; simpl;
    [|discriminate].
  destruct (ti_merge ti) eqn:Hmerge; simpl.
  - destruct (for_each _ _ _) as [[missing infiles]|]; simpl; [|discriminate].
    intros [= <- <-]. eexists _, _. split; [done|]. simpl.
    split; [|done]. split; [done|]. exists w. by rewrite Hmerge.
  - intros [= <- <-]. eexists _, _. split; [done|]. simpl.
    split; [|done]. split; [done|]. exists w. by rewrite Hmerge.
Qed.

Lemma build_loop (cfg : Config) (infos : list TaskInfo) (p p' : Provider S)
    (ds ds' : list Descriptor) :
  for_each (build_task cfg) infos (p, ds) = Ok (p', ds') ->
  exists dn,
    ds' = ds ++ dn /\ Forall2 (described cfg) infos dn
    /\ (forall id, is_Some (taskhandlers p' !! id) <->
                   is_Some (taskhandlers p !! id) \/ id ∈ ti_id <$> infos).
Proof.
  revert p ds. induction infos as [|ti infos IH]; intros p ds.
  - intros [= <- <-]. exists []. rewrite app_nil_r.
    split; [done|]. split; [constructor|]. intros id. set_solver.
  - intros ([p1 ds1] & Hstep & Hrest)%for_each_cons_Ok.
    apply build_task_Ok in Hstep as (d & hd & -> & Hd & Hh).
    destruct (IH _ _ Hrest) as (dn & -> & Hall & Hids).
    exists (d :: dn). rewrite <- app_assoc. split; [done|].
    split; [by constructor|]. intros id. rewrite Hids, Hh, fmap_cons.
    rewrite lookup_insert_is_Some, elem_of_cons.
    destruct (decide (ti_id ti = id)); naive_solver.
Qed.

Lemma described_cores (cfg : Config) (infos : list TaskInfo)
    (ds : list Descriptor) :
  Forall2 (described cfg) infos ds ->
  new_cores cfg ds = sumZ (info_cores cfg <$> infos).
Proof.
  unfold new_cores.
  induction 1 as [|ti d infos ds (_ & w & Hw & Hcat) _ IH]; [done|].
  rewrite !fmap_cons, !sumZ_cons, IH. f_equal.
  unfold descriptor_cores, info_cores. rewrite Hcat, Hw.
  by destruct (ti_merge ti).
Qed.

Lemma merge_infos_cores (cfg : Config) (infos : list TaskInfo) :
  Forall (fun ti => ti_merge ti = true) infos ->
  sumZ (info_cores cfg <$> infos) = 0.
Proof.
  induction 1 as [|ti infos Hti _ IH]; [done|].
  rewrite fmap_cons, sumZ_cons, IH. unfold info_cores. by rewrite Hti.
Qed.

(** Every task that [obtain] returns has its handler registered. *)
Lemma obtain_registers_handlers (cfg : Config) (p : Provider S) (total : Z)
    (queue : gmap string Z) (o : Obtained S) (d : Descriptor) :
  obtain cfg p total queue = Ok o ->
  d ∈ o_tasks o ->
  is_Some (taskhandlers (o_provider o) !! d_id d).
Proof.
  intros (h & _ & [[_ ->]|(_ & s' & h' & p' & _ & Hbuild & _ & Hth)])%obtain_Ok Hd.
  { by apply elem_of_nil in Hd. }
  apply build_loop in Hbuild as (dn & Hds & Hdesc & Hids). simpl in Hds.
  rewrite Hth, Hids. right. rewrite Hds in Hd.
  clear Hids Hds. induction Hdesc as [|ti d' infos ds [Hid _] _ IH].
  - by apply elem_of_nil in Hd.
  - rewrite fmap_cons. apply elem_of_cons in Hd as [->|Hd].
    + rewrite Hid. apply list_elem_of_here.
    + apply list_elem_of_further. auto.
Qed.

Hypothesis labelled : pop_labelled S.

(** The tasks created by one attempt take the cores of its category. *)
Lemma attempt_info_cores (cfg : Config) (sh : Shares) (a : Attempt) :
  NoDup (label <$> workflows cfg) ->
  NoDup (name <$> categories cfg) ->
  shares_from cfg sh ->
  event_ok sh (walk cfg sh) (Created a) ->
  sumZ (info_cores cfg <$> a_infos a) = event_cores (Created a).
Proof.
  intros Hlabels Hnames Hfrom (Hcat & (cdone & cfeed & Hw & Hlbl)
                               & s & s' & Hmade).
  apply walk_elem in Hcat as (Hcat & _ & Hmerge).
  destruct (Hfrom (name (a_cat a)) cdone cfeed (a_label a) Hw)
    as (w & Hwin & Hwl & Hwc).
  { destruct (a_complete a); eauto. }
  assert (Forall (fun ti => info_cores cfg ti = cores (a_cat a)) (a_infos a))
    as Hall.
  { unfold attempt_made in Hmade.
    destruct (a_call a) as [[n t]|]; [|by destruct Hmade as (_ & -> & _)].
    destruct Hmade as (_ & _ & _ & _ & Hpop).
    pose proof (labelled s (a_label a) n t) as Hl. rewrite Hpop in Hl.
    eapply Forall_impl; [exact Hl|]. intros ti [Hti Hm].
    unfold info_cores, getattr_workflows. rewrite Hm, Hti, <- Hwl.
    rewrite (find_NoDup label _ w Hlabels Hwin), Hwc.
    destruct (String.eqb_spec (name (a_cat a)) "merge"); [done|].
    unfold cores_of. by rewrite (find_NoDup name _ _ Hnames Hcat). }
  simpl. induction Hall as [|ti infos Hti _ IH]; [simpl; lia|].
  rewrite fmap_cons, sumZ_cons, IH, Hti. simpl length. lia.
Qed.

Lemma created_info_cores (cfg : Config) (sh : Shares) (tr : list Event) :
  NoDup (label <$> workflows cfg) ->
  NoDup (name <$> categories cfg) ->
  shares_from cfg sh ->
  Forall (event_ok sh (walk cfg sh)) tr ->
  sumZ (info_cores cfg <$> created_infos tr) = created_cores tr.
Proof.
  intros Hlabels Hnames Hfrom.
  induction 1 as [|e tr He _ IH]; [done|].
  rewrite created_infos_cons, created_cores_cons, fmap_app, sumZ_app, IH.
  f_equal. destruct e as [c q f ab|a]; [done|]. simpl.
  by eapply attempt_info_cores.
Qed.

End Obtain.

(* ===================================================================== *)
(** * The hunger bound *)
(* ===================================================================== *)

Lemma elem_cores_le (cs : list Category) (c : Category) :
  Forall (fun c => 0 < cores c) cs -> c ∈ cs ->
  cores c <= sumZ (cores <$> cs).
Proof.
  induction 1 as [|d cs Hd Hall IH]; [by intros ?%elem_of_nil|].
  assert (0 <= sumZ (cores <$> cs)).
  { apply sumZ_nonneg, Forall_fmap. eapply Forall_impl; [exact Hall|].
    simpl. lia. }
  rewrite fmap_cons, sumZ_cons. intros [->|Hc]%elem_of_cons; [lia|].
  specialize (IH Hc). lia.
Qed.

(** C2: when [obtain] returns, the cores of the tasks it returns, merge
    tasks not counted, exceed the hunger by less than one task of one of
    the categories; so they stay within the hunger plus one task for each
    category that was filled. *)
Theorem hunger_bound {S} `{UnitStore S} `{Services} (cfg : Config)
    (p : Provider S) (total : Z) (queue : gmap string Z) (o : Obtained S)
    (h : Z) :
  pop_bounded S -> pop_labelled S -> merges_flagged S ->
  (forall (s : S) (lbl : string), (0 <= (work_left s lbl).2)%Q) ->
  NoDup (label <$> workflows cfg) ->
  NoDup (name <$> categories cfg) ->
  Forall (fun c => 0 < cores c) (categories cfg) ->
  Forall (fun w => 0 <= cores (category w)) (workflows cfg) ->
  obtain cfg p total queue = Ok o ->
  compute_hunger cfg total queue = Ok h ->
  new_cores cfg (o_tasks o)
  <= h + sumZ (cores <$> walk cfg (collect cfg (store p)).1)
  /\ (new_cores cfg (o_tasks o) <= h
      \/ exists c, c ∈ categories cfg
                   /\ new_cores cfg (o_tasks o) < h + cores c).
Proof.
  intros Hbound Hlab Hflag Hest Hlabels Hnames Hcores Hwcores Hrun Hh.
  set (sh := (collect cfg (store p)).1).
  assert (Forall (fun c => 0 < cores c) (walk cfg sh)) as Hwalk.
  { apply Forall_forall. intros c (Hc & _)%walk_elem.
    rewrite Forall_forall in Hcores. auto. }
  assert (0 <= sumZ (cores <$> walk cfg sh)) as Hsum.
  { apply sumZ_nonneg, Forall_fmap. eapply Forall_impl; [exact Hwalk|].
    simpl. lia. }
  assert (0 <= h) as Hh0.
  { unfold compute_hunger in Hh.
    destruct (subtract_waiting _ _ _); simpl in Hh; [|discriminate].
    injection Hh as <-. lia. }
  apply obtain_Ok in Hrun as (h0 & Hh' & Hcases).
  rewrite Hh in Hh'. injection Hh' as <-. fold sh in Hcases.
  destruct Hcases as [[-> ->]|(Hne & s' & h' & p' & Hrun & Hbuild & _)].
  { simpl. unfold new_cores. simpl. split; [lia | left; lia]. }
  pose proof (collect_shares_ok Hest cfg (store p) Hwcores) as Hok.
  fold sh in Hok.
  apply build_loop in Hbuild as (dn & Hds & Hdesc & _). simpl in Hds.
  rewrite Hds, (described_cores _ _ _ Hdesc), fmap_app, sumZ_app.
  assert (Forall (fun ti => ti_merge ti = true) (taskinfos sh)) as Hmerges
    by apply (collect_taskinfos_merge cfg (store p) Hflag).
  assert (shares_from cfg sh) as Hfrom by apply collect_shares_from.
  rewrite (merge_infos_cores cfg _ Hmerges).
  rewrite (created_info_cores Hlab cfg sh _ Hlabels Hnames Hfrom
             (walk_run_events _ _ _ _ _ _ _ _ _ Hrun)).
  destruct (walk_bound Hbound _ _ _ _ _ _ _ _ _ Hrun Hok) as (_ & _ & _ & Hb).
  - apply Forall_forall. intros c Hc. split.
    + rewrite Forall_forall in Hwalk. auto.
    + by apply walk_elem in Hc as (_ & ? & _).
  - etrans; [|apply (sum_over_keys (sizes sh) (name <$> walk cfg sh))].
    + by rewrite <- list_fmap_compose.
    + by apply walk_names_NoDup.
    + intros cat size Hsize. by eapply shares_size_nonneg.
  - destruct (Hb Hh0) as [Hle|(c & Hc & Hlt)].
    + split; [lia | left; lia].
    + pose proof (elem_cores_le _ _ Hwalk Hc).
      split; [lia|]. right. exists c. by apply walk_elem in Hc as (? & _).
Qed.

(* ===================================================================== *)
(** * The in-memory store meets the assumptions on the store *)
(* ===================================================================== *)

Module MemStoreFacts.

Lemma bounded : pop_bounded MemStore.t.
Proof.
  intros s lbl n t. simpl. unfold MemStore.mem_pop_units.
  destruct (MemStore.work s !! lbl) as [[[complete units] per_task]|];
    simpl; [|lia].
  rewrite length_fmap, length_seqZ. lia.
Qed.

Lemma labelled : pop_labelled MemStore.t.
Proof.
  intros s lbl n t. simpl. unfold MemStore.mem_pop_units.
  destruct (MemStore.work s !! lbl) as [[[complete units] per_task]|];
    simpl; [|constructor].
  apply Forall_fmap, Forall_forall. by intros id _.
Qed.

Lemma flagged : merges_flagged MemStore.t.
Proof.
  intros s lbl size n. simpl. unfold MemStore.mem_pop_unmerged_tasks.
  destruct (size <=? 0); simpl; [constructor|].
  generalize (take (Z.to_nat n) (default [] (MemStore.merges s !! lbl))).
  intros buckets. generalize (seqZ (MemStore.next_id s) (Z.of_nat (length buckets))).
  intros ids. revert buckets.
  induction ids as [|id ids IH]; intros [|b buckets]; simpl;
    constructor; auto.
Qed.

Lemma estimate_nonneg (s : MemStore.t) (lbl : string) :
  (0 <= (work_left s lbl).2)%Q.
Proof.
  simpl. unfold MemStore.mem_work_left.
  destruct (MemStore.work s !! lbl) as [[[complete units] per_task]|];
    simpl; [|done].
  unfold Qle. simpl. lia.
Qed.

End MemStoreFacts.

Lemma two_categories_labels : NoDup (label <$> workflows two_categories).
Proof. apply (bool_decide_unpack _). vm_compute. exact I. Qed.

Lemma hunger_bound_witness :
  exists o,
    obtain (H0 := plain_services None) two_categories
           (fresh_provider two_workflows_store) 10 {[ "A" := 1; "B" := 3 ]}
    = Ok o
    /\ new_cores two_categories (o_tasks o) = 4
    /\ new_cores two_categories (o_tasks o)
       <= 4 + sumZ (cores <$> walk two_categories
                      (collect two_categories two_workflows_store).1).
Proof.
  eexists. split; [vm_compute; reflexivity|]. split; [vm_compute; reflexivity|].
  refine (proj1 (hunger_bound (H0 := plain_services None) two_categories
                   (fresh_provider two_workflows_store) 10
                   {[ "A" := 1; "B" := 3 ]} _ 4
                   MemStoreFacts.bounded MemStoreFacts.labelled
                   MemStoreFacts.flagged MemStoreFacts.estimate_nonneg
                   two_categories_labels two_categories_names _ _ _ _)).
  - repeat (constructor; try (simpl; lia)).
  - repeat (constructor; try (simpl; lia)).
  - vm_compute. reflexivity.
  - vm_compute. reflexivity.
Defined.

(* ===================================================================== *)
(** * Merge tasks and hunger; the workflows that are skipped *)
(* ===================================================================== *)

(** Without hunger [obtain] returns the empty list, whatever merge tasks
    the first loop has taken from the store. *)
Lemma obtain_without_hunger {S} `{UnitStore S} `{Services} (cfg : Config)
    (p : Provider S) (total : Z) (queue : gmap string Z) :
  compute_hunger cfg total queue = Ok 0 ->
  obtain cfg p total queue
  = Ok {| o_provider := with_store p (collect cfg (store p)).2;
          o_tasks := []; o_trace := [] |}.
Proof.
  intros Hh. unfold obtain. destruct (collect cfg (store p)) as [sh st1].
  rewrite Hh. reflexivity.
Qed.

(** C1, the code at the failing input: with no cores and an empty queue the
    hunger is zero; the first loop takes the merge task that is ready for
    workflow [b] out of the store, and [obtain] returns nothing and
    registers no handler. *)
Theorem obtain_drops_ready_merges :
  compute_hunger two_categories 0 ∅ = Ok 0
  /\ taskinfos (collect two_categories two_workflows_store).1
     = [MemStore.merge_task "b" 1 [7; 8]]
  /\ exists o,
       obtain_plain two_categories two_workflows_store 0 ∅ = Ok o
       /\ o_tasks o = []
       /\ taskhandlers (o_provider o) = ∅
       /\ MemStore.merges (store (o_provider o)) !! "b" = Some [].
Proof.
  split; [vm_compute; reflexivity|]. split; [vm_compute; reflexivity|].
  eexists. split; [apply obtain_without_hunger; vm_compute; reflexivity|].
  repeat split.
Qed.

(** C4, as amended: a workflow is skipped exactly when it is incomplete
    with less than one task left, or has no units left.  A skipped
    workflow leaves the shares as they are; any other workflow, complete
    with less than one task left included, adds its share to the size of
    its category and is entered among the workflows of the category. *)
Theorem skip_rule {S} `{UnitStore S} (sh : Shares) (st : S) (w : Workflow) :
  let st1 := (pop_unmerged_tasks st (label w) (merge_size w) 10).2 in
  let '(complete, units_left, tasks_left) := work_left st1 (label w) in
  let sh' := (collect_workflow (sh, st) w).1 in
  let cat := name (category w) in
  (skipped (complete, units_left, tasks_left) = true <->
   (complete = false /\ (tasks_left < 1)%Q) \/ units_left = 0)
  /\ (skipped (complete, units_left, tasks_left) = true ->
      sizes sh' = sizes sh /\ wflows sh' = wflows sh)
  /\ (skipped (complete, units_left, tasks_left) = false ->
      sizes sh' !! cat
      = Some (default 0 (sizes sh !! cat) + share_of w tasks_left)
      /\ exists cdone cfeed,
           wflows sh' !! cat = Some (cdone, cfeed)
           /\ (if complete then cdone else cfeed) !! label w
              = Some (share_of w tasks_left)).
Proof.
  unfold collect_workflow.
  destruct (pop_unmerged_tasks st (label w) (merge_size w) 10) as [ms st1].
  simpl. destruct (work_left st1 (label w)) as [[complete units_left] tasks_left]
    eqn:Hwl.
  split; [|split].
  - unfold skipped, Qlt_b. rewrite <- Z.eqb_eq.
    destruct complete; simpl.
    + destruct (units_left =? 0); intuition congruence.
    + destruct (Qle_bool 1 tasks_left) eqn:Hq; simpl.
      * apply Qle_bool_iff in Hq.
        destruct (units_left =? 0); split; try tauto; try discriminate.
        intros [[_ Hlt]|?]; [|done]. exfalso. by apply (Qlt_not_le _ _ Hlt).
      * split; [|done]. intros _. left. split; [done|].
        apply Qnot_le_lt. intros Hle. apply Qle_bool_iff in Hle. congruence.
  - intros Hs. change (skipped (complete, units_left, tasks_left) = true) in Hs.
    by rewrite Hs.
  - intros Hs. change (skipped (complete, units_left, tasks_left) = false) in Hs.
    rewrite Hs. simpl. unfold add_share. simpl.
    destruct (sizes sh !! name (category w)) as [size|] eqn:Hsize;
      destruct (wflows sh !! name (category w)) as [[cd cf]|] eqn:Hw;
      simpl; rewrite ?Hw, ?Hsize, ?lookup_insert_eq; simpl;
      rewrite !lookup_insert_eq;
      (split; [done|]); destruct complete; eexists _, _;
      (split; [reflexivity|]); by rewrite lookup_insert_eq.
Qed.

(** C4, counterexample: with half a task left, the incomplete workflow is
    skipped and gets no task, against the rule as worded; the complete one
    is not skipped and gets tasks. *)
Lemma skip_rule_inverted :
  work_left (half_task_store false) "a" = (false, 5, 5 # 10)
  /\ skipped (false, 5, 5 # 10) = true
  /\ spec_skipped (false, 5, 5 # 10) = false
  /\ (o_tasks <$> obtain_plain one_workflow (half_task_store false) 10 ∅) = Ok []
  /\ work_left (half_task_store true) "a" = (true, 5, 5 # 10)
  /\ skipped (true, 5, 5 # 10) = false
  /\ spec_skipped (true, 5, 5 # 10) = true
  /\ (length <$> (o_tasks <$> obtain_plain one_workflow (half_task_store true) 10 ∅))
     = Ok 5%nat.
Proof. vm_compute. repeat split. Qed.

(* ===================================================================== *)
(** * The allocation within a category *)
(* ===================================================================== *)

Section Allocation.

Context {S : Type} `{UnitStore S}.

Lemma walk_run_attempts (queue : gmap string Z) (sh : Shares)
    (cs : list Category) (s s' : S) (h h' cnt : Z) (tr : list Event) :
  walk_run queue sh cs s h cnt tr s' h' ->
  exists segs, tr = concat segs /\ Forall2 (category_attempts queue sh) cs segs.
Proof.
  revert s h cnt tr. induction cs as [|c cs IH]; intros s h cnt tr Hrun.
  - destruct Hrun as (-> & _). exists []. split; [done | constructor].
  - cbn [walk_run] in Hrun. destruct Hrun as (seg & tr' & s1 & -> & Hseg & Hrun).
    destruct (IH _ _ _ _ Hrun) as (segs & -> & Hall).
    exists (seg :: segs). split; [done|]. constructor; [|done].
    destruct Hseg as (cdone & cfeed & feed & done & cc' & ct' & Hw & _ & ->
                      & Hf & Hd & Hatt).
    exists cdone, cfeed, feed, done. eauto 10.
Qed.

(** The segments of a run with the hunger and the share that each category
    meets. *)
Lemma walk_run_segments (queue : gmap string Z) (sh : Shares)
    (cs : list Category) (s s' : S) (h h' cnt : Z) (tr : list Event) :
  walk_run queue sh cs s h cnt tr s' h' ->
  exists segs,
    tr = concat segs /\ length segs = length cs
    /\ forall (i : nat) c seg,
         cs !! i = Some c -> segs !! i = Some seg ->
         exists s1 s2,
           category_segment queue sh c
             (h - created_cores (concat (take i segs)))
             (cnt - sumZ (size_of sh <$> take i cs)) s1 seg s2.
Proof.
  revert s h cnt tr. induction cs as [|c cs IH]; intros s h cnt tr Hrun.
  - destruct Hrun as (-> & _). exists []. split; [done|]. split; [done|].
    intros i c seg Hc. by rewrite lookup_nil in Hc.
  - cbn [walk_run] in Hrun. destruct Hrun as (seg & tr' & s1 & -> & Hseg & Hrun).
    destruct (IH _ _ _ _ Hrun) as (segs & -> & Hlen & Hsegs).
    exists (seg :: segs). split; [done|]. split; [simpl; lia|].
    intros [|i] d sg Hd Hsg; simpl in Hd, Hsg.
    + injection Hd as <-. injection Hsg as <-. exists s, s1. simpl.
      unfold created_cores. simpl. by rewrite !Z.sub_0_r.
    + destruct (Hsegs i d sg Hd Hsg) as (s2 & s3 & Hcs). exists s2, s3.
      cbn [take concat]. rewrite fmap_cons, sumZ_cons, created_cores_app.
      unfold size_of at 1.
      by rewrite !Z.sub_add_distr.
Qed.

Lemma attempts_cores (c : Category) (tr : list Attempt) :
  Forall (fun a => a_cat a = c) tr ->
  created_cores (Created <$> tr) = created_tasks (Created <$> tr) * cores c.
Proof.
  unfold created_cores, created_tasks.
  induction 1 as [|a tr Ha _ IH]; [done|].
  rewrite !fmap_cons, !sumZ_cons, IH. simpl. rewrite Ha. lia.
Qed.

Hypothesis bounded : pop_bounded S.

(** A category with a task limit gets no more tasks than the limit leaves
    beside the tasks in the queue. *)
Lemma segment_within_limit (queue : gmap string Z) (sh : Shares) (c : Category)
    (h cnt k : Z) (s s' : S) (seg : list Event) :
  category_segment queue sh c h cnt s seg s' ->
  shares_ok sh ->
  0 < cores c ->
  is_Some (sizes sh !! name c) ->
  task_limit c = Some k ->
  created_tasks seg <= Z.max 0 (k - in_queue queue (name c)).
Proof.
  intros Hseg Hok Hc [size Hsize] Hk.
  destruct (segment_fill_bound bounded _ _ _ _ _ _ _ _ Hseg Hok Hc size Hsize)
    as (_ & Hb0 & Hb1 & Hb2).
  destruct Hseg as (cdone & cfeed & feed & done & cc' & ct' & _ & _ & ->
                    & [_ Hf] & [_ Hd] & _).
  assert (created_cores (FillCategory c (in_queue queue (name c))
            (category_ccores queue c h (default 0 (sizes sh !! name c)) cnt)
            (default 0 (sizes sh !! name c)) :: (Created <$> feed ++ done))
          = created_tasks (FillCategory c (in_queue queue (name c))
            (category_ccores queue c h (default 0 (sizes sh !! name c)) cnt)
            (default 0 (sizes sh !! name c)) :: (Created <$> feed ++ done))
            * cores c) as Heq.
  { rewrite created_cores_cons.
    unfold created_tasks. rewrite fmap_cons, sumZ_cons.
    fold (created_tasks (Created <$> feed ++ done)). simpl.
    apply attempts_cores, Forall_app.
    split; (eapply Forall_impl; [eassumption|]); by intros ? [? _]. }
  rewrite Heq in *. clear Heq.
  revert Hb0 Hb1 Hb2. rewrite Hsize. simpl.
  generalize (created_tasks
                (FillCategory c (in_queue queue (name c))
                   (category_ccores queue c h size cnt) size
                 :: (Created <$> feed ++ done))).
  intros n. unfold category_ccores. rewrite Hk.
  intros Hb0 Hb1 Hb2.
  destruct (Z_le_gt_dec
              (Z.min (ceil_div (h * size) cnt)
                     ((k - in_queue queue (name c)) * cores c)) 0) as [Hle|Hgt].
  - specialize (Hb1 Hle). nia.
  - specialize (Hb2 ltac:(lia)). nia.
Qed.

End Allocation.

(** C5, as amended: when [obtain] has hunger, its events are those of the
    categories walked, one after the other; in each category the incomplete
    workflows are attempted before the complete ones.  An attempt that
    finds cores to fill asks [pop_units] for
    [max(1, ceil(ccores * left / (ctotal * cores)))] tasks, where [left] is
    the share of the workflow and [ctotal] what is left of the share of the
    category, with taper [min(1, left / (ntasks * cores))] for a complete
    workflow and the default taper for an incomplete one. *)
Theorem workflow_allocation {S} `{UnitStore S} `{Services} (cfg : Config)
    (p : Provider S) (total : Z) (queue : gmap string Z) (o : Obtained S) :
  obtain cfg p total queue = Ok o ->
  compute_hunger cfg total queue <> Ok 0 ->
  let sh := (collect cfg (store p)).1 in
  exists segs,
    o_trace o = concat segs
    /\ Forall2 (category_attempts queue sh) (walk cfg sh) segs.
Proof.
  intros Hrun Hne sh.
  apply obtain_Ok in Hrun as (h & Hh & [[-> _]|(_ & s' & h' & p' & Hwalk & _)]);
    [congruence|].
  by eapply walk_run_attempts.
Qed.

Lemma workflow_allocation_witness :
  exists o segs,
    obtain_plain shared_category shared_category_store 50 ∅ = Ok o
    /\ o_trace o = concat segs
    /\ Forall2 (category_attempts ∅ (collect shared_category shared_category_store).1)
               (walk shared_category (collect shared_category shared_category_store).1)
               segs.
Proof.
  destruct (obtain_plain shared_category shared_category_store 50 ∅)
    as [o|] eqn:Hrun; [|vm_compute in Hrun; discriminate].
  destruct (workflow_allocation (H0 := plain_services None) shared_category
              (fresh_provider shared_category_store) 50 ∅ o Hrun)
    as (segs & Htrace & Hsegs).
  - vm_compute. discriminate.
  - exists o, segs. auto.
Defined.

(** C5, counterexample: with 55 cores to fill in a category of 120 units,
    the incomplete workflow [a] with 100 units left is asked for 28 tasks,
    not for the 46 that its units would give; the complete workflow [b]
    with 20 units left is then asked for 45 tasks with a taper of 10/45,
    where its units would give a taper of 20/45. *)
Lemma allocation_not_by_units :
  work_left shared_category_store "a" = (false, 100, 100 # 10)
  /\ work_left shared_category_store "b" = (true, 20, 20 # 2)
  /\ ((fun o => (fun a => (a_label a, a_ccores a, a_call a))
                <$> attempts_of (o_trace o))
      <$> obtain_plain shared_category shared_category_store 50 ∅)
     = Ok [("a", 55, Some (28, 1%Q)); ("b", 45, Some (45, 10 # 45))]
  /\ spec_ntasks 55 100 120 1 = 46
  /\ spec_taper 20 45 1 = 20 # 45.
Proof. vm_compute. repeat split. Qed.

(** C7, as amended: when [obtain] has hunger, the category in place [i] of
    the walk is to fill [ceil(h * size / count)] cores, where [h] is the
    hunger left by the tasks created for the categories before it and
    [count] the shares of the categories not yet walked; with a task limit
    [k] this is cut down to [(k - in_queue) * cores], and the category then
    gets no more tasks than the limit leaves beside the tasks in the
    queue. *)
Theorem category_fill_within_limit {S} `{UnitStore S} `{Services} (cfg : Config)
    (p : Provider S) (total : Z) (queue : gmap string Z) (o : Obtained S)
    (h : Z) :
  pop_bounded S ->
  (forall (s : S) (lbl : string), (0 <= (work_left s lbl).2)%Q) ->
  Forall (fun c => 0 < cores c) (categories cfg) ->
  Forall (fun w => 0 <= cores (category w)) (workflows cfg) ->
  obtain cfg p total queue = Ok o ->
  compute_hunger cfg total queue = Ok h ->
  h <> 0 ->
  let sh := (collect cfg (store p)).1 in
  exists segs,
    o_trace o = concat segs
    /\ length segs = length (walk cfg sh)
    /\ forall (i : nat) c seg,
         walk cfg sh !! i = Some c -> segs !! i = Some seg ->
         let hc := h - created_cores (concat (take i segs)) in
         let cnt := sum_values (sizes sh)
                    - sumZ (size_of sh <$> take i (walk cfg sh)) in
         let fill := match task_limit c with
                     | Some k => Z.min (ceil_div (hc * size_of sh c) cnt)
                                       ((k - in_queue queue (name c)) * cores c)
                     | None => ceil_div (hc * size_of sh c) cnt
                     end in
         head seg = Some (FillCategory c (in_queue queue (name c)) fill
                                       (size_of sh c))
         /\ cnt <> 0
         /\ forall k, task_limit c = Some k ->
                      created_tasks seg <= Z.max 0 (k - in_queue queue (name c)).
Proof.
  intros Hbound Hest Hcores Hwcores Hrun Hh Hne sh.
  apply obtain_Ok in Hrun as (h0 & Hh' & Hcases).
  rewrite Hh in Hh'. injection Hh' as <-.
  destruct Hcases as [[-> _]|(_ & s' & h' & p' & Hwalk & _)]; [done|].
  fold sh in Hwalk.
  apply walk_run_segments in Hwalk as (segs & Htr & Hlen & Hsegs).
  exists segs. split; [done|]. split; [done|].
  intros i c seg Hc Hseg. destruct (Hsegs i c seg Hc Hseg) as (s1 & s2 & Hcs).
  pose proof Hcs as (cdone & cfeed & feed & done & cc' & ct' & _ & Hcnt & ->
                     & _).
  split; [done|]. split; [done|]. intros k Hk.
  apply list_elem_of_lookup_2, walk_elem in Hc as (Hc & Hsize & _).
  eapply (segment_within_limit Hbound); eauto.
  - by apply collect_shares_ok.
  - rewrite Forall_forall in Hcores. auto.
Qed.

Lemma category_fill_within_limit_witness :
  exists o seg,
    obtain_plain two_categories two_workflows_store 10 {[ "A" := 1; "B" := 3 ]}
    = Ok o
    /\ head seg = Some (FillCategory catA 1 4 40)
    /\ created_tasks seg <= Z.max 0 (2 - 1).
Proof.
  destruct (obtain_plain two_categories two_workflows_store 10
              {[ "A" := 1; "B" := 3 ]}) as [o|] eqn:Hrun;
    [|vm_compute in Hrun; discriminate].
  destruct (category_fill_within_limit (H0 := plain_services None)
              two_categories (fresh_provider two_workflows_store) 10
              {[ "A" := 1; "B" := 3 ]} o 4
              MemStoreFacts.bounded MemStoreFacts.estimate_nonneg)
    as (segs & Htrace & Hlen & Hsegs).
  - repeat (constructor; try (simpl; lia)).
  - repeat (constructor; try (simpl; lia)).
  - exact Hrun.
  - vm_compute. reflexivity.
  - lia.
  - destruct segs as [|seg segs]; [vm_compute in Hlen; discriminate|].
    destruct (Hsegs 0%nat catA seg) as (Hhead & _ & Hcap).
    + vm_compute. reflexivity.
    + reflexivity.
    + exists o, seg. split; [done|]. split.
      * rewrite Hhead. vm_compute. reflexivity.
      * apply (Hcap 2). reflexivity.
Defined.

(** C7, counterexample: with 100 cores, an empty queue and the shares 40
    and 10 the hunger is 110; category [A] is to fill 8 cores, and category
    [B] after it 102 cores, all the hunger that is left, where its share
    of the hunger computed at the start would be 22 cores. *)
Lemma fill_not_by_initial_hunger :
  exists o,
    obtain_plain two_categories two_workflows_store 100 ∅ = Ok o
    /\ compute_hunger two_categories 100 ∅ = Ok 110
    /\ fills (o_trace o) = [("A", 8); ("B", 102)]
    /\ spec_fill ∅ (collect two_categories two_workflows_store).1 catB 110 = 22.
Proof.
  destruct (obtain_plain two_categories two_workflows_store 100 ∅)
    as [o|] eqn:Hrun; [|vm_compute in Hrun; discriminate].
  exists o. split; [done|].
  split; [vm_compute; reflexivity|].
  split; [|vm_compute; reflexivity].
  assert (Hfills : fills <$> (o_trace <$> obtain_plain two_categories
                                two_workflows_store 100 ∅)
                   = Ok [("A", 8); ("B", 102)]) by (vm_compute; reflexivity).
  rewrite Hrun in Hfills. by injection Hfills.
Qed.

(* ===================================================================== *)
(** * release *)
(* ===================================================================== *)


Section Release.

Context {S : Type} `{UnitStore S} `{Services}.

(** [release_task] when the handler and the workflow are found and the
    handler has an output where one is needed. *)
Lemma release_task_None (cfg : Config) (p p' : Provider S) (b b' : Batch)
    (t : CompletedTask) :
  release_task cfg (p, b) t = (p', b', None) ->
  exists h w,
    taskhandlers p !! tag t = Some h
    /\ getattr_workflows cfg (dataset h) = Ok w
    /\ exists p2 b2,
         settle w h (process h t).1.1.1 (log_effect p (DashUpdate (tag t) DONE)) b
         = Ok (p2, b2)
         /\ store p' = store p2
         /\ taskhandlers p' = delete (tag t) (taskhandlers p2)
         /\ effects p' = effects p2 ++ [DashUpdate (tag t) RETRIEVED]
         /\ cleanup b' = cleanup b2
         /\ propagate b' = propagate b2
         /\ update b'
            = <[(dataset h, unit_source h) :=
                  default [] (update b2 !! (dataset h, unit_source h))
                  ++ [((process h t).1.1.2, (process h t).1.2, (process h t).2)]]>
              (update b2).
Proof.
  unfold release_task.
  destruct (taskhandlers p !! tag t) as [h|]; [|discriminate].
  destruct (process h t) as [[[failed tu] fu] uu] eqn:Hproc.
  destruct (getattr_workflows cfg (dataset h)) as [w|] eqn:Hw; [|discriminate].
  destruct (settle w h failed _ b) as [[p2 b2]|] eqn:Hsettle; [|discriminate].
  intros Heq. injection Heq as <- <-. exists h, w. split; [done|]. split; [done|].
  exists p2, b2. rewrite Hproc. simpl. by rewrite Hsettle.
Qed.

Lemma settle_Ok (w : Workflow) (h : Handler) (failed : bool) (p p2 : Provider S)
    (b b2 : Batch) :
  settle w h failed p b = Ok (p2, b2) ->
  store p2 = store p /\ taskhandlers p2 = taskhandlers p
  /\ update b2 = update b
  /\ effects p2
     = effects p ++ [Move (workdir w) (h_id h)
                          (if failed then "failed" else "successful")].
Proof.
  unfold settle. destruct failed.
  - by intros [= <- <-].
  - destruct ((merge_size w <=? 0) || is_merge h).
    + destruct (outputs h) as [|[rf outfn] outs]; simpl; [discriminate|].
      by intros [= <- <-].
    + simpl. by intros [= <- <-].
Qed.

(** A task leaves the store alone; it only takes its handler away. *)
Lemma release_task_frame (cfg : Config) (p p' : Provider S) (b b' : Batch)
    (t : CompletedTask) (r : option exn) :
  release_task cfg (p, b) t = (p', b', r) ->
  store p' = store p
  /\ (forall id, taskhandlers p !! id = None -> taskhandlers p' !! id = None)
  /\ (taskhandlers p !! tag t = None -> r = Some KeyError)
  /\ (r = None ->
      is_Some (taskhandlers p !! tag t)
      /\ taskhandlers p' = delete (tag t) (taskhandlers p)).
Proof.
  destruct r as [e|].
  - unfold release_task.
    destruct (taskhandlers p !! tag t) as [h|] eqn:Hh.
    + destruct (process h t) as [[[failed tu] fu] uu].
      destruct (getattr_workflows cfg (dataset h)) as [w|].
      * destruct (settle w h failed _ b) as [[p2 b2]|] eqn:Hsettle;
          [discriminate|].
        destruct failed; intros [= <- <- <-]; simpl; done.
      * intros [= <- <- <-]. simpl. done.
    + intros [= <- <- <-]. simpl. done.
  - intros (h & w & Hh & Hw & p2 & b2 & Hsettle & Hst & Hth & _)%release_task_None.
    apply settle_Ok in Hsettle as (Hst2 & Hth2 & _). simpl in *.
    rewrite Hst, Hst2, Hth, Hth2. split; [done|]. split; [|split].
    + intros id Hid. destruct (decide (id = tag t)) as [->|Hne].
      * apply lookup_delete_eq.
      * by rewrite lookup_delete_ne.
    + rewrite Hh. discriminate.
    + intros _. split; [eauto | done].
Qed.

Lemma release_tasks_frame (cfg : Config) (ts : list CompletedTask)
    (p p' : Provider S) (b b' : Batch) (r : option exn) :
  release_tasks cfg ts (p, b) = (p', b', r) ->
  store p' = store p
  /\ (forall id, taskhandlers p !! id = None -> taskhandlers p' !! id = None)
  /\ (r = None ->
      NoDup (tag <$> ts)
      /\ forall t, t ∈ ts ->
           is_Some (taskhandlers p !! tag t)
           /\ taskhandlers p' !! tag t = None).
Proof.
  revert p b. induction ts as [|t ts IH]; intros p b; cbn [release_tasks].
  - intros [= <- <- <-]. split; [done|]. split; [done|]. intros _.
    split; [constructor|]. by intros t ?%elem_of_nil.
  - destruct (release_task cfg (p, b) t) as [[p1 b1] r1] eqn:Hstep.
    apply release_task_frame in Hstep as (Hst & Hkeep & Hkey & Hnone).
    destruct r1 as [e|]; simpl.
    + intros [= <- <- <-]. split; [done|]. split; [done|]. discriminate.
    + destruct (Hnone eq_refl) as [Hsome Hdel].
      intros Hrest. destruct (IH _ _ Hrest) as (Hst' & Hkeep' & Hnone').
      split; [congruence|]. split; [auto|].
      intros ->. destruct (Hnone' eq_refl) as [Hnd Hall].
      assert (taskhandlers p1 !! tag t = None) as Hgone
        by (rewrite Hdel; apply lookup_delete_eq).
      split.
      * constructor; [|done].
        intros (t' & Htag & Hin)%list_elem_of_fmap_1.
        destruct (Hall t' Hin) as [[h' Hh'] _]. congruence.
      * intros t' [->|Hin]%elem_of_cons; [split; [done | auto]|].
        destruct (Hall t' Hin) as [[h' Hh'] Hgone'].
        split; [|done]. rewrite Hdel in Hh'.
        apply lookup_delete_Some in Hh' as [_ Hh']. eauto.
Qed.

(** Once the tasks in front of it have gone through, a task without a
    handler raises [KeyError]. *)
Lemma release_tasks_unknown (cfg : Config) (ts1 ts2 : list CompletedTask)
    (t : CompletedTask) (p : Provider S) (b : Batch) :
  taskhandlers p !! tag t = None ->
  exists p' b' e,
    release_tasks cfg (ts1 ++ t :: ts2) (p, b) = (p', b', Some e)
    /\ ((exists p1 b1, release_tasks cfg ts1 (p, b) = (p1, b1, None)) ->
        e = KeyError).
Proof.
  revert p b.
  induction ts1 as [|t1 ts1 IH]; intros p b Hnone; cbn [release_tasks app].
  - destruct (release_task cfg (p, b) t) as [[p1 b1] r1] eqn:Hstep.
    apply release_task_frame in Hstep as (_ & _ & Hkey & _).
    rewrite (Hkey Hnone). eauto.
  - destruct (release_task cfg (p, b) t1) as [[p1 b1] [e|]] eqn:Hstep.
    + exists p1, b1, e. split; [done|]. by intros (? & ? & [=]).
    + apply release_task_frame in Hstep as (_ & Hkeep & _).
      apply (IH p1 b1 (Hkeep _ Hnone)).
Qed.

Lemma remove_files_frame (ts : list CompletedTask) (b : Batch)
    (p p' : Provider S) (r : option exn) :
  remove_files ts b p = (p', r) ->
  store p' = store p /\ taskhandlers p' = taskhandlers p.
Proof.
  unfold remove_files. destruct (cleanup b); [by intros [= <- <-]|].
  destruct (fs_remove _) as [[]|]; by intros [= <- <-].
Qed.

End Release.





(** C10: a release that goes through has found a handler for every tag,
    each tag once, and has taken all these handlers away; a later release
    with a tag that has no handler, be it released before or never issued,
    raises and leaves the store as it is, and what it raises is [KeyError]
    if the tasks in front of that tag go through. *)
Theorem release_at_most_once {S} `{UnitStore S} `{Services} (cfg : Config)
    (p p' : Provider S) (ts : list CompletedTask) :
  release cfg p ts = (p', None) ->
  NoDup (tag <$> ts)
  /\ (forall t, t ∈ ts ->
        is_Some (taskhandlers p !! tag t) /\ taskhandlers p' !! tag t = None)
  /\ forall t ts1 ts2,
       taskhandlers p' !! tag t = None ->
       exists p'' e,
         release cfg p' (ts1 ++ t :: ts2) = (p'', Some e)
         /\ store p'' = store p'
         /\ ((exists p1 b1,
                release_tasks cfg ts1 (p', empty_batch) = (p1, b1, None)) ->
             e = KeyError).
Proof.
  unfold release at 1.
  destruct (release_tasks cfg ts (p, empty_batch)) as [[p1 b] [e|]] eqn:Hrun;
    [discriminate|].
  destruct (remove_files ts b (log_effect p1 DashFree)) as [p2 [e|]] eqn:Hrm;
    [discriminate|].
  intros [= <-].
  apply release_tasks_frame in Hrun as (_ & _ & Hnone).
  destruct (Hnone eq_refl) as [Hnd Hall].
  apply remove_files_frame in Hrm as [_ Hth]. simpl in Hth.
  split; [done|]. split.
  - intros t Ht. destruct (Hall t Ht) as [Hsome Hgone].
    split; [done|]. simpl. by rewrite Hth.
  - intros t ts1 ts2 Ht.
    destruct (release_tasks_unknown cfg ts1 ts2 t _ empty_batch Ht)
      as (p3 & b3 & e & Hrun' & He).
    exists p3, e. unfold release. rewrite Hrun'. split; [done|].
    apply release_tasks_frame in Hrun' as (Hst & _). done.
Qed.

Lemma release_at_most_once_witness :
  exists p' p'',
    release (H0 := plain_services None) pipeline one_in_flight [succeeded 1]
    = (p', None)
    /\ taskhandlers p' !! 1 = None
    /\ release (H0 := plain_services None) pipeline p' [succeeded 1]
       = (p'', Some KeyError)
    /\ store p'' = store p'.
Proof.
  destruct (release (H0 := plain_services None) pipeline one_in_flight
              [succeeded 1]) as [p' r] eqn:Hrun.
  assert (r = None) as -> by (vm_compute in Hrun; congruence).
  destruct (release_at_most_once (H0 := plain_services None) pipeline
              one_in_flight p' [succeeded 1] Hrun) as (_ & Hall & Hagain).
  destruct (Hall (succeeded 1)) as [_ Hgone]; [set_solver|].
  destruct (Hagain (succeeded 1) [] [] Hgone) as (p'' & e & Hrun' & Hst & He).
  rewrite (He ltac:(by eexists _, _)) in Hrun'.
  exists p', p''. done.
Defined.

(* ===================================================================== *)
(** * More on obtain *)
(* ===================================================================== *)

Lemma find_category_None (cats : list Category) (n : string) :
  n ∉ name <$> cats ->
  List.find (fun c => String.eqb (name c) n) cats = None.
Proof.
  induction cats as [|c cats IH]; [done|].
  rewrite fmap_cons, not_elem_of_cons. intros [Hne Hn]. simpl.
  destruct (String.eqb_spec (name c) n); [congruence | auto].
Qed.

Lemma subtract_waiting_unknown (cfg : Config) (items : list (string * Z))
    (need : Z) (n : string) (q : Z) :
  (n, q) ∈ items ->
  n ∉ name <$> categories cfg ->
  subtract_waiting cfg items need = Raise AttributeError.
Proof.
  intros Hin Hn. revert need.
  induction items as [|[n' q'] items IH]; intros need;
    [by apply elem_of_nil in Hin|].
  cbn [subtract_waiting]. unfold getattr_categories.
  destruct (List.find _ (categories cfg)) as [c|] eqn:Hfind; simpl; [|done].
  apply elem_of_cons in Hin as [[= <- <-]|Hin]; [|auto].
  by rewrite (find_category_None _ _ Hn) in Hfind.
Qed.

Section ObtainExtras.

Context {S : Type} `{UnitStore S} `{Services}.

(** X1: after [obtain] the handlers are those there were before and one
    for each task returned, under the id of the task. *)
Theorem obtain_handler_ids (cfg : Config) (p : Provider S) (total : Z)
    (queue : gmap string Z) (o : Obtained S) (id : Z) :
  obtain cfg p total queue = Ok o ->
  is_Some (taskhandlers (o_provider o) !! id)
  <-> is_Some (taskhandlers p !! id) \/ id ∈ d_id <$> o_tasks o.
Proof.
  intros (h & _ & [[_ ->]|(_ & s' & h' & p' & _ & Hbuild & _ & Hth)])%obtain_Ok.
  { simpl. set_solver. }
  apply build_loop in Hbuild as (dn & Hds & Hdesc & Hids). simpl in Hds.
  rewrite Hth, Hids, Hds. simpl.
  assert (ti_id <$> (taskinfos (collect cfg (store p)).1
                       ++ created_infos (o_trace o)) = d_id <$> dn) as ->; [|done].
  clear Hids Hds. induction Hdesc as [|ti d infos ds [Hid _] _ IH]; [done|].
  by rewrite !fmap_cons, IH, Hid.
Qed.

(** X2: with hunger, [obtain] returns a task for every merge task that the
    first loop took from the store, in the order taken, and after those a
    task for each task created by [pop_units]. *)
Theorem obtain_returns_merges_first (cfg : Config) (p : Provider S) (total : Z)
    (queue : gmap string Z) (o : Obtained S) :
  obtain cfg p total queue = Ok o ->
  compute_hunger cfg total queue <> Ok 0 ->
  exists merged new,
    o_tasks o = merged ++ new
    /\ Forall2 (described cfg) (taskinfos (collect cfg (store p)).1) merged
    /\ Forall2 (described cfg) (created_infos (o_trace o)) new.
Proof.
  intros (h & Hh & [[-> _]|(_ & s' & h' & p' & _ & Hbuild & _)])%obtain_Ok Hne;
    [done|].
  apply build_loop in Hbuild as (dn & Hds & Hdesc & _). simpl in Hds.
  apply Forall2_app_inv_l in Hdesc as (merged & new & Hm & Hn & ->).
  exists merged, new. done.
Qed.

(** X3: a queue that names something that is no category makes [obtain]
    raise [AttributeError]. *)
Theorem obtain_unknown_queue_name (cfg : Config) (p : Provider S) (total : Z)
    (queue : gmap string Z) (n : string) :
  is_Some (queue !! n) ->
  n ∉ name <$> categories cfg ->
  obtain cfg p total queue = Raise AttributeError.
Proof.
  intros [q Hq] Hn. unfold obtain, compute_hunger.
  destruct (collect cfg (store p)) as [sh st1].
  rewrite (subtract_waiting_unknown cfg _ _ n q); [done| |done].
  by apply elem_of_map_to_list.
Qed.

(** X4: with hunger, [obtain] raises [ZeroDivisionError] when a category is
    to be filled while the shares of all categories add up to zero. *)
Theorem obtain_zero_shares (cfg : Config) (p : Provider S) (total : Z)
    (queue : gmap string Z) (h : Z) :
  compute_hunger cfg total queue = Ok h ->
  h <> 0 ->
  sum_values (sizes (collect cfg (store p)).1) = 0 ->
  walk cfg (collect cfg (store p)).1 <> [] ->
  obtain cfg p total queue = Raise ZeroDivisionError.
Proof.
  intros Hh Hne Hsum Hwalk. unfold obtain.
  destruct (collect cfg (store p)) as [sh st1]. simpl in Hsum, Hwalk.
  rewrite Hh. simpl. rewrite (proj2 (Z.eqb_neq h 0) Hne).
  unfold fill_categories, fill_step. rewrite for_each_filter.
  fold (walk cfg sh). destruct (walk cfg sh) as [|c cs]; [done|].
  cbn [for_each]. unfold fill_category. simpl. by rewrite Hsum.
Qed.

(** X5: when the cores waiting in the queue cover the total and the
    reserve, [obtain] returns no task. *)
Theorem obtain_queue_covers (cfg : Config) (p : Provider S) (total : Z)
    (queue : gmap string Z) :
  NoDup (name <$> categories cfg) ->
  (forall n, is_Some (queue !! n) -> n ∈ name <$> categories cfg) ->
  total + Z.max (int_tenth total) (payload cfg)
  <= sumZ (List.map (fun c => cores c * in_queue queue (name c)) (categories cfg)) ->
  exists o,
    obtain cfg p total queue = Ok o
    /\ o_tasks o = []
    /\ taskhandlers (o_provider o) = taskhandlers p.
Proof.
  intros Hnd Hdom Hcover.
  assert (compute_hunger cfg total queue = Ok 0) as Hh.
  { unfold compute_hunger. rewrite subtract_waiting_sum.
    - simpl. rewrite waiting_by_category by done. f_equal. lia.
    - apply Forall_forall. intros [n v] Hin. simpl.
      apply elem_of_map_to_list in Hin. eauto. }
  eexists. split; [by apply obtain_without_hunger|]. done.
Qed.

End ObtainExtras.

Lemma obtain_zero_shares_witness :
  obtain_plain coreless (half_task_store true) 10 ∅ = Raise ZeroDivisionError.
Proof.
  apply (obtain_zero_shares (H0 := plain_services None) coreless
           (fresh_provider (half_task_store true)) 10 ∅ 11).
  - vm_compute. reflexivity.
  - lia.
  - vm_compute. reflexivity.
  - vm_compute. discriminate.
Defined.

Lemma obtain_unknown_queue_name_witness :
  obtain_plain two_categories two_workflows_store 10 {[ "C" := 1 ]}
  = Raise AttributeError.
Proof.
  apply (obtain_unknown_queue_name (H0 := plain_services None) two_categories
           (fresh_provider two_workflows_store) 10 {[ "C" := 1 ]} "C").
  - by rewrite lookup_singleton_eq.
  - vm_compute. set_solver.
Defined.

Lemma obtain_queue_covers_witness :
  exists o,
    obtain_plain two_categories two_workflows_store 10 {[ "A" := 1; "B" := 7 ]}
    = Ok o
    /\ o_tasks o = []
    /\ taskhandlers (o_provider o) = ∅.
Proof.
  apply (obtain_queue_covers (H0 := plain_services None) two_categories
           (fresh_provider two_workflows_store) 10 {[ "A" := 1; "B" := 7 ]}).
  - exact two_categories_names.
  - exact (two_categories_queue 1 7).
  - vm_compute. discriminate.
Defined.

Lemma obtain_handler_ids_witness :
  exists o,
    obtain_plain two_categories two_workflows_store 10 {[ "A" := 1; "B" := 3 ]}
    = Ok o
    /\ (is_Some (taskhandlers (o_provider o) !! 2)
        <-> is_Some ((∅ : gmap Z Handler) !! 2) \/ 2 ∈ d_id <$> o_tasks o).
Proof.
  destruct (obtain_plain two_categories two_workflows_store 10
              {[ "A" := 1; "B" := 3 ]}) as [o|] eqn:Hrun;
    [|vm_compute in Hrun; discriminate].
  exists o. split; [done|].
  exact (obtain_handler_ids (H0 := plain_services None) two_categories
           (fresh_provider two_workflows_store) 10 {[ "A" := 1; "B" := 3 ]}
           o 2 Hrun).
Defined.

Lemma obtain_returns_merges_first_witness :
  exists o merged new,
    obtain_plain two_categories two_workflows_store 10 {[ "A" := 1; "B" := 3 ]}
    = Ok o
    /\ o_tasks o = merged ++ new
    /\ Forall2 (described two_categories)
               [MemStore.merge_task "b" 1 [7; 8]] merged.
Proof.
  destruct (obtain_plain two_categories two_workflows_store 10
              {[ "A" := 1; "B" := 3 ]}) as [o|] eqn:Hrun;
    [|vm_compute in Hrun; discriminate].
  destruct (obtain_returns_merges_first (H0 := plain_services None)
              two_categories (fresh_provider two_workflows_store) 10
              {[ "A" := 1; "B" := 3 ]} o Hrun)
    as (merged & new & Htasks & Hm & _).
  - vm_compute. discriminate.
  - assert (taskinfos (collect two_categories
                         (store (fresh_provider two_workflows_store))).1
            = [MemStore.merge_task "b" 1 [7; 8]]) as Heq
      by (vm_compute; reflexivity).
    rewrite Heq in Hm. exists o, merged, new.
    split; [reflexivity|]. split; [exact Htasks | exact Hm].
Defined.

(* ===================================================================== *)
(** * The sizes of the categories *)
(* ===================================================================== *)

Lemma sum_values_empty : sum_values ∅ = 0.
Proof. unfold sum_values. by rewrite map_to_list_empty. Qed.

Lemma sum_values_insert_fresh (m : gmap string Z) (k : string) (v : Z) :
  m !! k = None -> sum_values (<[k := v]> m) = v + sum_values m.
Proof.
  intros Hk. unfold sum_values.
  by rewrite (sumZ_perm _ _ (fmap_Permutation snd _ _ (map_to_list_insert m k v Hk))).
Qed.

Lemma add_share_exact (ls : list string) (w : Workflow) (complete : bool)
    (tasks_left : Q) (sh : Shares) :
  label w ∉ ls ->
  shares_exact ls sh ->
  shares_exact (label w :: ls) (add_share w complete tasks_left sh).
Proof.
  intros Hfresh [Hsum Hkeys].
  assert (forall cd cf, wflows sh !! name (category w) = Some (cd, cf) ->
            cd !! label w = None /\ cf !! label w = None) as Hnew.
  { intros cd cf Hw.
    split; apply eq_None_not_Some; intros Hs; apply Hfresh;
      eapply Hkeys; eauto. }
  pose proof (Hsum (name (category w))) as Hcat.
  unfold add_share. split.
  - intros cat. simpl.
    destruct (sizes sh !! name (category w)) as [size|] eqn:Hsize.
    + destruct Hcat as (cd & cf & Hw & ->). destruct (Hnew _ _ Hw) as [Hd Hf].
      rewrite Hw. simpl. rewrite Hw, Hsize. simpl.
      destruct (decide (cat = name (category w))) as [->|Hne].
      * rewrite !lookup_insert_eq.
        destruct complete; eexists _, _; (split; [reflexivity|]);
          rewrite sum_values_insert_fresh by done; lia.
      * rewrite !lookup_insert_ne by done. apply Hsum.
    + rewrite Hcat. simpl. rewrite !lookup_insert_eq. simpl.
      rewrite !insert_insert_eq.
      destruct (decide (cat = name (category w))) as [->|Hne].
      * rewrite !lookup_insert_eq.
        destruct complete; eexists _, _; (split; [reflexivity|]);
          rewrite sum_values_insert_fresh, sum_values_empty by done; lia.
      * rewrite !lookup_insert_ne by done. apply Hsum.
  - intros cat cdone cfeed lbl. simpl.
    destruct (decide (lbl = label w)) as [->|Hl]; [intros; apply list_elem_of_here|].
    intros Hw Hs. apply list_elem_of_further.
    destruct (wflows sh !! name (category w)) as [[cd cf]|] eqn:Hold; simpl in Hw.
    + rewrite Hold in Hw. simpl in Hw.
      destruct (decide (cat = name (category w))) as [->|Hne].
      * rewrite lookup_insert_eq in Hw.
        apply (Hkeys (name (category w)) cd cf lbl Hold).
        destruct complete; injection Hw as <- <-;
          rewrite lookup_insert_ne in Hs by done; done.
      * rewrite lookup_insert_ne in Hw by done. eauto.
    + rewrite lookup_insert_eq in Hw. simpl in Hw.
      rewrite insert_insert_eq in Hw.
      destruct (decide (cat = name (category w))) as [->|Hne].
      * rewrite lookup_insert_eq in Hw.
        destruct complete; injection Hw as <- <-;
          rewrite lookup_insert_ne in Hs by done; rewrite !lookup_empty in Hs;
          by destruct Hs as [[]|[]].
      * rewrite lookup_insert_ne in Hw by done. eauto.
Qed.

(** X6: when the labels of the workflows are distinct, the first loop of
    [obtain] leaves every category with a size that is the sum of the
    shares of its incomplete and of its complete workflows. *)
Theorem collect_sizes_exact {S} `{UnitStore S} (cfg : Config) (st : S)
    (cat : string) (size : Z) :
  NoDup (label <$> workflows cfg) ->
  sizes (collect cfg st).1 !! cat = Some size ->
  exists cdone cfeed,
    wflows (collect cfg st).1 !! cat = Some (cdone, cfeed)
    /\ size = sum_values cfeed + sum_values cdone.
Proof.
  intros Hnd Hsize. unfold collect in *.
  assert (forall (ws : list Workflow) (ls : list string) (acc : Shares * S),
            NoDup ((label <$> ws) ++ ls) ->
            shares_exact ls acc.1 ->
            exists ls', shares_exact ls' (fold_left collect_workflow ws acc).1)
    as Hfold.
  { induction ws as [|w ws IH]; intros ls [sh s] Hdist Hexact; [eauto|].
    rewrite fmap_cons in Hdist. simpl in Hdist.
    apply NoDup_cons in Hdist as [Hw Hdist].
    cbn [fold_left]. unfold collect_workflow at 2.
    destruct (pop_unmerged_tasks s (label w) (merge_size w) 10) as [ms s1].
    destruct (skipped _).
    - apply (IH ls); [done|]. exact Hexact.
    - apply (IH (label w :: ls)).
      + apply NoDup_app. apply NoDup_app in Hdist as (Hws & Hdisj & Hls).
        split; [done|]. split; [|constructor; [set_solver | done]].
        intros l Hl [->|Hin]%elem_of_cons; [set_solver | by eapply Hdisj].
      + apply add_share_exact; [set_solver|]. exact Hexact. }
  destruct (Hfold (workflows cfg) [] (no_shares, st)) as (ls' & Hsum & _).
  - by rewrite app_nil_r.
  - split; [intros c; simpl; by rewrite !lookup_empty|].
    intros c cd cf l Hw. simpl in Hw. by rewrite lookup_empty in Hw.
  - specialize (Hsum cat). by rewrite Hsize in Hsum.
Qed.

Lemma collect_sizes_exact_witness :
  exists cdone cfeed,
    wflows (collect shared_category shared_category_store).1 !! "B"
    = Some (cdone, cfeed)
    /\ 20 = sum_values cfeed + sum_values cdone.
Proof.
  apply (collect_sizes_exact shared_category shared_category_store "B" 20).
  - apply (bool_decide_unpack _). vm_compute. exact I.
  - vm_compute. reflexivity.
Defined.

(* ===================================================================== *)
(** * More on release *)
(* ===================================================================== *)

Lemma omap_ext_in {A B : Type} (f g : A -> option B) (l : list A) :
  (forall x, x ∈ l -> f x = g x) -> omap f l = omap g l.
Proof.
  induction l as [|x l IH]; intros Hfg; [done|]. csimpl.
  rewrite (Hfg x) by apply list_elem_of_here.
  rewrite IH; [done|]. intros y Hy. apply Hfg. by apply list_elem_of_further.
Qed.

Section ReleaseExtras.

Context {S : Type} `{UnitStore S} `{Services}.

Lemma release_tasks_app (cfg : Config) (ts1 ts2 : list CompletedTask)
    (acc : Provider S * Batch) :
  release_tasks cfg (ts1 ++ ts2) acc
  = match release_tasks cfg ts1 acc with
    | (p, b, None) => release_tasks cfg ts2 (p, b)
    | r => r
    end.
Proof.
  revert acc. induction ts1 as [|t ts1 IH]; intros [p b];
    cbn [release_tasks app]; [done|].
  destruct (release_task cfg (p, b) t) as [[p1 b1] [e|]]; [done | apply IH].
Qed.

(** What a task that goes through adds to the batch. *)
Lemma release_task_batch (cfg : Config) (p p' : Provider S) (b b' : Batch)
    (t : CompletedTask) :
  release_task cfg (p, b) t = (p', b', None) ->
  cleanup b' = cleanup b ++ task_cleanup cfg (taskhandlers p) t
  /\ forall k,
       default [] (update b' !! k)
       = default [] (update b !! k)
         ++ from_option (fun u => [u]) [] (task_update (taskhandlers p) k t).
Proof.
  intros (h & w & Hh & Hw & p2 & b2 & Hsettle & _ & _ & _ & Hclean & _ & Hupd)
         %release_task_None.
  unfold task_cleanup, task_update, task_handler. rewrite Hh, Hw.
  pose proof (settle_Ok _ _ _ _ _ _ _ Hsettle) as (_ & _ & Hupd2 & _).
  rewrite Hclean, Hupd, Hupd2. split.
  - unfold settle in Hsettle. destruct ((process h t).1.1.1).
    + by injection Hsettle as <- <-.
    + destruct (_ || _); [destruct (outputs h) as [|[rf fn] outs]|];
        simpl in Hsettle; try discriminate; injection Hsettle as <- <-; simpl;
        destruct (is_merge h && merge_cleanup w); by rewrite ?app_nil_r.
  - intros k. destruct (decide ((dataset h, unit_source h) = k)) as [<-|Hne].
    + by rewrite lookup_insert_eq.
    + rewrite lookup_insert_ne by done. simpl. by rewrite app_nil_r.
Qed.

Lemma release_tasks_batch (cfg : Config) (ts : list CompletedTask)
    (p p' : Provider S) (b b' : Batch) :
  release_tasks cfg ts (p, b) = (p', b', None) ->
  cleanup b' = cleanup b ++ concat (task_cleanup cfg (taskhandlers p) <$> ts)
  /\ forall k,
       default [] (update b' !! k)
       = default [] (update b !! k) ++ omap (task_update (taskhandlers p) k) ts.
Proof.
  revert p b. induction ts as [|t ts IH]; intros p b; cbn [release_tasks].
  - intros [= <- <-]. simpl. split; [|intros k]; by rewrite app_nil_r.
  - destruct (release_task cfg (p, b) t) as [[p1 b1] [e|]] eqn:Hstep;
      [discriminate|].
    intros Hrest.
    pose proof (release_task_frame _ _ _ _ _ _ _ Hstep) as (_ & _ & _ & Hdel).
    destruct (Hdel eq_refl) as [_ Hdel'].
    pose proof (release_tasks_frame _ _ _ _ _ _ _ Hrest) as (_ & _ & Hall).
    destruct (Hall eq_refl) as [_ Hsome].
    assert (forall t', t' ∈ ts ->
              taskhandlers p1 !! tag t' = taskhandlers p !! tag t') as Hsame.
    { intros t' Ht'. destruct (Hsome t' Ht') as [[h' Hh'] _].
      rewrite Hdel' in Hh' |- *. apply lookup_delete_Some in Hh' as [Hne _].
      by rewrite lookup_delete_ne. }
    apply release_task_batch in Hstep as [Hc Hu].
    destruct (IH _ _ Hrest) as [Hc' Hu'].
    split.
    + rewrite Hc', Hc, fmap_cons, <- app_assoc. simpl. do 3 f_equal.
      apply list_fmap_ext. intros i t' Ht'%list_elem_of_lookup_2.
      unfold task_cleanup, task_handler. by rewrite (Hsame t' Ht').
    + intros k. rewrite Hu', Hu, <- app_assoc. f_equal.
      assert (omap (task_update (taskhandlers p1) k) ts
              = omap (task_update (taskhandlers p) k) ts) as ->.
      { apply omap_ext_in. intros t' Ht'. unfold task_update.
        by rewrite (Hsame t' Ht'). }
      simpl. by destruct (task_update (taskhandlers p) k t).
Qed.

(** X7: when the tasks of a release all go through, the cleanup list holds,
    task by task, the local output files of the failed tasks and the input
    files of the merge tasks that succeeded in a workflow with
    [merge_cleanup]; nothing else is removed. *)
Theorem release_cleanup_list (cfg : Config) (p p1 : Provider S)
    (ts : list CompletedTask) (b : Batch) :
  release_tasks cfg ts (p, empty_batch) = (p1, b, None) ->
  cleanup b = concat (task_cleanup cfg (taskhandlers p) <$> ts).
Proof. by intros [Hc _]%release_tasks_batch. Qed.

(** X8: when the tasks of a release all go through, the batch for
    [update_units] holds under each pair of dataset and unit source the
    updates of the tasks whose handler carries that pair, one for each
    task and in the order of the tasks. *)
Theorem release_updates_grouped (cfg : Config) (p p1 : Provider S)
    (ts : list CompletedTask) (b : Batch) (k : string * string) :
  release_tasks cfg ts (p, empty_batch) = (p1, b, None) ->
  default [] (update b !! k) = omap (task_update (taskhandlers p) k) ts.
Proof. intros [_ Hu]%release_tasks_batch. by rewrite Hu. Qed.

(** X9: when a task of the batch has no handler after the tasks in front of
    it have gone through, [release] raises [KeyError]; the store is as it
    was, yet the handlers of the tasks in front are gone, so that their
    updates cannot be released again. *)
Theorem release_failure_loses_updates (cfg : Config) (p p1 : Provider S)
    (ts1 ts2 : list CompletedTask) (t : CompletedTask) (b1 : Batch) :
  release_tasks cfg ts1 (p, empty_batch) = (p1, b1, None) ->
  taskhandlers p1 !! tag t = None ->
  exists p',
    release cfg p (ts1 ++ t :: ts2) = (p', Some KeyError)
    /\ store p' = store p
    /\ forall t1, t1 ∈ ts1 -> taskhandlers p' !! tag t1 = None.
Proof.
  intros Hrun Hnone. unfold release. rewrite release_tasks_app, Hrun.
  cbn [release_tasks]. unfold release_task. rewrite Hnone.
  eexists. split; [reflexivity|]. simpl.
  apply release_tasks_frame in Hrun as (Hst & _ & Hall).
  split; [done|]. intros t1 Ht1. by apply (Hall eq_refl).
Qed.

(** X10: an exception of the removal other than [IOError], [OSError] and
    [ValueError] leaves [release]: the store gets no update although the
    handlers of all tasks of the batch are gone. *)
Theorem removal_other_error_propagates (cfg : Config) (p p1 : Provider S)
    (ts : list CompletedTask) (b : Batch) (e : exn) :
  release_tasks cfg ts (p, empty_batch) = (p1, b, None) ->
  cleanup b <> [] ->
  fs_remove (cleanup b) = Some e ->
  e <> IOError -> e <> OSError -> e <> ValueError ->
  exists p',
    release cfg p ts = (p', Some e)
    /\ store p' = store p
    /\ forall t, t ∈ ts -> taskhandlers p' !! tag t = None.
Proof.
  intros Hrun Hclean Hrm H1 H2 H3. unfold release. rewrite Hrun.
  apply release_tasks_frame in Hrun as (Hst & _ & Hall).
  unfold remove_files. destruct (cleanup b) as [|f fs] eqn:Hc; [done|].
  rewrite Hrm.
  destruct e; try done; eexists; (split; [reflexivity|]); simpl;
    (split; [done|]); intros t Ht; by apply (Hall eq_refl).
Qed.

End ReleaseExtras.

Lemma release_cleanup_list_witness :
  exists p1 b,
    release_tasks (H := plain_services None) pipeline
                  [exhausted 1; succeeded 2] (two_in_flight, empty_batch)
    = (p1, b, None)
    /\ cleanup b = ["local.root"].
Proof.
  destruct (release_tasks (H := plain_services None) pipeline
              [exhausted 1; succeeded 2] (two_in_flight, empty_batch))
    as [[p1 b] r] eqn:Hrun.
  assert (r = None) as -> by (vm_compute in Hrun; congruence).
  exists p1, b. split; [done|].
  etrans; [exact (release_cleanup_list (H0 := plain_services None) pipeline
                    two_in_flight p1 [exhausted 1; succeeded 2] b Hrun)|].
  vm_compute. reflexivity.
Defined.

Lemma release_updates_grouped_witness :
  exists p1 b,
    release_tasks (H := plain_services None) pipeline
                  [exhausted 1; succeeded 2] (two_in_flight, empty_batch)
    = (p1, b, None)
    /\ default [] (update b !! ("a", "units")) = [([1], [], []); ([2], [], [])].
Proof.
  destruct (release_tasks (H := plain_services None) pipeline
              [exhausted 1; succeeded 2] (two_in_flight, empty_batch))
    as [[p1 b] r] eqn:Hrun.
  assert (r = None) as -> by (vm_compute in Hrun; congruence).
  exists p1, b. split; [done|].
  etrans; [exact (release_updates_grouped (H0 := plain_services None) pipeline
                    two_in_flight p1 [exhausted 1; succeeded 2] b
                    ("a", "units") Hrun)|].
  vm_compute. reflexivity.
Defined.

Lemma release_failure_loses_updates_witness :
  exists p',
    release (H0 := plain_services None) pipeline two_in_flight
            ([succeeded 1] ++ succeeded 1 :: [succeeded 2])
    = (p', Some KeyError)
    /\ store p' = empty_store
    /\ taskhandlers p' !! 1 = None.
Proof.
  destruct (release_tasks (H := plain_services None) pipeline
              [succeeded 1] (two_in_flight, empty_batch))
    as [[p1 b1] r] eqn:Hrun.
  assert (r = None /\ taskhandlers p1 !! 1 = None) as [-> Hgone].
  { vm_compute in Hrun. injection Hrun as <- <- <-. split; reflexivity. }
  destruct (release_failure_loses_updates (H0 := plain_services None) pipeline
              two_in_flight p1 [succeeded 1] [succeeded 2] (succeeded 1) b1
              Hrun Hgone) as (p' & Hrel & Hst & Hall).
  exists p'. split; [done|]. split; [done|].
  apply (Hall (succeeded 1)). set_solver.
Defined.

Lemma removal_other_error_propagates_witness :
  exists p',
    release (H0 := plain_services (Some RuntimeError)) pipeline one_in_flight
            [exhausted 1] = (p', Some RuntimeError)
    /\ store p' = empty_store
    /\ taskhandlers p' !! 1 = None.
Proof.
  destruct (release_tasks (H := plain_services (Some RuntimeError)) pipeline
              [exhausted 1] (one_in_flight, empty_batch))
    as [[p1 b] r] eqn:Hrun.
  assert (r = None /\ cleanup b = ["local.root"]) as [-> Hclean].
  { vm_compute in Hrun. injection Hrun as <- <- <-. split; reflexivity. }
  destruct (removal_other_error_propagates
              (H0 := plain_services (Some RuntimeError)) pipeline one_in_flight
              p1 [exhausted 1] b RuntimeError Hrun)
    as (p' & Hrel & Hst & Hall); try done.
  - by rewrite Hclean.
  - exists p'. split; [done|]. split; [done|].
    apply (Hall (exhausted 1)). set_solver.
Defined.

(* ===================================================================== *)
(** * ReleaseSummary *)
(* ===================================================================== *)

Lemma land_pow2_testbit (a i : Z) :
  0 <= i -> Z.land a (2 ^ i) <> 0 <-> Z.testbit a i = true.
Proof.
  intros Hi. split.
  - intros Hne. destruct (Z.testbit a i) eqn:Hbit; [done|].
    exfalso. apply Hne. apply Z.bits_inj_0. intros j.
    rewrite Z.land_spec, Z.pow2_bits_eqb by done.
    destruct (Z.eqb_spec i j) as [<-|_]; [by rewrite Hbit | apply andb_false_r].
  - intros Hbit Hzero.
    assert (Z.testbit (Z.land a (2 ^ i)) i = true) as Hland.
    { rewrite Z.land_spec, Z.pow2_bits_eqb, Hbit, Z.eqb_refl by done. done. }
    rewrite Hzero, Z.bits_0 in Hland. discriminate.
Qed.

Lemma fold_wq_flag (status : Z) (id : string) (keys : list Z)
    (d : gmap Z (list string)) (f : Z) :
  NoDup keys ->
  fold_left (wq_flag status id) keys d !! f
  = if bool_decide (f ∈ keys /\ Z.land status f <> 0)
    then Some (default [] (d !! f) ++ [id]) else d !! f.
Proof.
  intros Hnd. revert d. induction Hnd as [|k keys Hk Hnd IH]; intros d.
  - cbn [fold_left]. case_bool_decide as Hf; [|done].
    destruct Hf as [Hf _]. by apply elem_of_nil in Hf.
  - cbn [fold_left]. rewrite IH. unfold wq_flag, append_at.
    destruct (decide (f = k)) as [->|Hne].
    + rewrite (bool_decide_eq_false_2 (k ∈ keys /\ _)) by tauto.
      destruct (Z.eqb_spec (Z.land status k) 0) as [Hz|Hz].
      * rewrite bool_decide_eq_false_2; [done|]. tauto.
      * rewrite bool_decide_eq_true_2, lookup_insert_eq; [done|].
        split; [apply list_elem_of_here | done].
    + assert ((if Z.land status k =? 0 then d
               else <[k:=default [] (d !! k) ++ [id]]> d) !! f = d !! f) as ->.
      { destruct (_ =? 0); [done | by rewrite lookup_insert_ne]. }
      rewrite (bool_decide_ext (f ∈ k :: keys /\ Z.land status f <> 0)
                               (f ∈ keys /\ Z.land status f <> 0)); [done|].
      rewrite elem_of_cons. tauto.
Qed.

(** X11: [wq] files the task under the flags whose bit is set in the
    status, and under no other key: flag [2^i], for [i] below ten, gets the
    task exactly when bit [i] of the status is set. *)
Theorem summary_wq_files (status : Z) (id : string) (s : ReleaseSummary) :
  (forall i, 0 <= i < 10 ->
     rs_wq (summary_wq status id s) !! (2 ^ i)
     = if Z.testbit status i
       then Some (default [] (rs_wq s !! (2 ^ i)) ++ [id])
       else rs_wq s !! (2 ^ i))
  /\ (forall f, f ∉ flags.*1 -> rs_wq (summary_wq status id s) !! f = rs_wq s !! f)
  /\ rs_exe (summary_wq status id s) = rs_exe s
  /\ rs_taskdirs (summary_wq status id s) = rs_taskdirs s.
Proof.
  assert (NoDup flags.*1) as Hnd
    by (apply (bool_decide_unpack _); vm_compute; exact I).
  split; [|split; [|done]].
  - intros i Hi. unfold summary_wq. cbn [rs_wq].
    rewrite (fold_wq_flag _ _ _ _ _ Hnd).
    assert (2 ^ i ∈ flags.*1) as Hin.
    { assert (i = 0 \/ i = 1 \/ i = 2 \/ i = 3 \/ i = 4 \/ i = 5 \/ i = 6
              \/ i = 7 \/ i = 8 \/ i = 9) as Hcases by lia.
      repeat (destruct Hcases as [->|Hcases]; [vm_compute; set_solver|]).
      subst i. vm_compute. set_solver. }
    destruct (Z.testbit status i) eqn:Hbit.
    + rewrite bool_decide_eq_true_2; [done|].
      split; [done|]. apply land_pow2_testbit; [lia | done].
    + rewrite bool_decide_eq_false_2; [done|].
      intros [_ Hne]. apply land_pow2_testbit in Hne; [congruence | lia].
  - intros f Hf. unfold summary_wq. cbn [rs_wq].
    rewrite (fold_wq_flag _ _ _ _ _ Hnd).
    rewrite bool_decide_eq_false_2; [done | tauto].
Qed.

Lemma record_exe_cons (c : Z * string) (calls : list (Z * string))
    (s : ReleaseSummary) :
  record_exe (c :: calls) s = record_exe calls (summary_exe c.1 c.2 s).
Proof. reflexivity. Qed.

(** X12: after a sequence of calls of [exe], the list kept for a status is
    what it was, followed by the tasks reported with that status, in the
    order of the calls. *)
Theorem record_exe_groups (calls : list (Z * string)) (s : ReleaseSummary)
    (status : Z) :
  default [] (rs_exe (record_exe calls s) !! status)
  = default [] (rs_exe s !! status)
    ++ (filter (fun c => c.1 = status) calls).*2.
Proof.
  revert s. induction calls as [|[st id] calls IH]; intros s.
  - simpl. by rewrite app_nil_r.
  - rewrite record_exe_cons, IH. simpl. unfold append_at.
    rewrite filter_cons. simpl.
    destruct (decide (st = status)) as [->|Hne].
    + rewrite lookup_insert_eq. simpl. by rewrite <- app_assoc.
    + by rewrite lookup_insert_ne.
Qed.

Lemma for_each_all_Ok {A B : Type} (body : B -> A -> result B) (l : list A)
    (b : B) :
  (forall b x, x ∈ l -> exists b', body b x = Ok b') ->
  exists b', for_each body l b = Ok b'.
Proof.
  revert b. induction l as [|x l IH]; intros b Hok; [by eexists|].
  cbn [for_each]. destruct (Hok b x) as [b1 ->]; [apply list_elem_of_here|].
  simpl. apply IH. intros b2 y Hy. apply Hok. by apply list_elem_of_further.
Qed.

Lemma for_each_exn {A B : Type} (body : B -> A -> result B) (l : list A)
    (b : B) (e e' : exn) :
  (forall b x e', x ∈ l -> body b x = Raise e' -> e' = e) ->
  for_each body l b = Raise e' -> e' = e.
Proof.
  revert b. induction l as [|x l IH]; intros b Hexn; [discriminate|].
  cbn [for_each]. destruct (body b x) as [b1|e1] eqn:Hx; simpl.
  - apply IH. intros b2 y e2 Hy. apply Hexn. by apply list_elem_of_further.
  - intros [= <-]. eapply Hexn; [apply list_elem_of_here | exact Hx].
Qed.

Lemma for_each_Raise {A B : Type} (body : B -> A -> result B) (l : list A)
    (b : B) (x : A) (e : exn) :
  x ∈ l ->
  (forall b, body b x = Raise e) ->
  (forall b y e', y ∈ l -> body b y = Raise e' -> e' = e) ->
  for_each body l b = Raise e.
Proof.
  intros Hx Hraise Hexn.
  destruct (for_each body l b) as [b'|e'] eqn:Hrun;
    [|by rewrite (for_each_exn body l b e e' Hexn Hrun)].
  exfalso. revert b Hrun. induction l as [|y l IH]; intros b;
    [by apply elem_of_nil in Hx|].
  cbn [for_each]. destruct (body b y) as [b1|e1] eqn:Hy; simpl; [|discriminate].
  apply elem_of_cons in Hx as [->|Hx]; [by rewrite Hraise in Hy|].
  apply IH; [done|]. intros b2 z e2 Hz. apply Hexn. by apply list_elem_of_further.
Qed.

Lemma lookup_dirs_Ok (s : ReleaseSummary) (ids : list string) :
  Forall (fun id => is_Some (rs_taskdirs s !! id)) ids ->
  exists ds, lookup_dirs s ids = Ok ds.
Proof.
  induction 1 as [|id ids [d Hd] _ [ds IH]]; [by eexists|].
  cbn [lookup_dirs]. rewrite Hd, IH. by eexists.
Qed.

Lemma lookup_dirs_exn (s : ReleaseSummary) (ids : list string) (e : exn) :
  lookup_dirs s ids = Raise e -> e = KeyError.
Proof.
  induction ids as [|id ids IH]; [discriminate|]. cbn [lookup_dirs].
  destruct (rs_taskdirs s !! id); [|by intros [= <-]].
  destruct (lookup_dirs s ids); simpl; [discriminate|].
  intros [= <-]. by apply IH.
Qed.

Lemma lookup_dirs_Raise (s : ReleaseSummary) (ids : list string) (id : string) :
  id ∈ ids -> rs_taskdirs s !! id = None ->
  lookup_dirs s ids = Raise KeyError.
Proof.
  intros Hin Hnone.
  destruct (lookup_dirs s ids) as [ds|e] eqn:Hrun;
    [|by rewrite (lookup_dirs_exn _ _ _ Hrun)].
  exfalso. revert ds Hrun. induction ids as [|x ids IH]; intros ds;
    [by apply elem_of_nil in Hin|].
  cbn [lookup_dirs]. destruct (rs_taskdirs s !! x) as [d|] eqn:Hx;
    [|discriminate].
  apply elem_of_cons in Hin as [->|Hin]; [congruence|].
  destruct (lookup_dirs s ids) as [ds'|]; simpl; [|discriminate].
  intros _. by eapply IH.
Qed.

Lemma elem_of_sorted_keys (d : gmap Z (list string)) (k : Z) :
  k ∈ sorted_keys d <-> is_Some (d !! k).
Proof.
  unfold sorted_keys. rewrite merge_sort_Permutation, list_elem_of_fmap.
  split.
  - intros ([k' v] & -> & Hin). apply elem_of_map_to_list in Hin. by eexists.
  - intros [v Hv]. exists (k, v). split; [done|]. by apply elem_of_map_to_list.
Qed.

Lemma find_flag (f : Z) :
  f ∈ flags.*1 ->
  exists reason, List.find (fun x => x.1 =? f) flags = Some (f, reason).
Proof.
  generalize flags. intros l. induction l as [|[k r] l IH];
    [by intros ?%elem_of_nil|].
  rewrite fmap_cons. simpl. destruct (Z.eqb_spec k f) as [->|Hne]; [eauto|].
  intros [?|Hin]%elem_of_cons; [congruence | auto].
Qed.

Lemma str_exe_exn (s : ReleaseSummary) (acc : string) (status : Z) (e : exn) :
  str_exe s acc status = Raise e -> e = KeyError.
Proof.
  unfold str_exe. destruct (status =? 0); [discriminate|].
  destruct (lookup_dirs s _) as [ds|e'] eqn:Hd; simpl; [discriminate|].
  intros [= <-]. by eapply lookup_dirs_exn.
Qed.

Lemma str_wq_exn (s : ReleaseSummary) (acc : string) (flag : Z) (e : exn) :
  str_wq s acc flag = Raise e -> e = KeyError.
Proof.
  unfold str_wq. destruct (List.find _ flags) as [[k r]|]; [|by intros [= <-]].
  destruct (lookup_dirs s _) as [ds|e'] eqn:Hd; simpl; [discriminate|].
  intros [= <-]. by eapply lookup_dirs_exn.
Qed.

(** X13: [__str__] needs the directory of every task that was reported
    with an exit code other than zero or filed under a flag: with all these
    directories it returns the text, and without one of them it raises
    [KeyError]. *)
Theorem summary_str_needs_dirs (s : ReleaseSummary) :
  (forall f, is_Some (rs_wq s !! f) -> f ∈ flags.*1) ->
  ((forall id, listed s id -> is_Some (rs_taskdirs s !! id)) ->
   exists text, summary_str s = Ok text)
  /\ (forall id, listed s id -> rs_taskdirs s !! id = None ->
      summary_str s = Raise KeyError).
Proof.
  intros Hflags. unfold summary_str, summary_text. split.
  - intros Hdirs.
    destruct (for_each_all_Ok (str_exe s) (sorted_keys (rs_exe s))
                ("received the following task(s):" +:+ nl)) as [s1 ->].
    { intros acc status [ids Hids]%elem_of_sorted_keys. unfold str_exe.
      destruct (Z.eqb_spec status 0) as [?|Hne]; [by eexists|].
      destruct (lookup_dirs_Ok s (default [] (rs_exe s !! status))) as [ds ->];
        [|by eexists].
      rewrite Hids. simpl. apply Forall_forall. intros id Hid.
      apply Hdirs. left. eauto. }
    simpl.
    destruct (for_each_all_Ok (str_wq s) (sorted_keys (rs_wq s)) s1) as [s2 ->].
    { intros acc flag Hflag%elem_of_sorted_keys. unfold str_wq.
      destruct (find_flag flag (Hflags _ Hflag)) as [reason ->].
      destruct Hflag as [ids Hids].
      destruct (lookup_dirs_Ok s (default [] (rs_wq s !! flag))) as [ds ->];
        [|by eexists].
      rewrite Hids. simpl. apply Forall_forall. intros id Hid.
      apply Hdirs. right. eauto. }
    simpl. by eexists.
  - intros id Hlisted Hnone.
    destruct (for_each (str_exe s) _ _) as [s1|e] eqn:Hexe; simpl.
    + destruct Hlisted as [(status & ids & Hne & Hids & Hid)
                          |(flag & ids & Hids & Hid)].
      * exfalso.
        rewrite (for_each_Raise (str_exe s) _ _ status KeyError) in Hexe;
          [discriminate| | |].
        -- apply elem_of_sorted_keys. eauto.
        -- intros acc. unfold str_exe.
           rewrite (proj2 (Z.eqb_neq status 0) Hne), Hids. simpl.
           by rewrite (lookup_dirs_Raise s ids id Hid Hnone).
        -- intros acc y e' _. apply str_exe_exn.
      * rewrite (for_each_Raise (str_wq s) _ _ flag KeyError); [done| | |].
        -- apply elem_of_sorted_keys. eauto.
        -- intros acc. unfold str_wq.
           destruct (find_flag flag) as [reason ->]; [apply Hflags; eauto|].
           rewrite Hids. simpl.
           by rewrite (lookup_dirs_Raise s ids id Hid Hnone).
        -- intros acc y e' _. apply str_wq_exn.
    + f_equal. f_equal. eapply for_each_exn; [|exact Hexe].
      intros acc y e' _. apply str_exe_exn.
Qed.

Lemma two_tasks_flags (f : Z) :
  is_Some (rs_wq two_tasks_summary !! f) -> f ∈ flags.*1.
Proof.
  assert (Hwq : rs_wq two_tasks_summary
                = <[1 := ["7"]]> (<[16 := ["7"]]> ∅))
    by (vm_compute; reflexivity).
  rewrite Hwq. intros [ids Hf].
  apply lookup_insert_Some in Hf as [[<- _]|[_ Hf]];
    [apply (bool_decide_unpack _); vm_compute; exact I|].
  apply lookup_insert_Some in Hf as [[<- _]|[_ Hf]];
    [apply (bool_decide_unpack _); vm_compute; exact I|].
  by rewrite lookup_empty in Hf.
Qed.

Lemma summary_str_needs_dirs_witness :
  summary_str two_tasks_summary = Raise KeyError
  /\ exists text,
       summary_str (summary_dir "7" "/work/failed/7" two_tasks_summary) = Ok text.
Proof.
  split.
  - apply (proj2 (summary_str_needs_dirs two_tasks_summary two_tasks_flags) "7").
    + left. exists 1, ["7"]. split; [lia|]. split; [vm_compute; reflexivity|].
      set_solver.
    + vm_compute. reflexivity.
  - vm_compute. eexists. reflexivity.
Defined.
(* ===================================================================== *)
(** * The set-up of the provider: executable, sandbox version, roots *)
(* ===================================================================== *)

Lemma existsb_truthy_false (ps : list (option string)) :
  Forall (fun p => truthy_str p = false) ps -> existsb truthy_str ps = false.
Proof.
  induction 1 as [|p ps Hp _ IH]; [done|]. simpl. by rewrite Hp, IH.
Qed.

Lemma existsb_truthy_true (ps : list (option string)) :
  Exists (fun p => truthy_str p = true) ps -> existsb truthy_str ps = true.
Proof.
  induction 1 as [p ps Hp|p ps _ IH]; simpl; [by rewrite Hp|].
  rewrite IH. by destruct (truthy_str p).
Qed.

Lemma forallb_same (c : string) (cs : list (option string)) :
  forallb (fun x => bool_decide (x = Some c)) cs = true
  <-> Forall (fun x => x = Some c) cs.
Proof.
  induction cs as [|x cs IH]; simpl; [by split; [constructor|]|].
  rewrite andb_true_iff, bool_decide_eq_true, IH, Forall_cons. done.
Qed.

(** X14: the executable registered for the dashboard is [cmsRun] as soon as
    one workflow has a parameter set; without any, it is the command that
    all workflows share, [noncmsRun] if they share none, and with no
    workflow at all the look-up of the first command raises [IndexError]. *)
Theorem exename_cases (ws : list (option string * option string)) :
  (Exists (fun w => truthy_str w.1 = true) ws -> exename ws = Ok "cmsRun")
  /\ (Forall (fun w => truthy_str w.1 = false) ws ->
      (ws = [] -> exename ws = Raise IndexError)
      /\ (forall c, ws <> [] -> Forall (fun w => w.2 = Some c) ws ->
          exename ws = Ok c)
      /\ (ws <> [] -> (forall c, ~ Forall (fun w => w.2 = Some c) ws) ->
          exename ws = Ok "noncmsRun")).
Proof.
  unfold exename. split.
  - intros Hex. rewrite existsb_truthy_true; [done|].
    apply Exists_fmap. exact Hex.
  - intros Hnone. rewrite existsb_truthy_false; [|by apply Forall_fmap].
    split; [by intros ->|]. split.
    + intros c Hne Hall. destruct ws as [|[p0 c0] ws]; [done|].
      pose proof (Forall_inv Hall) as Hc0. simpl in Hc0. subst c0.
      rewrite fmap_cons. cbn [snd].
      rewrite (proj2 (forallb_same c (Some c :: ws.*2))); [done|].
      constructor; [done|]. apply Forall_fmap. exact (Forall_inv_tail Hall).
    + intros Hne Hdiff. destruct ws as [|[p0 [c0|]] ws]; [done| |done].
      rewrite fmap_cons. cbn [snd].
      destruct (forallb _ _) eqn:Hall; [|done].
      exfalso. apply (Hdiff c0).
      apply forallb_same in Hall. constructor; [done|].
      pose proof (Forall_inv_tail Hall) as Htail.
      apply Forall_fmap in Htail. exact Htail.
Qed.

Lemma exename_cases_witness :
  exename [(None, Some "run.sh"); (Some "pset.py", None)] = Ok "cmsRun"
  /\ exename [] = Raise IndexError
  /\ exename [(None, Some "run.sh"); (Some "", Some "run.sh")] = Ok "run.sh"
  /\ exename [(None, Some "run.sh"); (None, Some "sim.sh")] = Ok "noncmsRun".
Proof.
  split; [|split; [|split]].
  - apply (proj1 (exename_cases _)). apply Exists_cons_tl, Exists_cons_hd.
    reflexivity.
  - apply (proj2 (exename_cases [])); [constructor | reflexivity].
  - apply (proj2 (exename_cases _)); [by repeat constructor|done|].
    by repeat constructor.
  - apply (proj2 (exename_cases _)); [by repeat constructor|done|].
    intros c Hall. inversion Hall as [|x l H1 H2]; subst.
    inversion H2 as [|y l' H3 _]; subst. simpl in H1, H3. congruence.
Defined.

(** X15: a sandbox version is registered exactly when there is a workflow
    and all workflows have the same version, which is then the version
    registered (possibly [None]). *)
Theorem sandbox_version_same (versions : list (option string))
    (v : option string) :
  sandbox_version versions = Some v
  <-> versions <> [] /\ Forall (fun x => x = v) versions.
Proof.
  unfold sandbox_version. split.
  - destruct (elements _) as [|v' [|]] eqn:Hel; [done| |done].
    intros [= ->].
    assert (Hin : forall x, x ∈ versions <-> x = v).
    { intros x. rewrite <- (elem_of_list_to_set (C := gset (option string))),
        <- elem_of_elements, Hel.
      by rewrite list_elem_of_singleton. }
    split.
    + destruct versions as [|x l]; [|done].
      pose proof (proj2 (Hin v) eq_refl) as Hv. by apply elem_of_nil in Hv.
    + apply Forall_forall. intros x Hx. by apply Hin.
  - intros [Hne Hall].
    assert (Hset : (list_to_set versions : gset (option string)) = {[v]}).
    { apply set_eq. intros x.
      rewrite elem_of_list_to_set, elem_of_singleton. split.
      - intros Hx. by apply (proj1 (Forall_forall _ _) Hall).
      - intros ->. destruct versions as [|y l]; [done|].
        rewrite (Forall_inv Hall). apply list_elem_of_here. }
    rewrite Hset, elements_singleton. done.
Qed.

Lemma find_label_app (l : string) (pre post : list Workflow) (w : Workflow) :
  label w = l -> l ∉ label <$> pre ->
  List.find (fun w => String.eqb (label w) l) (pre ++ w :: post) = Some w.
Proof.
  intros Hw. induction pre as [|x pre IH]; simpl.
  - intros _. by rewrite (proj2 (String.eqb_eq _ _) Hw).
  - intros Hnot. apply not_elem_of_cons in Hnot as [Hne Hnot].
    destruct (String.eqb_spec (label x) l); [congruence|]. by apply IH.
Qed.

Lemma first_label (l : string) (ws : list Workflow) :
  l ∈ label <$> ws ->
  exists pre w post,
    ws = pre ++ w :: post /\ label w = l /\ l ∉ label <$> pre.
Proof.
  induction ws as [|x ws IH]; [by intros ?%elem_of_nil|].
  rewrite fmap_cons. intros Hin.
  destruct (decide (label x = l)) as [Hx|Hx].
  - exists [], x, ws. split; [done|]. split; [done|]. apply not_elem_of_nil.
  - apply elem_of_cons in Hin as [?|Hin]; [congruence|].
    destruct (IH Hin) as (pre & w & post & -> & Hw & Hpre).
    exists (x :: pre), w, post. split; [done|]. split; [done|].
    rewrite fmap_cons. apply not_elem_of_cons. split; [congruence | done].
Qed.

Lemma ordered_app (before : list string) (pre post : list Workflow)
    (w : Workflow) :
  ordered before (pre ++ w :: post) ->
  truthy_str (prerequisite w) = true ->
  default "" (prerequisite w) ∈ (label <$> pre) ++ before.
Proof.
  revert before. induction pre as [|x pre IH]; intros before; simpl.
  - intros [Hw _]. exact Hw.
  - intros [_ Hrest] Hpre. specialize (IH _ Hrest Hpre).
    apply elem_of_app in IH as [IH|IH].
    + apply list_elem_of_further, elem_of_app. by left.
    + apply elem_of_cons in IH as [->|IH]; [apply list_elem_of_here|].
      apply list_elem_of_further, elem_of_app. by right.
Qed.

Lemma find_root_from (cfg : Config) (fuel : nat) :
  ordered [] (workflows cfg) ->
  forall (l : string) (pre post : list Workflow) (w : Workflow),
    workflows cfg = pre ++ w :: post -> label w = l -> l ∉ label <$> pre ->
    (length pre < fuel)%nat ->
    exists r, find_root fuel cfg l = Some (Ok r) /\ r ∈ label <$> workflows cfg.
Proof.
  intros Hord. induction fuel as [|fuel IH]; intros l pre post w Hws Hw Hpre Hlen;
    [lia|].
  cbn [find_root]. unfold getattr_workflows.
  rewrite Hws, (find_label_app l pre post w Hw Hpre), <- Hws.
  destruct (truthy_str (prerequisite w)) eqn:Htruthy.
  - pose proof Hord as Hin. rewrite Hws in Hin.
    apply ordered_app in Hin; [|done]. rewrite app_nil_r in Hin.
    destruct (first_label _ _ Hin) as (pre1 & w1 & post1 & Hsplit & Hw1 & Hpre1).
    apply (IH _ pre1 (post1 ++ w :: post) w1); [|done|done|].
    + rewrite Hws, Hsplit, <- app_assoc. done.
    + rewrite Hsplit, length_app in Hlen. simpl in Hlen. lia.
  - exists l. split; [done|]. rewrite Hws, fmap_app, fmap_cons, Hw.
    apply elem_of_app. right. apply list_elem_of_here.
Qed.

(** X16: what [__find_root] returns is the label of a workflow without
    prerequisite, and what it raises, for a label or a prerequisite that
    names no workflow, is [AttributeError]. *)
Theorem find_root_result (cfg : Config) (fuel : nat) (l : string)
    (res : result string) :
  find_root fuel cfg l = Some res ->
  match res with
  | Ok r => exists w, getattr_workflows cfg r = Ok w
                      /\ truthy_str (prerequisite w) = false
  | Raise e => e = AttributeError
                /\ exists missing, getattr_workflows cfg missing = Raise e
  end.
Proof.
  revert l. induction fuel as [|fuel IH]; intros l; [discriminate|].
  cbn [find_root]. destruct (getattr_workflows cfg l) as [w|e] eqn:Hw.
  - destruct (truthy_str (prerequisite w)) eqn:Htruthy; [apply IH|].
    intros [= <-]. eauto.
  - intros [= <-].
    assert (e = AttributeError) as ->.
    { unfold getattr_workflows in Hw. destruct (List.find _ _); congruence. }
    split; [done|]. by exists l.
Qed.

Lemma find_root_result_witness :
  exists w, getattr_workflows chain "lhe" = Ok w
            /\ truthy_str (prerequisite w) = false.
Proof.
  apply (find_root_result chain 3 "digi" (Ok "lhe")). vm_compute. reflexivity.
Defined.

(** X17: when every workflow comes after its prerequisite in the
    configuration, [__find_root] of the label of a workflow returns, after
    at most as many look-ups as there are workflows, the label of a
    workflow. *)
Theorem find_root_terminates (cfg : Config) (l : string) :
  ordered [] (workflows cfg) ->
  l ∈ label <$> workflows cfg ->
  exists r, find_root (length (workflows cfg)) cfg l = Some (Ok r)
            /\ r ∈ label <$> workflows cfg.
Proof.
  intros Hord Hin.
  destruct (first_label _ _ Hin) as (pre & w & post & Hws & Hw & Hpre).
  apply (find_root_from cfg _ Hord l pre post w Hws Hw Hpre).
  rewrite Hws, length_app. simpl. lia.
Qed.

Lemma find_root_terminates_witness :
  exists r, find_root 3 chain "digi" = Some (Ok r)
            /\ r ∈ label <$> workflows chain.
Proof.
  apply (find_root_terminates chain "digi").
  - simpl. repeat split; intros; try discriminate; set_solver.
  - set_solver.
Defined.

(** X18: on a set of workflows of which each has a prerequisite in the
    set, the loop of [__find_root] never ends: no number of look-ups gives
    a result. *)
Theorem find_root_cycle (cfg : Config) (S : string -> Prop) :
  (forall l, S l ->
     exists w, getattr_workflows cfg l = Ok w
               /\ truthy_str (prerequisite w) = true
               /\ S (default "" (prerequisite w))) ->
  forall l, S l -> forall fuel, find_root fuel cfg l = None.
Proof.
  intros Hclosed l Hl fuel. revert l Hl.
  induction fuel as [|fuel IH]; intros l Hl; [done|].
  cbn [find_root]. destruct (Hclosed l Hl) as (w & -> & -> & Hnext).
  by apply IH.
Qed.

Lemma find_root_cycle_witness :
  find_root 1000 cycle "a" = None.
Proof.
  apply (find_root_cycle cycle (fun l => l = "a" \/ l = "b")); [|by left].
  intros l [-> | ->].
  - exists (stage "a" (Some "b")). split; [reflexivity|].
    split; [reflexivity|]. by right.
  - exists (stage "b" (Some "a")). split; [reflexivity|].
    split; [reflexivity|]. by left.
Defined.
(* ===================================================================== *)
(** * merge_reports.py *)
(* ===================================================================== *)

Lemma add_info_other (acc : gmap string Info) (item : string * Info)
    (ifn : string) :
  item.1 <> ifn -> add_info acc item !! ifn = acc !! ifn.
Proof.
  destruct item as [k [e l]]. simpl. intros Hne.
  destruct (acc !! k) as [[e0 l0]|]; by rewrite lookup_insert_ne.
Qed.

Lemma add_info_same (acc : gmap string Info) (ifn : string) (info : Info) :
  add_info acc (ifn, info) !! ifn = join_info (acc !! ifn) (Some info).
Proof.
  destruct info as [e l]. simpl.
  destruct (acc !! ifn) as [[e0 l0]|]; by rewrite lookup_insert_eq.
Qed.

Lemma fold_add_info_other (items : list (string * Info))
    (acc : gmap string Info) (ifn : string) :
  ifn ∉ items.*1 -> fold_left add_info items acc !! ifn = acc !! ifn.
Proof.
  revert acc. induction items as [|item items IH]; intros acc; [done|].
  rewrite fmap_cons. intros [Hne Hnot]%not_elem_of_cons.
  cbn [fold_left]. rewrite IH by done. by apply add_info_other.
Qed.

Lemma fold_add_info_same (items : list (string * Info))
    (acc : gmap string Info) (ifn : string) (info : Info) :
  NoDup items.*1 -> (ifn, info) ∈ items ->
  fold_left add_info items acc !! ifn = join_info (acc !! ifn) (Some info).
Proof.
  revert acc. induction items as [|item items IH]; intros acc;
    [by intros _ ?%elem_of_nil|].
  rewrite fmap_cons. intros [Hfresh Hnodup]%NoDup_cons Hin. cbn [fold_left].
  apply elem_of_cons in Hin as [<-|Hin].
  - rewrite fold_add_info_other by done. apply add_info_same.
  - rewrite IH by done. rewrite add_info_other; [done|].
    intros Heq. apply Hfresh. rewrite Heq.
    apply list_elem_of_fmap. by exists (ifn, info).
Qed.

Lemma merge_report_lookup (acc report : gmap string Info) (ifn : string) :
  merge_report acc report !! ifn = join_info (acc !! ifn) (report !! ifn).
Proof.
  unfold merge_report. destruct (report !! ifn) as [info|] eqn:Hr.
  - apply fold_add_info_same; [apply NoDup_fst_map_to_list|].
    by apply elem_of_map_to_list.
  - simpl. apply fold_add_info_other.
    intros ([k v] & Hk & Hin)%list_elem_of_fmap. simpl in Hk. subst k.
    apply elem_of_map_to_list in Hin. congruence.
Qed.

Lemma merge_reports_from (reports : list (gmap string Info))
    (acc : gmap string Info) (ifn : string) :
  fold_left merge_report reports acc !! ifn
  = match acc !! ifn with
    | Some (e0, l0) =>
        Some (e0 + events_in reports ifn, l0 ++ lumis_in reports ifn)
    | None =>
        if bool_decide (Exists (fun r => is_Some (r !! ifn)) reports)
        then Some (events_in reports ifn, lumis_in reports ifn)
        else None
    end.
Proof.
  revert acc. induction reports as [|r reports IH]; intros acc.
  - cbn [fold_left]. unfold events_in, lumis_in.
    destruct (acc !! ifn) as [[e0 l0]|].
    + simpl. by rewrite Z.add_0_r, app_nil_r.
    + case_bool_decide as Hex; [|done]. by apply Exists_nil in Hex.
  - cbn [fold_left]. rewrite IH, merge_report_lookup.
    unfold events_in, lumis_in. rewrite fmap_cons, bind_cons.
    cbn [sumZ foldr].
    fold (sumZ ((fun r => from_option fst 0 (r !! ifn)) <$> reports)).
    destruct (r !! ifn) as [[e l]|] eqn:Hr; simpl.
    + destruct (acc !! ifn) as [[e0 l0]|].
      * by rewrite Z.add_assoc, app_assoc.
      * rewrite bool_decide_eq_true_2; [done|]. apply Exists_cons_hd.
        rewrite Hr. by eexists.
    + destruct (acc !! ifn) as [[e0 l0]|]; [done|].
      rewrite (bool_decide_ext
                 (Exists (fun r => is_Some (r !! ifn)) (r :: reports))
                 (Exists (fun r => is_Some (r !! ifn)) reports));
        [by rewrite Z.add_0_l|].
      rewrite Exists_cons, Hr. split; [|by right].
      intros [[x Hx]|H]; [discriminate | done].
Qed.

(** X19: the merged report holds an entry for exactly the input files of
    the reports merged; the entry counts the events of the file over all
    reports and lists its lumis report after report, in the order of the
    command line. *)
Theorem merge_reports_lookup (reports : list (gmap string Info))
    (ifn : string) :
  merge_reports reports !! ifn
  = if bool_decide (Exists (fun r => is_Some (r !! ifn)) reports)
    then Some (events_in reports ifn, lumis_in reports ifn)
    else None.
Proof.
  unfold merge_reports. by rewrite merge_reports_from, lookup_empty.
Qed.
